(** * tracegen.c: the integer-set stress test

    A shallow embedding of [src/trace-gen/tracegen.c]: the sorted linked
    list over an explicit heap of nodes, the rendezvous barrier as a
    transition system, the 48-bit random stream, and the worker loop. *)

From Stdlib Require Import ZArith Lia Bool.
From Stdlib Require Floats.SpecFloat.
From stdpp Require Import gmap list sorting.

Local Open Scope Z_scope.

(** ** Outcomes

    A C function of the program either returns, or runs into undefined
    behaviour ([Crash]: a read or write through [NULL] or through a freed
    pointer, a [double] that does not fit the [int] it is cast to), or
    aborts on a failed [assert], or is still looping when the fuel given
    to its [while] loop is spent. *)

Inductive outcome (A : Type) : Type :=
  | Ret (a : A)
  | Crash
  | Abort
  | OutOfFuel.
Arguments Ret {A} a.
Arguments Crash {A}.
Arguments Abort {A}.
Arguments OutOfFuel {A}.

#[global] Instance outcome_bind : MBind outcome := fun A B k m =>
  match m with
  | Ret a => k a
  | Crash => Crash
  | Abort => Abort
  | OutOfFuel => OutOfFuel
  end.

(** ** The random stream *)

Module Rand.
Import SpecFloat.

(** The range of [int], 32 bits. *)
Definition INT_MIN : Z := -2147483648.
Definition INT_MAX : Z := 2147483647.

(** The value an [int] keeps of a result that left its range: the
    arithmetic wraps around modulo [2^32]. *)
Definition wrap_int (x : Z) : Z := (x - INT_MIN) mod 2 ^ 32 + INT_MIN.
Arguments wrap_int : simpl never.

(** [unsigned short seed[3]]: three 16-bit words, the lowest first. *)
Record seed_t := Seed { s0 : Z; s1 : Z; s2 : Z }.

(** [erand48] belongs to the C library. It is taken as POSIX defines it:
    the 48-bit state [X] is replaced by [(a * X + c) mod 2^48], with the
    multiplier and the addend below, and the [double] returned is
    [X / 2^48]. *)
Definition drand48_a : Z := 0x5DEECE66D.
Definition drand48_c : Z := 0xB.

(** The 48-bit state held in the three words. *)
Definition state48 (xsubi : seed_t) : Z :=
  Z.lor (Z.shiftl (s2 xsubi) 32) (Z.lor (Z.shiftl (s1 xsubi) 16) (s0 xsubi)).

(** One step of the generator, on 64-bit unsigned arithmetic; the three
    low words of the result are stored back. *)
Definition drand48_iterate (xsubi : seed_t) : seed_t :=
  let result := (state48 xsubi * drand48_a + drand48_c) mod 2 ^ 64 in
  Seed (Z.land result 0xffff)
       (Z.land (Z.shiftr result 16) 0xffff)
       (Z.land (Z.shiftr result 32) 0xffff).

(** A [double] is an IEEE 754 binary64 number: 53 bits of mantissa,
    exponents below 1024, as the Standard Library's [SpecFloat] specifies
    them. *)
Definition prec : Z := 53.
Definition emax : Z := 1024.

(** [erand48(xsubi)]: the state is advanced and returned as the
    [double] [X / 2^48], which is exact. *)
Definition erand48 (xsubi : seed_t) : spec_float * seed_t :=
  let xsubi' := drand48_iterate xsubi in
  (binary_normalize prec emax (state48 xsubi') (-48) false, xsubi').

(** The conversion of the [int] operand of [*] to [double]. *)
Definition int_to_double (n : Z) : spec_float :=
  binary_normalize prec emax n 0 false.

(** The cast [(int)]: the fraction is dropped; the result is undefined
    when it is not an [int]. *)
Definition double_to_int (x : spec_float) : option Z :=
  match x with
  | S754_zero _ => Some 0
  | S754_finite s m e =>
      let z := cond_Zopp s (Z.shiftl (Z.pos m) e) in
      if (INT_MIN <=? z) && (z <=? INT_MAX) then Some z else None
  | _ => None
  end.

(** [rand_range(n, seed)]: [v = (int)(erand48(seed) * n)], then
    [assert (v >= 0 && v < n)]. The seed is updated in place: it is
    returned with the value. *)
Definition rand_range (n : Z) (seed : seed_t) : outcome (Z * seed_t) :=
  let '(x, seed') := erand48 seed in
  match double_to_int (SFmul prec emax x (int_to_double n)) with
  | None => Crash
  | Some v => if (0 <=? v) && (v <? n) then Ret (v, seed') else Abort
  end.

(** [1 + a + ... + a^(k-1)] for the multiplier [a] of the generator: [k]
    steps from the state [X] lead to [X + geo k * ((a - 1) * X + c)],
    modulo [2^48]. *)
Fixpoint geo (k : nat) : Z :=
  match k with
  | O => 0
  | S k' => 1 + drand48_a * geo k'
  end.

End Rand.

(** ** LINKED LIST *)

Module IntSet.

(** [VAL_MIN] is [INT_MIN] and [VAL_MAX] is [INT_MAX], for a 32-bit [int]. *)
Definition VAL_MIN : Z := -2147483648.
Definition VAL_MAX : Z := 2147483647.

(** A [node_t *] is [NULL] ([None]) or an address. *)
Definition loc := positive.
Definition ptr := option loc.

(** [val_t] values are only stored and compared, so they are kept as
    mathematical integers. *)
Record node_t := Node { val : Z; next : ptr }.

(** The allocated nodes. *)
Abbreviation heap := (gmap loc node_t).

(** [intset_t]; the set is passed by value, as [set->head] is never
    written after [set_new]. *)
Record intset_t := Intset { head : ptr }.

(** Reading a field through a pointer. *)
Definition deref (h : heap) (p : ptr) : outcome node_t :=
  match p with
  | None => Crash
  | Some l => match h !! l with Some n => Ret n | None => Crash end
  end.

(** [malloc]: an address that is not allocated. The allocation is taken
    to succeed; the program exits when it does not. *)
Definition malloc (h : heap) : loc := fresh (dom h).

(** [free(p)] *)
Definition free (h : heap) (p : ptr) : outcome heap :=
  match p with
  | None => Ret h
  | Some l => match h !! l with Some _ => Ret (delete l h) | None => Crash end
  end.

(** [p->next = q] *)
Definition store_next (h : heap) (p : ptr) (q : ptr) : outcome heap :=
  n ← deref h p ;
  match p with
  | Some l => Ret (<[l := Node (val n) q]> h)
  | None => Crash
  end.

(** [new_node(val, next, transactional)]; the last argument is not used. *)
Definition new_node (h : heap) (v : Z) (nx : ptr) : heap * ptr :=
  let l := malloc h in (<[l := Node v nx]> h, Some l).

(** [set_new]: the maximum sentinel, then the minimum sentinel in front
    of it. *)
Definition set_new (h : heap) : heap * intset_t :=
  let '(h1, max) := new_node h VAL_MAX None in
  let '(h2, min) := new_node h1 VAL_MIN max in
  (h2, Intset min).

(** [set_delete]: the loop frees [node] and moves to its successor. *)
Fixpoint set_delete_loop (fuel : nat) (h : heap) (node : ptr) : outcome heap :=
  match node with
  | None => Ret h
  | Some _ =>
      match fuel with
      | O => OutOfFuel
      | S fuel' =>
          n ← deref h node ;
          h' ← free h node ;
          set_delete_loop fuel' h' (next n)
      end
  end.

Definition set_delete (fuel : nat) (h : heap) (set : intset_t) : outcome heap :=
  set_delete_loop fuel h (head set).

(** [set_size]: [while (node->next != NULL) { size++; node = node->next; }] *)
Fixpoint set_size_loop (fuel : nat) (h : heap) (node : ptr) (size : Z) : outcome Z :=
  match fuel with
  | O => OutOfFuel
  | S fuel' =>
      n ← deref h node ;
      match next n with
      | None => Ret size
      | Some _ => set_size_loop fuel' h (next n) (size + 1)
      end
  end.

Definition set_size (fuel : nat) (h : heap) (set : intset_t) : outcome Z :=
  hd ← deref h (head set) ;
  set_size_loop fuel h (next hd) 0.

(** The traversal that opens [set_contains], [set_add] and [set_remove]:
    [while (next->val < val) { prev = next; next = prev->next; }],
    entered with [prev = set->head] and [next = prev->next]. It returns the
    final [(prev, next)]. *)
Fixpoint locate_loop (fuel : nat) (h : heap) (prev nxt : ptr) (v : Z)
  : outcome (ptr * ptr) :=
  match fuel with
  | O => OutOfFuel
  | S fuel' =>
      n ← deref h nxt ;
      if val n <? v then locate_loop fuel' h nxt (next n) v
      else Ret (prev, nxt)
  end.

Definition locate (fuel : nat) (h : heap) (set : intset_t) (v : Z)
  : outcome (ptr * ptr) :=
  hd ← deref h (head set) ;
  locate_loop fuel h (head set) (next hd) v.

(** [result = (next->val == val)] *)
Definition set_contains (fuel : nat) (h : heap) (set : intset_t) (v : Z)
  : outcome bool :=
  '(prev, nxt) ← locate fuel h set v ;
  n ← deref h nxt ;
  Ret (val n =? v).

(** [result = (next->val != val); if (result) prev->next = new_node(val, next, 0);] *)
Definition set_add (fuel : nat) (h : heap) (set : intset_t) (v : Z)
  : outcome (heap * bool) :=
  '(prev, nxt) ← locate fuel h set v ;
  n ← deref h nxt ;
  let result := negb (val n =? v) in
  if result then
    let '(h1, nw) := new_node h v nxt in
    h2 ← store_next h1 prev nw ;
    Ret (h2, result)
  else Ret (h, result).

(** [result = (next->val == val);
    if (result) { prev->next = next->next; free(next); }] *)
Definition set_remove (fuel : nat) (h : heap) (set : intset_t) (v : Z)
  : outcome (heap * bool) :=
  '(prev, nxt) ← locate fuel h set v ;
  n ← deref h nxt ;
  let result := val n =? v in
  if result then
    h1 ← store_next h prev (next n) ;
    h2 ← free h1 nxt ;
    Ret (h2, result)
  else Ret (h, result).

(** *** The chain of nodes behind a pointer

    [is_seg h p cells q]: following [next] from [p] visits exactly the
    nodes [cells] (address and value, in order) and ends on [q]. *)
Fixpoint is_seg (h : heap) (p : ptr) (cells : list (loc * Z)) (q : ptr) : Prop :=
  match cells with
  | [] => p = q
  | (l, v) :: cs =>
      p = Some l ∧ ∃ nx, h !! l = Some (Node v nx) ∧ is_seg h nx cs q
  end.

(** The set's list: the chain from [set->head] to [NULL], no node twice. *)
Definition is_set (h : heap) (set : intset_t) (cells : list (loc * Z)) : Prop :=
  is_seg h (head set) cells None ∧ NoDup cells.*1.

(** The address of the last node of [cells], or [p] when there is none. *)
Definition last_ptr (p : ptr) (cells : list (loc * Z)) : ptr :=
  match last cells with
  | Some c => Some c.1
  | None => p
  end.

(** [(lp, pv)] and [(ln, nv)] are the predecessor and the successor of
    [v]: adjacent cells, every cell between the head and the successor
    below [v], the successor not below [v]. *)
Definition position (v : Z) (cs pre : list (loc * Z)) (lp : loc) (pv : Z)
  (ln : loc) (nv : Z) (hi : list (loc * Z)) : Prop :=
  cs = pre ++ (lp, pv) :: (ln, nv) :: hi ∧
  Forall (λ c, c.2 < v) (tail (pre ++ [(lp, pv)])) ∧ v ≤ nv.

(** The heap after [set_add] spliced a node for [v] between [lp] and [ln]. *)
Definition spliced (h : heap) (lp : loc) (pv : Z) (ln : loc) (v : Z) : heap :=
  <[lp := Node pv (Some (malloc h))]> (<[malloc h := Node v (Some ln)]> h).

(** The heap after [set_remove] unlinked and freed [ln], whose successor
    was [nx]. *)
Definition unlinked (h : heap) (lp : loc) (pv : Z) (ln : loc) (nx : ptr) : heap :=
  delete ln (<[lp := Node pv nx]> h).

(** *** The order of the values along the chain *)

(** The values carried by the chain. *)
Definition values (cs : list (loc * Z)) : list Z := cs.*2.

(** What the traversals rely on: after the head, the values increase
    strictly and the last one is the maximum sentinel's. *)
Definition bounded (vs : list Z) : Prop :=
  StronglySorted Z.lt (tail vs) ∧ last (tail vs) = Some VAL_MAX.

(** The structural invariant of the set: strictly increasing values, the
    minimum sentinel first, the maximum sentinel last. *)
Definition invariant (vs : list Z) : Prop :=
  StronglySorted Z.lt vs ∧ hd_error vs = Some VAL_MIN ∧ last vs = Some VAL_MAX.

#[global] Instance invariant_dec (vs : list Z) : Decision (invariant vs).
Proof. unfold invariant. apply _. Defined.

(** *** Sequences of operations on one set *)

(** A call on the set, as a single thread issues them. *)
Inductive op := Add (v : Z) | Remove (v : Z).

Definition apply_op (fuel : nat) (h : heap) (set : intset_t) (o : op)
  : outcome (heap * bool) :=
  match o with
  | Add v => set_add fuel h set v
  | Remove v => set_remove fuel h set v
  end.

(** The operations one after the other, each on the heap the previous one
    left; the results in order. *)
Fixpoint run (fuel : nat) (h : heap) (set : intset_t) (ops : list op)
  : outcome (heap * list bool) :=
  match ops with
  | [] => Ret (h, [])
  | o :: ops' =>
      '(h1, b) ← apply_op fuel h set o ;
      '(h2, bs) ← run fuel h1 set ops' ;
      Ret (h2, b :: bs)
  end.

Definition is_add (o : op) : bool := match o with Add _ => true | Remove _ => false end.
Definition is_remove (o : op) : bool := negb (is_add o).

(** How many operations of one kind returned true. *)
Fixpoint successes (kind : op → bool) (ops : list op) (bs : list bool) : Z :=
  match ops, bs with
  | o :: ops', b :: bs' =>
      (if kind o && b then 1 else 0) + successes kind ops' bs'
  | _, _ => 0
  end.

(** Operations the sentinels can take: no value above [VAL_MAX], and no
    removal of [VAL_MAX] itself. *)
Definition op_ok (o : op) : Prop :=
  match o with
  | Add v => v ≤ VAL_MAX
  | Remove v => v < VAL_MAX
  end.

(** Operations that, in addition, do not add a value as small as [VAL_MIN]. *)
Definition op_safe (o : op) : Prop :=
  match o with
  | Add v => VAL_MIN < v ≤ VAL_MAX
  | Remove v => v < VAL_MAX
  end.

(** What one operation adds to the number of nodes. *)
Definition score (o : op) (b : bool) : Z :=
  (if is_add o && b then 1 else 0) - (if is_remove o && b then 1 else 0).

(** *** The set the program starts from, and small sets for examples *)

Definition fresh_heap : heap := (set_new ∅).1.
Definition fresh_set : intset_t := (set_new ∅).2.

(** The fresh set after [set_add] of 5. *)
Definition heap_5 : heap := spliced fresh_heap 2%positive VAL_MIN 1%positive 5.

(** The fresh set after [set_remove] of [VAL_MAX]: the maximum sentinel is
    freed and the head points to [NULL]. *)
Definition heap_no_max : heap := {[ 2%positive := Node VAL_MIN None ]}.

(** *** The set of integers the chain stands for *)

(** What a call does to a set of integers, and what it returns. *)
Definition model_op (S : gset Z) (o : op) : gset Z * bool :=
  match o with
  | Add v => (S ∪ {[v]}, bool_decide (v ∉ S))
  | Remove v => (S ∖ {[v]}, bool_decide (v ∈ S))
  end.

Fixpoint model_run (S : gset Z) (ops : list op) : gset Z * list bool :=
  match ops with
  | [] => (S, [])
  | o :: ops' =>
      let '(S1, b) := model_op S o in
      let '(S2, bs) := model_run S1 ops' in
      (S2, b :: bs)
  end.

(** The value a call is about. *)
Definition op_value (o : op) : Z :=
  match o with Add v => v | Remove v => v end.

(** The chain [cs] stands for the set [S]: the values after the head,
    the maximum sentinel's apart. *)
Definition represents (cs : list (loc * Z)) (S : gset Z) : Prop :=
  ∀ x, x ∈ S ↔ x ∈ tail (values cs) ∧ x ≠ VAL_MAX.

(** The nodes of the chain are the only difference between the heap [h]
    and the heap [h0] the set was created in. *)
Definition owns (h0 h : heap) (cs : list (loc * Z)) : Prop :=
  (∀ l, l ∈ cs.*1 → h0 !! l = None) ∧ (∀ l, l ∉ cs.*1 → h !! l = h0 !! l).


(** The chain of [heap_5]. *)
Definition cells_5 : list (loc * Z) :=
  [(2%positive, VAL_MIN); (3%positive, 5); (1%positive, VAL_MAX)].

End IntSet.

(** ** BARRIER *)

Module Barrier.

(** Where a thread stands with respect to [barrier_cross]: outside of it,
    or about to execute one of its statements, or inside
    [pthread_cond_wait], blocked or signalled. *)
Inductive pc :=
  | Outside
  | AtIncr
  | AtTest
  | AtWait
  | Blocked
  | Woken
  | AtBroadcast
  | AtReset
  | AtUnlock.

(** The barrier and the threads that use it. [count] and [crossing] are
    the fields of [barrier_t]; [mutex] is the owner of [b->mutex]. The last
    three fields are not in the program: they count, for the statements
    below, the returns of each thread from [barrier_cross], the increments
    of [crossing] and the broadcasts. *)
Record state := State {
  count : Z;
  crossing : Z;
  mutex : option nat;
  pcs : nat → pc;
  returned : nat → Z;
  arrivals : Z;
  rounds : Z
}.

Definition barrier_init (n : Z) : state :=
  State n 0 None (λ _, Outside) (λ _, 0) 0 0.

(** The entry of [t] replaced. *)
Definition upd {A} (f : nat → A) (t : nat) (x : A) : nat → A :=
  λ u, if decide (u = t) then x else f u.

(** [pthread_cond_broadcast]: every thread blocked on the condition is
    signalled. *)
Definition wake_all (p : nat → pc) : nat → pc :=
  λ u, match p u with Blocked => Woken | q => q end.

(** One statement of [barrier_cross] by thread [t]; [None] when [t] has
    no statement to execute: the mutex it asks for is taken, or [t] is
    blocked inside [pthread_cond_wait]. [pthread_cond_wait] releases the
    mutex and blocks; what ends the wait is not a statement of the thread:
    it is the broadcast of another thread ([wake_all]) or a spurious
    wake-up ([spurious], below). In either case the thread needs the mutex
    back before it returns from the wait. *)
Definition step (t : nat) (s : state) : option state :=
  let at_ (p : pc) := upd (pcs s) t p in
  match pcs s t with
  | Outside =>
      match mutex s with
      | None =>
          Some (State (count s) (crossing s) (Some t) (at_ AtIncr)
                      (returned s) (arrivals s) (rounds s))
      | Some _ => None
      end
  | AtIncr =>
      Some (State (count s) (crossing s + 1) (mutex s) (at_ AtTest)
                  (returned s) (arrivals s + 1) (rounds s))
  | AtTest =>
      Some (State (count s) (crossing s) (mutex s)
                  (at_ (if crossing s <? count s then AtWait else AtBroadcast))
                  (returned s) (arrivals s) (rounds s))
  | AtWait =>
      Some (State (count s) (crossing s) None (at_ Blocked)
                  (returned s) (arrivals s) (rounds s))
  | Blocked => None
  | Woken =>
      match mutex s with
      | None =>
          Some (State (count s) (crossing s) (Some t) (at_ AtUnlock)
                      (returned s) (arrivals s) (rounds s))
      | Some _ => None
      end
  | AtBroadcast =>
      Some (State (count s) (crossing s) (mutex s)
                  (upd (wake_all (pcs s)) t AtReset)
                  (returned s) (arrivals s) (rounds s + 1))
  | AtReset =>
      Some (State (count s) 0 (mutex s) (at_ AtUnlock)
                  (returned s) (arrivals s) (rounds s))
  | AtUnlock =>
      Some (State (count s) (crossing s) None (at_ Outside)
                  (upd (returned s) t (returned s t + 1))
                  (arrivals s) (rounds s))
  end.

(** The threads move one statement at a time, in the order of [sched]:
    the runs in which every wait lasts until a broadcast. *)
Fixpoint exec (sched : list nat) (s : state) : option state :=
  match sched with
  | [] => Some s
  | t :: sched' =>
      match step t s with
      | Some s' => exec sched' s'
      | None => None
      end
  end.

(** [pthread_cond_wait] may return with no broadcast: POSIX allows
    spurious wake-ups, which is why it asks for the wait to sit in a loop
    that tests the condition again. [barrier_cross] has it under an [if].
    The thread is then where a signalled thread is: it needs the mutex
    back before it returns from the wait. *)
Definition spurious (t : nat) (s : state) : option state :=
  match pcs s t with
  | Blocked =>
      Some (State (count s) (crossing s) (mutex s) (upd (pcs s) t Woken)
                  (returned s) (arrivals s) (rounds s))
  | _ => None
  end.

(** What moves the barrier on: a thread executes its next statement, or
    the wait of a blocked thread ends spuriously. *)
Inductive action :=
  | Run (t : nat)
  | Spurious (t : nat).

Definition act (a : action) (s : state) : option state :=
  match a with
  | Run t => step t s
  | Spurious t => spurious t s
  end.

Fixpoint perform (acts : list action) (s : state) : option state :=
  match acts with
  | [] => Some s
  | a :: acts' =>
      match act a s with
      | Some s' => perform acts' s'
      | None => None
      end
  end.

(** The statements between [pthread_mutex_lock] and the release of the
    mutex. *)
Definition holds_mutex (p : pc) : bool :=
  match p with
  | Outside | Blocked | Woken => false
  | _ => true
  end.

(** What the counters are worth, by the statement the owner of the mutex
    is about to execute. *)
Definition tally (n : Z) (s : state) : Prop :=
  match mutex s with
  | None => arrivals s = rounds s * n + crossing s ∧ 0 ≤ crossing s < n
  | Some t =>
      match pcs s t with
      | AtIncr | AtUnlock =>
          arrivals s = rounds s * n + crossing s ∧ 0 ≤ crossing s < n
      | AtTest => arrivals s = rounds s * n + crossing s ∧ 0 < crossing s ≤ n
      | AtWait => arrivals s = rounds s * n + crossing s ∧ 0 < crossing s < n
      | AtBroadcast => arrivals s = rounds s * n + n ∧ crossing s = n
      | AtReset => arrivals s = rounds s * n ∧ crossing s = n
      | _ => False
      end
  end.

(** How often a thread has returned, against the number of broadcasts. *)
Definition released (s : state) (t : nat) : Prop :=
  0 ≤ returned s t ∧
  match pcs s t with
  | Woken | AtReset | AtUnlock => returned s t + 1 ≤ rounds s
  | _ => returned s t ≤ rounds s
  end.

Record inv (n : Z) (s : state) : Prop := Inv {
  inv_count : count s = n;
  inv_owner : ∀ t, holds_mutex (pcs s t) = true ↔ mutex s = Some t;
  inv_tally : tally n s;
  inv_rounds : 0 ≤ rounds s;
  inv_released : ∀ t, released s t
}.

(** Two threads through a barrier of two, twice: thread 0 arrives and
    blocks, thread 1 arrives, broadcasts, resets and leaves, thread 0
    leaves. *)
Definition one_round : list nat := [0; 0; 0; 0; 1; 1; 1; 1; 1; 1; 0; 0]%nat.
Definition two_rounds : list nat := one_round ++ one_round.
Definition after_two_rounds : state :=
  default (barrier_init 2) (exec two_rounds (barrier_init 2)).

(** Thread 0 alone at a barrier of two: it arrives, tests [crossing],
    blocks in [pthread_cond_wait], is woken spuriously, takes the mutex
    back and unlocks. *)
Definition lone_crossing : list action :=
  [Run 0; Run 0; Run 0; Run 0; Spurious 0; Run 0; Run 0]%nat.
Definition lone_released : state :=
  default (barrier_init 2) (perform lone_crossing (barrier_init 2)).

(** It calls [barrier_cross] once more, alone still. *)
Definition lone_second_crossing : list action :=
  [Run 0; Run 0; Run 0; Run 0; Run 0; Run 0]%nat.
Definition lone_released_twice : state :=
  default lone_released (perform lone_second_crossing lone_released).

(** The second round at the point where thread 0 is blocked and thread 1,
    the second to arrive, is about to broadcast. *)
Definition before_broadcast : list nat := one_round ++ [0; 0; 0; 0; 1; 1; 1]%nat.
Definition second_rendezvous : state :=
  default (barrier_init 2) (exec before_broadcast (barrier_init 2)).

(** *** The threads that take part *)

(** Whether a thread at [p] has incremented [crossing] in the current
    round and has not been signalled since. *)
Definition counted (p : pc) : Z :=
  match p with
  | AtTest | AtWait | Blocked | AtBroadcast => 1
  | _ => 0
  end.

(** The number of such threads among the first [N]. *)
Fixpoint inside (N : nat) (p : nat → pc) : Z :=
  match N with
  | O => 0
  | S k => counted (p k) + inside k p
  end.

(** What [crossing] counts: nothing between the broadcast and the reset. *)
Definition expected (s : state) : Z :=
  match mutex s with
  | Some t => match pcs s t with AtReset => 0 | _ => crossing s end
  | None => crossing s
  end.

(** Only the first [N] threads call [barrier_cross], and [crossing] counts
    those of them that wait for the round to complete. *)
Definition census (N : nat) (s : state) : Prop :=
  (∀ t, (N ≤ t)%nat → pcs s t = Outside) ∧ inside N (pcs s) = expected s.

(** Before the first broadcast. *)
Definition no_broadcast (s : state) : Prop :=
  rounds s = 0 ∧
  ∀ t, returned s t = 0 ∧
       match pcs s t with
       | Woken | AtBroadcast | AtReset | AtUnlock => False
       | _ => True
       end.

(** Thread 0 alone at a barrier of two: it arrives and blocks. *)
Definition alone_blocked : state :=
  default (barrier_init 2) (exec [0; 0; 0; 0]%nat (barrier_init 2)).

End Barrier.

(** ** STRESS TEST *)

Module Stress.
Import IntSet Rand.

(** [thread_data_t], without the barrier and the padding. The four
    counters are [unsigned long]; [ops], [diff], [range], [update] and
    [alternate] are [int]. *)
Record thread_data_t := ThreadData {
  set : intset_t;
  nb_add : Z;
  nb_remove : Z;
  nb_contains : Z;
  nb_found : Z;
  seed : seed_t;
  ops : Z;
  diff : Z;
  range : Z;
  update : Z;
  alternate : Z
}.

(** The locals of [test]. *)
Record locals := Locals { op : Z; val : Z; last : Z }.

(** [x++] on an [unsigned long] of 64 bits. *)
Definition incr_ulong (x : Z) : Z := (x + 1) mod 2 ^ 64.

(** The call [test] makes on the set in one iteration, with its result. *)
Inductive call :=
  | CallAdd (v : Z) (result : bool)
  | CallRemove (v : Z) (result : bool)
  | CallContains (v : Z) (result : bool).

(** One line on [stderr], ["tag - value"], and the call it reports. *)
Record event := Event { tag : Z; value : Z; made : call }.

Definition with_seed (d : thread_data_t) (s : seed_t) : thread_data_t :=
  ThreadData (set d) (nb_add d) (nb_remove d) (nb_contains d) (nb_found d)
             s (ops d) (diff d) (range d) (update d) (alternate d).

Definition with_ops (d : thread_data_t) (n : Z) : thread_data_t :=
  ThreadData (set d) (nb_add d) (nb_remove d) (nb_contains d) (nb_found d)
             (seed d) n (diff d) (range d) (update d) (alternate d).

(** [if (result) d->diff++; d->nb_add++;], [diff] being an [int]. *)
Definition count_add (d : thread_data_t) (result : bool) : thread_data_t :=
  ThreadData (set d) (incr_ulong (nb_add d)) (nb_remove d) (nb_contains d)
             (nb_found d) (seed d) (ops d)
             (if result then wrap_int (diff d + 1) else diff d)
             (range d) (update d) (alternate d).

(** [if (result) d->diff--; d->nb_remove++;], [diff] being an [int]. *)
Definition count_remove (d : thread_data_t) (result : bool) : thread_data_t :=
  ThreadData (set d) (nb_add d) (incr_ulong (nb_remove d)) (nb_contains d)
             (nb_found d) (seed d) (ops d)
             (if result then wrap_int (diff d - 1) else diff d)
             (range d) (update d) (alternate d).

(** [if (result) d->nb_found++; d->nb_contains++;] *)
Definition count_contains (d : thread_data_t) (result : bool) : thread_data_t :=
  ThreadData (set d) (nb_add d) (nb_remove d) (incr_ulong (nb_contains d))
             (if result then incr_ulong (nb_found d) else nb_found d)
             (seed d) (ops d) (diff d) (range d) (update d) (alternate d).

(** [rand_range(n, d->seed)], which advances the seed in place. *)
Definition draw (n : Z) (d : thread_data_t) : outcome (Z * thread_data_t) :=
  '(v, s) ← rand_range n (seed d) ;
  Ret (v, with_seed d s).

(** The body of the loop of [test]. The heap is the one the set lives in. *)
Definition test_body (fuel : nat) (h : heap) (d : thread_data_t) (l : locals)
  : outcome (heap * thread_data_t * locals * event) :=
  '(op, d) ← draw 100 d ;
  if op <? update d then
    if negb (alternate d =? 0) then
      if last l <? 0 then
        '(r, d) ← draw (range d) d ;
        let val := r + 1 in
        '(h, result) ← set_add fuel h (set d) val ;
        Ret (h, count_add d result,
             Locals op val (if result : bool then val else last l),
             Event 0 val (CallAdd val result))
      else
        '(h, result) ← set_remove fuel h (set d) (last l) ;
        Ret (h, count_remove d result, Locals op (val l) (-1),
             Event 1 (val l) (CallRemove (last l) result))
    else
      '(r, d) ← draw (range d) d ;
      let val := r + 1 in
      if Z.land op 1 =? 0 then
        '(h, result) ← set_add fuel h (set d) val ;
        Ret (h, count_add d result, Locals op val (last l),
             Event 0 val (CallAdd val result))
      else
        '(h, result) ← set_remove fuel h (set d) val ;
        Ret (h, count_remove d result, Locals op val (last l),
             Event 1 val (CallRemove val result))
  else
    '(r, d) ← draw (range d) d ;
    let val := r + 1 in
    result ← set_contains fuel h (set d) val ;
    Ret (h, count_contains d result, Locals op val (last l),
         Event 2 val (CallContains val result)).

(** [while (d->ops--) { ... }]: [n] bounds the number of iterations. *)
Fixpoint test_loop (n : nat) (fuel : nat) (h : heap) (d : thread_data_t)
  (l : locals) (trace : list event)
  : outcome (heap * thread_data_t * locals * list event) :=
  match n with
  | O => OutOfFuel
  | S n' =>
      let continue := negb (ops d =? 0) in
      let d := with_ops d (ops d - 1) in
      if continue then
        '(h, d, l, e) ← test_body fuel h d l ;
        test_loop n' fuel h d l (trace ++ [e])
      else Ret (h, d, l, trace)
  end.

(** [test], after the barrier: [op] and [val] start indeterminate, [last]
    starts at -1. *)
Definition test (n fuel : nat) (h : heap) (d : thread_data_t) (op0 val0 : Z)
  : outcome (heap * thread_data_t * locals * list event) :=
  test_loop n fuel h d (Locals op0 val0 (-1)) [].

(** What a trace line shows. *)
Definition line (e : event) : Z * Z := (tag e, value e).

(** The fresh set after [set_add] of 1. *)
Definition heap_1 : heap := spliced fresh_heap 2%positive VAL_MIN 1%positive 1.

(** A worker on the fresh set, counters at zero. *)
Definition worker (s : seed_t) (n rg up alt : Z) : thread_data_t :=
  ThreadData fresh_set 0 0 0 0 s n 0 rg up alt.

(** *** What a run of the worker amounts to *)

(** The number of lines of the trace with a given tag. *)
Fixpoint tagged (k : Z) (t : list event) : Z :=
  match t with
  | [] => 0
  | e :: t' => (if tag e =? k then 1 else 0) + tagged k t'
  end.

(** The number of lookups that found their value. *)
Fixpoint found (t : list event) : Z :=
  match t with
  | [] => 0
  | e :: t' =>
      match made e with CallContains _ true => 1 | _ => 0 end + found t'
  end.

(** What a call adds to the number of values in the set. *)
Definition delta (e : event) : Z :=
  match made e with
  | CallAdd _ true => 1
  | CallRemove _ true => -1
  | _ => 0
  end.

(** Successful adds less successful removes. *)
Fixpoint net (t : list event) : Z :=
  match t with
  | [] => 0
  | e :: t' => delta e + net t'
  end.

(** One if the worker has a value outstanding, zero if not. *)
Definition outstanding (l : locals) : Z := if 0 <=? last l then 1 else 0.

(** The outstanding value of a worker that runs alone is in the set. *)
Definition last_ok (d : thread_data_t) (l : locals) (cs : list (loc * Z)) : Prop :=
  last l = -1 ∨
  (alternate d ≠ 0 ∧ 1 ≤ last l ≤ range d ∧ 1 ≤ val l ≤ range d ∧
   last l ∈ tail (values cs)).

(** The state a worker that runs alone starts an iteration in: a
    well-formed set within the fuel of the traversals, a range an [int]
    can hold with its successor. *)
Definition worker_ok (fuel : nat) (h : heap) (d : thread_data_t) (l : locals)
  (cs : list (loc * Z)) : Prop :=
  is_set h (set d) cs ∧ bounded (values cs) ∧ (length cs ≤ fuel)%nat ∧
  0 < range d < INT_MAX ∧ last_ok d l cs.

(** The fields an iteration does not write. *)
Definition same_config (d d' : thread_data_t) : Prop :=
  set d' = set d ∧ range d' = range d ∧ update d' = update d ∧
  alternate d' = alternate d.

(** What a line of the trace and the call behind it look like for a
    worker of configuration [d]. *)
Definition event_ok (d : thread_data_t) (e : event) : Prop :=
  match made e with
  | CallAdd v b => tag e = 0 ∧ value e = v ∧ 1 ≤ v ≤ range d
  | CallRemove v b =>
      tag e = 1 ∧ 1 ≤ v ≤ range d ∧ 1 ≤ value e ≤ range d ∧
      (alternate d = 0 → value e = v) ∧ (alternate d ≠ 0 → b = true)
  | CallContains v b => tag e = 2 ∧ value e = v ∧ 1 ≤ v ≤ range d
  end ∧
  (update d ≤ 0 → tag e = 2) ∧ (100 ≤ update d → tag e ≠ 2).


(** What one iteration does to the counters, to the size delta and to
    the set, by the line [e] it prints. *)
Definition step_facts (d : thread_data_t) (l : locals) (cs : list (loc * Z))
  (h : heap) (d' : thread_data_t) (l' : locals) (cs' : list (loc * Z))
  (h' : heap) (e : event) : Prop :=
  same_config d d' ∧ ops d' = ops d ∧ event_ok d e ∧
  nb_add d' = (if tag e =? 0 then incr_ulong (nb_add d) else nb_add d) ∧
  nb_remove d' = (if tag e =? 1 then incr_ulong (nb_remove d) else nb_remove d) ∧
  nb_contains d'
    = (if tag e =? 2 then incr_ulong (nb_contains d) else nb_contains d) ∧
  nb_found d'
    = match made e with
      | CallContains _ true => incr_ulong (nb_found d)
      | _ => nb_found d
      end ∧
  diff d' = diff d + delta e ∧
  Z.of_nat (length cs') = Z.of_nat (length cs) + delta e ∧
  (tag e = 2 → h' = h) ∧
  (alternate d ≠ 0 → outstanding l' = outstanding l + delta e).


(** The counters hold values of an [unsigned long]. *)
Definition counters_ok (d : thread_data_t) : Prop :=
  0 ≤ nb_add d < 2 ^ 64 ∧ 0 ≤ nb_remove d < 2 ^ 64 ∧
  0 ≤ nb_contains d < 2 ^ 64 ∧ 0 ≤ nb_found d < 2 ^ 64.

(** What a whole run of the loop does, by the trace [t] it prints. *)
Definition run_facts (d : thread_data_t) (l : locals) (cs : list (loc * Z))
  (h : heap) (d' : thread_data_t) (l' : locals) (cs' : list (loc * Z))
  (h' : heap) (t : list event) : Prop :=
  same_config d d' ∧ ops d' = -1 ∧ Z.of_nat (length t) = ops d ∧
  Forall (event_ok d) t ∧
  nb_add d' = (nb_add d + tagged 0 t) mod 2 ^ 64 ∧
  nb_remove d' = (nb_remove d + tagged 1 t) mod 2 ^ 64 ∧
  nb_contains d' = (nb_contains d + tagged 2 t) mod 2 ^ 64 ∧
  nb_found d' = (nb_found d + found t) mod 2 ^ 64 ∧
  diff d' = diff d + net t ∧
  Z.of_nat (length cs') = Z.of_nat (length cs) + net t ∧
  (Forall (λ e, tag e = 2) t → h' = h) ∧
  (alternate d ≠ 0 → outstanding l' = outstanding l + net t).

(** Whether the call behind a line returned 1. *)
Definition succeeded (e : event) : bool :=
  match made e with
  | CallAdd _ b | CallRemove _ b | CallContains _ b => b
  end.

(** A worker that is the only one to touch the set, as [main] starts it
    with one thread: the set is well formed with its maximum sentinel
    last, [range] and its successor fit an [int], the counters hold
    [unsigned long] values, [ops] counts down from a value that is not
    negative, [diff] cannot overflow in [ops] steps, and the traversals
    and the loop have the fuel for [ops] more nodes and iterations. *)
Definition runs_alone (n fuel : nat) (h : heap) (d : thread_data_t)
  (cs : list (loc * Z)) : Prop :=
  is_set h (set d) cs ∧ bounded (values cs) ∧
  0 < range d < INT_MAX ∧ counters_ok d ∧ 0 ≤ ops d ∧
  INT_MIN + ops d ≤ diff d ≤ INT_MAX - ops d ∧
  (length cs + Z.to_nat (ops d) ≤ fuel)%nat ∧ (Z.to_nat (ops d) < n)%nat.

(** The fresh set as a chain of cells. *)
Definition cells_fresh : list (loc * Z) :=
  [(2%positive, VAL_MIN); (1%positive, VAL_MAX)].

(** *** Populating the set *)

(** The loop of [main] that populates the set:
    [while (i < initial) { val = rand_range(range, main_seed) + 1;
       if (set_add(set, val)) { fprintf(stderr, "%d, ", val); i++; } }].
    [printed] is what went to [stderr]; [n] bounds the iterations. *)
Fixpoint populate_loop (n fuel : nat) (h : heap) (set : intset_t)
  (main_seed : seed_t) (range initial i : Z) (printed : list Z)
  : outcome (heap * seed_t * list Z) :=
  match n with
  | O => OutOfFuel
  | S n' =>
      if i <? initial then
        '(r, main_seed) ← rand_range range main_seed ;
        let val := r + 1 in
        '(h, result) ← set_add fuel h set val ;
        if result : bool
        then populate_loop n' fuel h set main_seed range initial (i + 1)
               (printed ++ [val])
        else populate_loop n' fuel h set main_seed range initial i printed
      else Ret (h, main_seed, printed)
  end.

(** [set = set_new(); ... i = 0; while (i < initial) ...] *)
Definition populate (n fuel : nat) (h : heap) (main_seed : seed_t)
  (range initial : Z) : outcome (heap * seed_t * list Z) :=
  populate_loop n fuel (set_new h).1 (set_new h).2 main_seed range initial 0 [].

(** [for (i=0; i<size; i++)] in [main] is followed by no statement of its
    own, so that its body is the statement after it:
    [barrier_init(&barrier, nb_threads + 1)]. The barrier is a local of
    [main]: it is [None] until it is initialised. *)
Fixpoint barrier_init_loop (n : nat) (i size nb_threads : Z)
  (barrier : option Barrier.state) : outcome (option Barrier.state) :=
  match n with
  | O => OutOfFuel
  | S n' =>
      if i <? size
      then barrier_init_loop n' (i + 1) size nb_threads
             (Some (Barrier.barrier_init (nb_threads + 1)))
      else Ret barrier
  end.

(** [main] from [set_new] to the barrier: the set is created and
    populated, [size = set_size(set)], and the [for] runs. *)
Definition main_setup (n fuel : nat) (h : heap) (main_seed : seed_t)
  (range initial nb_threads : Z)
  : outcome (heap * intset_t * Z * option Barrier.state) :=
  '(h', _, _) ← populate n fuel h main_seed range initial ;
  size ← set_size fuel h' (set_new h).2 ;
  barrier ← barrier_init_loop n 0 size nb_threads None ;
  Ret (h', (set_new h).2, size, barrier).

(** [data[i]] as [main] fills it in before [pthread_create]. *)
Definition thread_data (set : intset_t) (seed : seed_t)
  (ops range update alternate : Z) : thread_data_t :=
  ThreadData set 0 0 0 0 seed ops 0 range update alternate.

End Stress.

(** * Proofs *)

(** ** The random stream *)

Section RandomStream.
Import SpecFloat Rand.

Lemma digits2_pos_bounds p :
  2 ^ (Z.pos (digits2_pos p) - 1) ≤ Z.pos p < 2 ^ Z.pos (digits2_pos p).
Proof.
  induction p as [p IH|p IH|]; simpl digits2_pos.
  - rewrite Pos2Z.inj_succ.
    replace (Z.succ (Z.pos (digits2_pos p)) - 1) with (Z.succ (Z.pos (digits2_pos p) - 1)) by lia.
    rewrite !Z.pow_succ_r by lia. lia.
  - rewrite Pos2Z.inj_succ.
    replace (Z.succ (Z.pos (digits2_pos p)) - 1) with (Z.succ (Z.pos (digits2_pos p) - 1)) by lia.
    rewrite !Z.pow_succ_r by lia. lia.
  - simpl. lia.
Qed.

Lemma digits2_pos_unique p d :
  2 ^ (d - 1) ≤ Z.pos p < 2 ^ d → Z.pos (digits2_pos p) = d.
Proof.
  intros [Hlo Hhi]. pose proof (digits2_pos_bounds p) as [Hlo' Hhi'].
  assert (0 < d).
  { destruct (Z_lt_le_dec 0 d); [done|]. rewrite Z.pow_neg_r in Hlo by lia.
    exfalso. destruct (Z.eq_dec d 0) as [->|]; [simpl in Hhi; lia|].
    rewrite Z.pow_neg_r in Hhi by lia. lia. }
  destruct (Z_lt_le_dec (Z.pos (digits2_pos p)) d) as [Hlt|Hge].
  - assert (2 ^ Z.pos (digits2_pos p) ≤ 2 ^ (d - 1)) by (apply Z.pow_le_mono_r; lia). lia.
  - destruct (Z.eq_dec (Z.pos (digits2_pos p)) d) as [|Hne]; [done|].
    assert (2 ^ d ≤ 2 ^ (Z.pos (digits2_pos p) - 1)) by (apply Z.pow_le_mono_r; lia). lia.
Qed.

Lemma iter_xO_spec p k : Z.pos (Pos.iter xO p k) = Z.pos p * 2 ^ Z.pos k.
Proof.
  induction k as [|k IH] using Pos.peano_ind.
  - simpl. lia.
  - rewrite Pos.iter_succ, Pos2Z.inj_succ, Z.pow_succ_r by lia.
    change (Z.pos (Pos.iter xO p k)~0) with (2 * Z.pos (Pos.iter xO p k)). lia.
Qed.

Lemma shr_1_m mrs : 0 ≤ shr_m mrs → shr_m (shr_1 mrs) = shr_m mrs / 2.
Proof.
  destruct mrs as [[|[p|p|]|p] r s]; simpl; intros H.
  - done.
  - apply Z.div_unique with 1; lia.
  - apply Z.div_unique with 0; lia.
  - done.
  - lia.
Qed.

Lemma iter_shr_1_m k : ∀ mrs,
  0 ≤ shr_m mrs → shr_m (iter_pos shr_1 k mrs) = shr_m mrs / 2 ^ Z.pos k.
Proof.
  assert (∀ mrs, 0 ≤ shr_m mrs → 0 ≤ shr_m mrs / 2) as Hnn.
  { intros. apply Z.div_pos; lia. }
  induction k as [k IH|k IH|]; intros mrs Hm; simpl iter_pos.
  - assert (0 ≤ shr_m (shr_1 mrs)) as H1 by (rewrite shr_1_m; auto).
    assert (0 ≤ shr_m (iter_pos shr_1 k (shr_1 mrs))) as H2.
    { rewrite IH by done. apply Z.div_pos; lia. }
    rewrite IH, IH, shr_1_m by done.
    rewrite !Z.div_div by lia. f_equal.
    replace (Z.pos k~1) with (1 + Z.pos k + Z.pos k) by lia.
    rewrite !Z.pow_add_r by lia. lia.
  - assert (0 ≤ shr_m (iter_pos shr_1 k mrs)) as H2.
    { rewrite IH by done. apply Z.div_pos; lia. }
    rewrite IH, IH by done.
    rewrite !Z.div_div by lia. f_equal.
    replace (Z.pos k~0) with (Z.pos k + Z.pos k) by lia.
    rewrite !Z.pow_add_r by lia. lia.
  - by apply shr_1_m.
Qed.

Lemma fexp_normal e : -1021 ≤ e → fexp prec emax e = e - 53.
Proof. unfold fexp, emin, prec, emax. lia. Qed.

Lemma shr_pos mrs e k :
  0 < k → shr mrs e k = (iter_pos shr_1 (Z.to_pos k) mrs, e + k).
Proof. destruct k; simpl; intros; (done || lia). Qed.

Lemma shr_nonpos mrs e k : k ≤ 0 → shr mrs e k = (mrs, e).
Proof. destruct k; simpl; intros; (done || lia). Qed.

Lemma shl_align_lt mx ex ex' :
  ex' < ex → shl_align mx ex ex' = (Pos.iter xO mx (Z.to_pos (ex - ex')), ex').
Proof.
  intros H. unfold shl_align. destruct (ex' - ex) as [|d|d] eqn:E; try lia.
  do 2 f_equal. lia.
Qed.

Lemma shl_align_ge mx ex ex' : ex ≤ ex' → shl_align mx ex ex' = (mx, ex).
Proof. intros H. unfold shl_align. destruct (ex' - ex) eqn:E; (done || lia). Qed.

(** A mantissa of at most 53 digits in the normal range is not rounded. *)
Lemma binary_round_aux_exact sx m e :
  Z.pos (digits2_pos m) ≤ 53 → -1021 ≤ Z.pos (digits2_pos m) + e → e ≤ 971 →
  binary_round_aux prec emax sx (Z.pos m) e loc_Exact = S754_finite sx m e.
Proof.
  intros Hd Hlo Hhi. unfold binary_round_aux, shr_fexp. simpl Zdigits2.
  rewrite fexp_normal, shr_nonpos by lia. simpl.
  rewrite fexp_normal, shr_nonpos by lia. simpl.
  unfold emax, prec. destruct (Z.leb_spec e (1024 - 53)); [done|lia].
Qed.

Lemma round_nearest_even_bounds m l :
  m ≤ round_nearest_even m l ≤ m + 1.
Proof. destruct l as [|[]]; simpl; try lia. destruct (Z.even m); lia. Qed.

(** A longer mantissa is cut to 53 digits; the result exceeds the exact
    value by less than one unit of the digit that was cut. *)
Lemma binary_round_aux_inexact sx m e :
  53 < Z.pos (digits2_pos m) →
  -1021 ≤ Z.pos (digits2_pos m) + e → Z.pos (digits2_pos m) + e ≤ 1023 →
  ∃ m2 e2,
    binary_round_aux prec emax sx (Z.pos m) e loc_Exact = S754_finite sx m2 e2 ∧
    e < e2 ≤ e + Z.pos (digits2_pos m) - 52 ∧
    Z.pos m2 * 2 ^ (e2 - e) ≤ Z.pos m + 2 ^ (Z.pos (digits2_pos m) - 53).
Proof.
  set (d := Z.pos (digits2_pos m)). intros Hd Hlo Hhi.
  pose proof (digits2_pos_bounds m) as [Hm1 Hm2]. fold d in Hm1, Hm2.
  unfold binary_round_aux, shr_fexp. simpl Zdigits2. fold d.
  rewrite fexp_normal, shr_pos by lia.
  replace (d + e - 53 - e) with (d - 53) by lia.
  set (k := d - 53) in *.
  set (mrs := iter_pos shr_1 (Z.to_pos k) _).
  assert (shr_m mrs = Z.pos m / 2 ^ k) as Hmrs.
  { unfold mrs. rewrite iter_shr_1_m by (simpl; lia). simpl. f_equal. f_equal. lia. }
  assert (0 < 2 ^ k) as Hk by (apply Z.pow_pos_nonneg; lia).
  assert (2 ^ d = 2 ^ 53 * 2 ^ k) as Hd53.
  { rewrite <- Z.pow_add_r by lia. f_equal. lia. }
  assert (2 ^ (d - 1) = 2 ^ 52 * 2 ^ k) as Hd52.
  { rewrite <- Z.pow_add_r by lia. f_equal. lia. }
  assert (2 ^ 52 ≤ shr_m mrs < 2 ^ 53) as [Hlo1 Hhi1].
  { rewrite Hmrs. split.
    - apply Z.div_le_lower_bound; lia.
    - apply Z.div_lt_upper_bound; lia. }
  assert (shr_m mrs * 2 ^ k ≤ Z.pos m) as Hfloor.
  { rewrite Hmrs. rewrite Z.mul_comm. apply Z.mul_div_le. lia. }
  pose proof (round_nearest_even_bounds (shr_m mrs) (loc_of_shr_record mrs)) as [Hr1 Hr2].
  set (r := round_nearest_even _ _) in *.
  destruct r as [|pr|pr] eqn:Er; [lia| |lia].
  simpl Zdigits2.
  destruct (Z.eq_dec (Z.pos pr) (2 ^ 53)) as [Htop|Htop].
  - (* rounded up to the next binade: one more shift *)
    assert (pr = 9007199254740992%positive) as -> by (change (2 ^ 53) with 9007199254740992 in Htop; lia).
    change (Z.pos (digits2_pos 9007199254740992)) with 54.
    rewrite fexp_normal, shr_pos by lia.
    replace (54 + (e + k) - 53 - (e + k)) with 1 by lia.
    change (Z.to_pos 1) with 1%positive.
    change (shr_m (iter_pos shr_1 1 (shr_record_of_loc 9007199254740992 loc_Exact)))
      with 4503599627370496.
    unfold emax, prec.
    destruct (Z.leb_spec (e + k + 1) (1024 - 53)); [|lia].
    eexists _, _. split; [done|]. split; [lia|].
    replace (e + k + 1 - e) with (k + 1) by lia.
    rewrite Z.pow_add_r by lia. change (2 ^ 1) with 2.
    change (2 ^ 53) with 9007199254740992 in *. nia.
  - assert (Z.pos (digits2_pos pr) = 53) as ->.
    { apply digits2_pos_unique. change (53 - 1) with 52. lia. }
    rewrite fexp_normal, shr_nonpos by lia. simpl shr_m.
    unfold emax, prec.
    destruct (Z.leb_spec (e + k) (1024 - 53)); [|lia].
    exists pr, (e + k). split; [done|]. split; [lia|].
    replace (e + k - e) with k by lia. nia.
Qed.

(** [binary_round] of at most 53 digits only normalises: the mantissa is
    shifted left to 53 digits. *)
Lemma binary_round_normal sx p e :
  Z.pos (digits2_pos p) ≤ 53 →
  -1021 ≤ Z.pos (digits2_pos p) + e → Z.pos (digits2_pos p) + e ≤ 1024 →
  ∃ m,
    binary_round prec emax sx p e
      = S754_finite sx m (e - (53 - Z.pos (digits2_pos p))) ∧
    Z.pos m = Z.pos p * 2 ^ (53 - Z.pos (digits2_pos p)) ∧
    Z.pos (digits2_pos m) = 53.
Proof.
  set (d := Z.pos (digits2_pos p)). intros Hd Hlo Hhi.
  pose proof (digits2_pos_bounds p) as [Hp1 Hp2]. fold d in Hp1, Hp2.
  unfold binary_round. fold d. rewrite fexp_normal by lia.
  destruct (Z.eq_dec d 53) as [E|Hne].
  - rewrite shl_align_ge by lia. exists p.
    rewrite binary_round_aux_exact by (fold d; lia).
    split; [f_equal; lia|]. rewrite E. simpl. split; [lia|done].
  - rewrite shl_align_lt by lia.
    replace (e - (d + e - 53)) with (53 - d) by lia.
    set (m := Pos.iter xO p (Z.to_pos (53 - d))).
    assert (Z.pos m = Z.pos p * 2 ^ (53 - d)) as Hm.
    { unfold m. rewrite iter_xO_spec. do 2 f_equal. lia. }
    assert (Z.pos (digits2_pos m) = 53) as Hdm.
    { apply digits2_pos_unique. rewrite Hm.
      assert (0 < 2 ^ (53 - d)) by (apply Z.pow_pos_nonneg; lia).
      assert (2 ^ 53 = 2 ^ d * 2 ^ (53 - d)) as ->.
      { rewrite <- Z.pow_add_r by lia. f_equal. lia. }
      assert (2 ^ (53 - 1) = 2 ^ (d - 1) * 2 ^ (53 - d)) as ->.
      { rewrite <- Z.pow_add_r by lia. f_equal. lia. }
      split; [apply Z.mul_le_mono_nonneg_r|apply Z.mul_lt_mono_pos_r]; lia. }
    exists m. rewrite binary_round_aux_exact by lia.
    split; [f_equal; lia|done].
Qed.

Lemma lt_pow2_log2 a b : 0 ≤ a → 0 < b → a < 2 ^ b ↔ Z.log2 a < b.
Proof.
  intros Ha Hb. destruct (Z.eq_dec a 0) as [->|Hne].
  - simpl. split; [lia|]. intros _. apply Z.pow_pos_nonneg; lia.
  - apply Z.log2_lt_pow2. lia.
Qed.

Lemma land_ffff a : 0 ≤ Z.land a 0xffff < 2 ^ 16.
Proof.
  change 0xffff with (Z.ones 16). rewrite Z.land_ones by lia.
  apply Z.mod_pos_bound. lia.
Qed.

Lemma state48_range xsubi : 0 ≤ state48 (drand48_iterate xsubi) < 2 ^ 48.
Proof.
  unfold state48, drand48_iterate. cbn [s0 s1 s2].
  set (r := (_ mod _)).
  pose proof (land_ffff r) as H0.
  pose proof (land_ffff (Z.shiftr r 16)) as H1.
  pose proof (land_ffff (Z.shiftr r 32)) as H2.
  set (w0 := Z.land r _) in *. set (w1 := Z.land (Z.shiftr r 16) _) in *.
  set (w2 := Z.land (Z.shiftr r 32) _) in *.
  assert (0 ≤ Z.shiftl w1 16 < 2 ^ 48) as H1'.
  { rewrite Z.shiftl_mul_pow2 by lia. change (2 ^ 48) with (2 ^ 32 * 2 ^ 16). nia. }
  assert (0 ≤ Z.shiftl w2 32 < 2 ^ 48) as H2'.
  { rewrite Z.shiftl_mul_pow2 by lia. change (2 ^ 48) with (2 ^ 16 * 2 ^ 32). nia. }
  assert (w0 < 2 ^ 48) as H0' by (change (2 ^ 48) with (2 ^ 32 * 2 ^ 16); lia).
  split.
  - apply Z.lor_nonneg. split; [lia|]. apply Z.lor_nonneg. lia.
  - apply lt_pow2_log2; [|lia|].
    + apply Z.lor_nonneg. split; [lia|]. apply Z.lor_nonneg. lia.
    + destruct H1' as [H1a H1b], H2' as [H2a H2b].
      apply lt_pow2_log2 in H0', H1b, H2b; try lia.
      rewrite !Z.log2_lor; try lia. apply Z.lor_nonneg; lia.
Qed.

Lemma int_digits (p : positive) : Z.pos p ≤ INT_MAX → Z.pos (digits2_pos p) ≤ 31.
Proof.
  intros H. pose proof (digits2_pos_bounds p) as [Hlo _].
  destruct (Z_le_gt_dec (Z.pos (digits2_pos p)) 31); [done|].
  assert (2 ^ 31 ≤ 2 ^ (Z.pos (digits2_pos p) - 1)) by (apply Z.pow_le_mono_r; lia).
  unfold INT_MAX in H. change (2 ^ 31) with 2147483648 in *. lia.
Qed.

Lemma state_digits (p : positive) : Z.pos p < 2 ^ 48 → Z.pos (digits2_pos p) ≤ 48.
Proof.
  intros H. pose proof (digits2_pos_bounds p) as [Hlo _].
  destruct (Z_le_gt_dec (Z.pos (digits2_pos p)) 48); [done|].
  assert (2 ^ 48 ≤ 2 ^ (Z.pos (digits2_pos p) - 1)) by (apply Z.pow_le_mono_r; lia).
  lia.
Qed.

(** The product of a fraction [X / 2^48] and an [int] [n], rounded to a
    double and truncated, is below [n]. *)
Lemma scaled_product_below (px pn : positive) :
  Z.pos px < 2 ^ 48 → Z.pos pn ≤ INT_MAX →
  ∃ v,
    double_to_int
      (SFmul prec emax (binary_normalize prec emax (Z.pos px) (-48) false)
                       (int_to_double (Z.pos pn))) = Some v ∧
    0 ≤ v < Z.pos pn.
Proof.
  intros HX Hn.
  pose proof (state_digits px HX) as Hdx. pose proof (int_digits pn Hn) as Hdn.
  set (dx := Z.pos (digits2_pos px)) in *. set (dn := Z.pos (digits2_pos pn)) in *.
  assert (0 < dx) as Hdx0 by (unfold dx; lia).
  assert (0 < dn) as Hdn0 by (unfold dn; lia).
  unfold int_to_double, binary_normalize.
  destruct (binary_round_normal false px (-48)) as (mx & -> & Hmx & Dmx); [fold dx; lia..|].
  destruct (binary_round_normal false pn 0) as (my & -> & Hmy & Dmy); [fold dn; lia..|].
  fold dx in Hmx |- *. fold dn in Hmy |- *.
  unfold SFmul. simpl xorb.
  set (a := 53 - dx) in *. set (b := 53 - dn) in *.
  pose proof (digits2_pos_bounds mx) as [Bx1 Bx2]. rewrite Dmx in Bx1, Bx2.
  pose proof (digits2_pos_bounds my) as [By1 By2]. rewrite Dmy in By1, By2.
  change (53 - 1) with 52 in *.
  pose proof (digits2_pos_bounds (mx * my)) as [BP1 BP2].
  set (dP := Z.pos (digits2_pos (mx * my))) in *.
  rewrite Pos2Z.inj_mul in BP1, BP2.
  assert (2 ^ 104 ≤ Z.pos mx * Z.pos my < 2 ^ 106) as [HP1 HP2].
  { change (2 ^ 104) with (2 ^ 52 * 2 ^ 52). change (2 ^ 106) with (2 ^ 53 * 2 ^ 53).
    split; [apply Z.mul_le_mono_nonneg|apply Z.mul_lt_mono_nonneg]; lia. }
  assert (105 ≤ dP ≤ 106) as HdP.
  { split.
    - destruct (Z_lt_le_dec dP 105); [|done].
      assert (2 ^ dP ≤ 2 ^ 104) by (apply Z.pow_le_mono_r; lia). lia.
    - destruct (Z_lt_le_dec 106 dP); [|done].
      assert (2 ^ 106 ≤ 2 ^ (dP - 1)) by (apply Z.pow_le_mono_r; lia). lia. }
  destruct (binary_round_aux_inexact false (mx * my) (-48 - a + (0 - b)))
    as (m2 & e2 & -> & He2 & Hbound); [fold dP; unfold a, b; lia..|].
  fold dP in He2, Hbound. rewrite Pos2Z.inj_mul in Hbound.
  set (E := -48 - a + (0 - b)) in *.
  assert (e2 < 0) as Hneg by (unfold E, a, b in *; lia).
  unfold double_to_int, cond_Zopp.
  rewrite Z.shiftl_div_pow2 by lia.
  set (v := Z.pos m2 / 2 ^ (- e2)).
  assert (0 < 2 ^ (- e2)) as Hp by (apply Z.pow_pos_nonneg; lia).
  assert (0 ≤ v) as Hv0 by (apply Z.div_pos; lia).
  assert (v < Z.pos pn) as Hvn.
  { apply Z.div_lt_upper_bound; [done|].
    assert (0 < 2 ^ (e2 - E)) as Hq by (apply Z.pow_pos_nonneg; lia).
    apply (Z.mul_lt_mono_pos_r (2 ^ (e2 - E))); [done|].
    assert (2 ^ (- e2) * 2 ^ (e2 - E) = 2 ^ 48 * (2 ^ a * 2 ^ b)) as Hsplit.
    { rewrite <- !Z.pow_add_r by (unfold a, b; lia). f_equal. unfold E. lia. }
    assert (2 ^ (dP - 53) ≤ 2 ^ 53) as Hulp by (apply Z.pow_le_mono_r; lia).
    assert (2 ^ 5 ≤ 2 ^ a) as Ha by (apply Z.pow_le_mono_r; unfold a; lia).
    rewrite Hmx, Hmy in Hbound. rewrite Hmy in By1.
    eapply Z.le_lt_trans; [exact Hbound|].
    replace (2 ^ (- e2) * Z.pos pn * 2 ^ (e2 - E))
      with (Z.pos pn * (2 ^ (- e2) * 2 ^ (e2 - E))) by ring.
    rewrite Hsplit.
    set (T := 2 ^ a * (Z.pos pn * 2 ^ b)).
    replace (Z.pos pn * (2 ^ 48 * (2 ^ a * 2 ^ b))) with (2 ^ 48 * T) by (unfold T; ring).
    replace (Z.pos px * 2 ^ a * (Z.pos pn * 2 ^ b)) with (Z.pos px * T) by (unfold T; ring).
    assert (2 ^ 5 * 2 ^ 52 ≤ T) as HT.
    { unfold T. apply Z.mul_le_mono_nonneg; lia. }
    assert (Z.pos px * T ≤ (2 ^ 48 - 1) * T) as HXT.
    { apply Z.mul_le_mono_nonneg_r; lia. }
    change (2 ^ 5 * 2 ^ 52) with (2 ^ 53 * 16) in HT. lia. }
  exists v. unfold INT_MIN. unfold INT_MAX in *.
  destruct (Z.leb_spec (-2147483648) v); [|lia].
  destruct (Z.leb_spec v 2147483647); [|lia]. done.
Qed.

(** The value [rand_range] computes before its [assert]. *)
Lemma erand48_product n seed :
  0 < n → n ≤ INT_MAX →
  ∃ v,
    double_to_int (SFmul prec emax (erand48 seed).1 (int_to_double n)) = Some v ∧
    0 ≤ v < n.
Proof.
  intros Hn0 Hn. unfold erand48. cbn [fst].
  pose proof (state48_range seed) as [HX0 HX].
  destruct n as [|pn|pn]; [lia| |lia].
  destruct (state48 (drand48_iterate seed)) as [|px|px] eqn:EX; [| |lia].
  - (* the generator state is zero *)
    unfold int_to_double, binary_normalize.
    destruct (binary_round_normal false pn 0) as (my & -> & _);
      [pose proof (int_digits pn Hn); lia..|].
    simpl. exists 0. split; [done|lia].
  - by apply scaled_product_below.
Qed.

(** C5: for every bound [n] of type [int] with [n > 0] and every generator
    state, [rand_range] returns (the [assert] holds), the value [v] it
    returns satisfies [0 <= v < n], and the state is advanced once. *)
Theorem rand_range_in_bounds n seed :
  0 < n → n ≤ INT_MAX →
  ∃ v, rand_range n seed = Ret (v, drand48_iterate seed) ∧ 0 ≤ v < n.
Proof.
  intros Hn0 Hn.
  destruct (erand48_product n seed Hn0 Hn) as (v & E & Hv0 & Hv).
  exists v. split; [|done].
  unfold rand_range. unfold erand48 in *. cbn [fst] in E. rewrite E.
  destruct (Z.leb_spec 0 v); [|lia].
  destruct (Z.ltb_spec v n); [|lia]. done.
Qed.

Lemma rand_range_in_bounds_witness :
  ∃ v, rand_range 100 (Seed 0x330E 0 0)
         = Ret (v, drand48_iterate (Seed 0x330E 0 0)) ∧ 0 ≤ v < 100.
Proof. apply (rand_range_in_bounds 100 (Seed 0x330E 0 0)); by vm_compute. Defined.

End RandomStream.

(** ** The sorted set *)

Section SortedSet.
Import IntSet.

(** *** The chain of nodes behind a pointer *)

Section Segments.
Implicit Types (h : heap) (p q : ptr) (cs : list (loc * Z)).

Lemma is_seg_app h p cs1 cs2 q :
  is_seg h p (cs1 ++ cs2) q ↔ ∃ m, is_seg h p cs1 m ∧ is_seg h m cs2 q.
Proof.
  revert p. induction cs1 as [|[l v] cs1 IH]; intros p; simpl.
  - split; [intros H; eauto | intros (m & -> & H); done].
  - split.
    + intros (-> & nx & Hl & Hs). apply IH in Hs as (m & H1 & H2). eauto 8.
    + intros (m & (-> & nx & Hl & H1) & H2). split; [done|].
      exists nx. split; [done|]. apply IH. eauto.
Qed.

Lemma is_seg_allocated h p cs q l :
  is_seg h p cs q → l ∈ cs.*1 → is_Some (h !! l).
Proof.
  revert p. induction cs as [|[l' v] cs IH]; intros p; simpl.
  - intros _ H. by apply elem_of_nil in H.
  - intros (-> & nx & Hl & Hs) [->|Hin]%elem_of_cons; eauto.
Qed.

Lemma is_seg_insert h p cs q l n :
  l ∉ cs.*1 → is_seg h p cs q → is_seg (<[l := n]> h) p cs q.
Proof.
  revert p. induction cs as [|[l' v] cs IH]; intros p; simpl; [done|].
  intros Hnin (-> & nx & Hl & Hs). apply not_elem_of_cons in Hnin as [Hne Hnin].
  split; [done|]. exists nx. rewrite lookup_insert_ne; auto.
Qed.

Lemma is_seg_delete h p cs q l :
  l ∉ cs.*1 → is_seg h p cs q → is_seg (delete l h) p cs q.
Proof.
  revert p. induction cs as [|[l' v] cs IH]; intros p; simpl; [done|].
  intros Hnin (-> & nx & Hl & Hs). apply not_elem_of_cons in Hnin as [Hne Hnin].
  split; [done|]. exists nx. rewrite lookup_delete_ne; auto.
Qed.

Lemma is_seg_fresh h p cs q l n :
  h !! l = None → is_seg h p cs q → is_seg (<[l := n]> h) p cs q.
Proof.
  intros Hl Hs. apply is_seg_insert; [|done].
  intros Hin. destruct (is_seg_allocated _ _ _ _ _ Hs Hin) as [? ?]. congruence.
Qed.

(** A chain determines its cells: the heap is a function. *)
Lemma is_seg_func h p cs1 cs2 :
  is_seg h p cs1 None → is_seg h p cs2 None → cs1 = cs2.
Proof.
  revert p cs2. induction cs1 as [|[l v] cs1 IH]; intros p [|[l' v'] cs2]; simpl.
  - done.
  - intros -> (? & _). done.
  - intros (-> & _) ?. done.
  - intros (-> & nx & Hl & Hs) (Heq & nx' & Hl' & Hs').
    injection Heq as <-. rewrite Hl in Hl'. injection Hl' as <- <-.
    f_equal. eauto.
Qed.

Lemma malloc_fresh h : h !! malloc h = None.
Proof. apply not_elem_of_dom. unfold malloc. apply is_fresh. Qed.

End Segments.

(** *** What each operation does to the chain *)

Section Operations.
Implicit Types (h : heap) (p q : ptr) (cs pre lo hi : list (loc * Z)).
Implicit Types (set : intset_t) (v : Z).

Lemma last_ptr_cons p c cs : last_ptr p (c :: cs) = last_ptr (Some c.1) cs.
Proof.
  unfold last_ptr. destruct cs as [|c' cs]; [done|].
  change (last (c :: c' :: cs)) with (last (c' :: cs)).
  destruct (last (c' :: cs)) eqn:E; [done|]. by apply last_None in E.
Qed.

Lemma last_ptr_snoc p cs c : last_ptr p (cs ++ [c]) = Some c.1.
Proof. unfold last_ptr. by rewrite last_snoc. Qed.

(** The loop passes the nodes [lo] below [v] and stops on the first node
    whose value is not below [v]. *)
Lemma locate_loop_spec h v lo fuel prev nxt ln nv q :
  is_seg h nxt (lo ++ [(ln, nv)]) q →
  Forall (λ c, c.2 < v) lo → v ≤ nv → (length lo < fuel)%nat →
  locate_loop fuel h prev nxt v = Ret (last_ptr prev lo, Some ln).
Proof.
  revert fuel prev nxt. induction lo as [|[l w] lo IH]; intros fuel prev nxt Hs Hlo Hv Hf.
  - destruct Hs as (-> & nx & Hl & _). destruct fuel as [|fuel]; [simpl in Hf; lia|].
    simpl. rewrite Hl. simpl.
    destruct (Z.ltb_spec nv v); [lia|done].
  - destruct Hs as (-> & nx & Hl & Hs). destruct fuel as [|fuel]; [simpl in Hf; lia|].
    apply Forall_cons in Hlo as [Hw Hlo]. simpl in Hw, Hf.
    simpl. rewrite Hl. simpl.
    destruct (Z.ltb_spec w v); [|lia].
    rewrite (IH fuel (Some l) nx); [|done..|lia].
    by rewrite last_ptr_cons.
Qed.

(** The loop walks off the end of a chain whose values are all below [v]. *)
Lemma locate_loop_overrun h v lo fuel prev nxt :
  is_seg h nxt lo None →
  Forall (λ c, c.2 < v) lo → (length lo < fuel)%nat →
  locate_loop fuel h prev nxt v = Crash.
Proof.
  revert fuel prev nxt. induction lo as [|[l w] lo IH]; intros fuel prev nxt Hs Hlo Hf.
  - simpl in Hs. subst nxt. destruct fuel; [simpl in Hf; lia|done].
  - destruct Hs as (-> & nx & Hl & Hs). destruct fuel as [|fuel]; [simpl in Hf; lia|].
    apply Forall_cons in Hlo as [Hw Hlo]. simpl in Hw, Hf.
    simpl. rewrite Hl. simpl.
    destruct (Z.ltb_spec w v); [|lia].
    apply (IH fuel (Some l) nx); [done..|lia].
Qed.

Lemma locate_spec h set v cs pre lp pv ln nv hi fuel q :
  is_seg h (head set) cs q →
  position v cs pre lp pv ln nv hi → (length pre < fuel)%nat →
  locate fuel h set v = Ret (Some lp, Some ln).
Proof.
  intros Hs (-> & Hlo & Hv) Hf. unfold locate.
  replace (pre ++ (lp, pv) :: (ln, nv) :: hi)
    with ((pre ++ [(lp, pv)]) ++ [(ln, nv)] ++ hi) in Hs
    by (by rewrite <- !app_assoc).
  destruct (pre ++ [(lp, pv)]) as [|[l0 v0] lo] eqn:E.
  { by destruct pre. }
  simpl in Hlo.
  destruct Hs as (Hh & nx & Hl & Hs). rewrite Hh. simpl. rewrite Hl. simpl.
  rewrite app_assoc in Hs. apply is_seg_app in Hs as (m & Hs & _).
  assert (length pre = length lo) as Hlen.
  { apply (f_equal length) in E. rewrite length_app in E. simpl in E. lia. }
  rewrite (locate_loop_spec h v lo fuel _ nx ln nv m); [|done..|lia].
  f_equal. f_equal.
  change (Some l0) with (Some (l0, v0).1). rewrite <- (last_ptr_cons None).
  rewrite <- E. apply last_ptr_snoc.
Qed.

(** The position of [v] exists as soon as some node after the head is
    not below [v]. *)
Lemma position_exists v c0 rest :
  Exists (λ c, v ≤ c.2) rest →
  ∃ pre lp pv ln nv hi, position v (c0 :: rest) pre lp pv ln nv hi.
Proof.
  revert c0. induction rest as [|[l w] rest IH]; intros [l0 v0] Hex.
  - by apply Exists_nil in Hex.
  - destruct (Z_lt_le_dec w v) as [Hlt|Hle].
    + apply Exists_cons in Hex as [Hex|Hex]; [simpl in Hex; lia|].
      destruct (IH (l, w) Hex) as (pre & lp & pv & ln & nv & hi & E & Hlo & Hv).
      exists ((l0, v0) :: pre), lp, pv, ln, nv, hi. split; [|split; [|done]].
      * simpl. by rewrite E.
      * simpl. destruct pre as [|c pre]; simpl in *.
        -- simplify_eq. by constructor.
        -- simplify_eq. by constructor.
    + exists [], l0, v0, l, w, rest. split; [done|]. split; [by constructor|done].
Qed.

Lemma is_set_position_inv h set v cs pre lp pv ln nv hi :
  is_set h set cs → position v cs pre lp pv ln nv hi →
  ∃ nx,
    is_seg h (head set) pre (Some lp) ∧
    h !! lp = Some (Node pv (Some ln)) ∧
    h !! ln = Some (Node nv nx) ∧
    is_seg h nx hi None ∧
    (lp ∉ pre.*1) ∧ lp ≠ ln ∧ (lp ∉ hi.*1) ∧ (ln ∉ pre.*1) ∧ (ln ∉ hi.*1) ∧
    NoDup pre.*1 ∧ NoDup hi.*1 ∧ (∀ l, l ∈ pre.*1 → l ∉ hi.*1).
Proof.
  intros [Hs Hnd] (-> & _ & _).
  apply is_seg_app in Hs as (m & Hpre & (-> & nx & Hlp & (-> & nx' & Hln & Hhi))).
  exists nx'. rewrite fmap_app in Hnd. simpl in Hnd.
  apply NoDup_app in Hnd as (Hnd1 & Hnd2 & Hnd3).
  apply NoDup_cons in Hnd3 as [Hnd3 Hnd4].
  apply NoDup_cons in Hnd4 as [Hnd4 Hnd5].
  rewrite !not_elem_of_cons in Hnd3.
  repeat split; try done; try tauto.
  - intros Hin. apply (Hnd2 _ Hin). rewrite !elem_of_cons. auto.
  - intros Hin. apply (Hnd2 _ Hin). rewrite !elem_of_cons. auto.
  - intros l Hin Hin'. apply (Hnd2 _ Hin). rewrite !elem_of_cons. auto.
Qed.

End Operations.

Section Effects.
Implicit Types (h : heap) (p q : ptr) (cs pre lo hi : list (loc * Z)).
Implicit Types (set : intset_t) (v : Z).

Lemma position_fuel v cs pre lp pv ln nv hi fuel :
  position v cs pre lp pv ln nv hi → (length cs ≤ fuel)%nat → (length pre < fuel)%nat.
Proof. intros (-> & _) Hf. rewrite length_app in Hf. simpl in Hf. lia. Qed.

Lemma set_contains_spec h set v cs pre lp pv ln nv hi fuel :
  is_set h set cs → position v cs pre lp pv ln nv hi → (length cs ≤ fuel)%nat →
  set_contains fuel h set v = Ret (bool_decide (nv = v)).
Proof.
  intros Hset Hpos Hf.
  destruct (is_set_position_inv _ _ _ _ _ _ _ _ _ _ Hset Hpos) as (nx & _ & _ & Hln & _).
  unfold set_contains.
  rewrite (locate_spec h set v cs pre lp pv ln nv hi fuel None);
    [|apply Hset|done|by eapply position_fuel].
  simpl. rewrite Hln. simpl. f_equal.
  destruct (Z.eqb_spec nv v);
    [by rewrite bool_decide_eq_true_2|by rewrite bool_decide_eq_false_2].
Qed.

(** [set_add] when the successor already carries [v]. *)
Lemma set_add_hit h set v cs pre lp pv ln hi fuel :
  is_set h set cs → position v cs pre lp pv ln v hi → (length cs ≤ fuel)%nat →
  set_add fuel h set v = Ret (h, false).
Proof.
  intros Hset Hpos Hf.
  destruct (is_set_position_inv _ _ _ _ _ _ _ _ _ _ Hset Hpos) as (nx & _ & _ & Hln & _).
  unfold set_add.
  rewrite (locate_spec h set v cs pre lp pv ln v hi fuel None);
    [|apply Hset|done|by eapply position_fuel].
  simpl. rewrite Hln. simpl. by rewrite Z.eqb_refl.
Qed.

Lemma set_add_miss h set v cs pre lp pv ln nv hi fuel :
  is_set h set cs → position v cs pre lp pv ln nv hi → (length cs ≤ fuel)%nat →
  nv ≠ v →
  set_add fuel h set v = Ret (spliced h lp pv ln v, true) ∧
  is_set (spliced h lp pv ln v) set
    (pre ++ (lp, pv) :: (malloc h, v) :: (ln, nv) :: hi).
Proof.
  intros Hset Hpos Hf Hne.
  destruct (is_set_position_inv _ _ _ _ _ _ _ _ _ _ Hset Hpos)
    as (nx & Hpre & Hlp & Hln & Hhi & N1 & N2 & N3 & N4 & N5 & N6 & N7 & N8).
  pose proof (malloc_fresh h) as Hfresh.
  assert (malloc h ≠ lp) as Hnlp by congruence.
  assert (malloc h ≠ ln) as Hnln by congruence.
  split.
  - unfold set_add.
    rewrite (locate_spec h set v cs pre lp pv ln nv hi fuel None);
      [|apply Hset|done|by eapply position_fuel].
    simpl. rewrite Hln. simpl.
    destruct (Z.eqb_spec nv v); [done|]. simpl.
    unfold store_next, deref. rewrite lookup_insert_ne by done. by rewrite Hlp.
  - destruct Hpos as (-> & _ & _). unfold spliced. split.
    + apply is_seg_app. exists (Some lp). split.
      * apply is_seg_insert; [done|]. by apply is_seg_fresh.
      * simpl. split; [done|]. eexists. split; [apply lookup_insert_eq|].
        split; [done|]. eexists. split.
        { rewrite lookup_insert_ne by done. apply lookup_insert_eq. }
        split; [done|]. exists nx. split.
        { by rewrite !lookup_insert_ne. }
        apply is_seg_insert; [done|]. by apply is_seg_fresh.
    + destruct Hset as [Hs Hnd].
      assert (malloc h ∉ (pre ++ (lp, pv) :: (ln, nv) :: hi).*1) as Hnin.
      { intros Hin. destruct (is_seg_allocated _ _ _ _ _ Hs Hin). congruence. }
      rewrite fmap_app, !fmap_cons in Hnin, Hnd |- *. simpl in Hnin, Hnd |- *.
      rewrite not_elem_of_app, !not_elem_of_cons in Hnin.
      destruct Hnin as (F1 & F2 & F3 & F4).
      apply NoDup_app in Hnd as (D1 & D2 & D3).
      apply NoDup_cons in D3 as [D3 D4].
      apply NoDup_app. split; [done|]. split.
      * intros l Hl Hin. apply (D2 l Hl).
        apply elem_of_cons in Hin as [->|Hin]; [by left|].
        apply elem_of_cons in Hin as [->|Hin]; [done|]. by right.
      * apply NoDup_cons. split.
        { intros Hin. apply elem_of_cons in Hin as [E|Hin]; [congruence|done]. }
        apply NoDup_cons. split; [|done].
        intros Hin. apply elem_of_cons in Hin as [E|Hin]; [congruence|done].
Qed.

(** [set_remove] when the successor does not carry [v]. *)
Lemma set_remove_miss h set v cs pre lp pv ln nv hi fuel :
  is_set h set cs → position v cs pre lp pv ln nv hi → (length cs ≤ fuel)%nat →
  nv ≠ v →
  set_remove fuel h set v = Ret (h, false).
Proof.
  intros Hset Hpos Hf Hne.
  destruct (is_set_position_inv _ _ _ _ _ _ _ _ _ _ Hset Hpos) as (nx & _ & _ & Hln & _).
  unfold set_remove.
  rewrite (locate_spec h set v cs pre lp pv ln nv hi fuel None);
    [|apply Hset|done|by eapply position_fuel].
  simpl. rewrite Hln. simpl. by destruct (Z.eqb_spec nv v).
Qed.

Lemma set_remove_hit h set v cs pre lp pv ln hi fuel :
  is_set h set cs → position v cs pre lp pv ln v hi → (length cs ≤ fuel)%nat →
  ∃ nx, h !! ln = Some (Node v nx) ∧
    set_remove fuel h set v = Ret (unlinked h lp pv ln nx, true) ∧
    is_set (unlinked h lp pv ln nx) set (pre ++ (lp, pv) :: hi).
Proof.
  intros Hset Hpos Hf.
  destruct (is_set_position_inv _ _ _ _ _ _ _ _ _ _ Hset Hpos)
    as (nx & Hpre & Hlp & Hln & Hhi & N1 & N2 & N3 & N4 & N5 & N6 & N7 & N8).
  exists nx. split; [done|]. split.
  - unfold set_remove.
    rewrite (locate_spec h set v cs pre lp pv ln v hi fuel None);
      [|apply Hset|done|by eapply position_fuel].
    simpl. rewrite Hln. simpl. rewrite Z.eqb_refl.
    unfold store_next, deref. rewrite Hlp. simpl.
    rewrite lookup_insert_ne by done. by rewrite Hln.
  - destruct Hpos as (-> & _ & _). unfold unlinked. split.
    + apply is_seg_app. exists (Some lp). split.
      * apply is_seg_delete; [done|]. by apply is_seg_insert.
      * simpl. split; [done|]. exists nx. split.
        { rewrite lookup_delete_ne by done. apply lookup_insert_eq. }
        apply is_seg_delete; [done|]. by apply is_seg_insert.
    + destruct Hset as [_ Hnd].
      rewrite fmap_app, !fmap_cons in Hnd |- *. simpl in Hnd |- *.
      apply NoDup_app in Hnd as (D1 & D2 & D3).
      apply NoDup_cons in D3 as [D3 D4]. apply NoDup_cons in D4 as [D4 D5].
      apply NoDup_app. split; [done|]. split.
      * intros l Hl Hin. apply (D2 l Hl).
        apply elem_of_cons in Hin as [->|Hin]; [by left|]. right. by right.
      * apply NoDup_cons. split; [|done].
        intros Hin. apply D3. by right.
Qed.

(** [set_size] counts the nodes after the head that have a successor. *)
Lemma set_size_loop_spec h mid : ∀ fuel node lm mv size,
  is_seg h node (mid ++ [(lm, mv)]) None → (length mid < fuel)%nat →
  set_size_loop fuel h node size = Ret (size + Z.of_nat (length mid)).
Proof.
  induction mid as [|[l w] mid IH]; intros fuel node lm mv size Hs Hf.
  - destruct Hs as (-> & nx & Hl & ->). destruct fuel; [simpl in Hf; lia|].
    simpl. rewrite Hl. simpl. f_equal. lia.
  - destruct Hs as (-> & nx & Hl & Hs). destruct fuel as [|fuel]; [simpl in Hf; lia|].
    simpl in Hf. simpl set_size_loop. rewrite Hl. simpl.
    destruct nx as [l'|].
    + rewrite (IH fuel (Some l') lm mv); [|done|lia]. f_equal. lia.
    + exfalso. destruct mid as [|[? ?] ?]; simpl in Hs; by destruct Hs.
Qed.

Lemma set_size_spec h set l0 v0 mid lm mv fuel :
  is_set h set ((l0, v0) :: mid ++ [(lm, mv)]) →
  (length mid < fuel)%nat →
  set_size fuel h set = Ret (Z.of_nat (length mid)).
Proof.
  intros [(Hh & nx & Hl & Hs) _] Hf. unfold set_size. rewrite Hh. simpl.
  rewrite Hl. simpl. by rewrite (set_size_loop_spec h mid fuel nx lm mv 0).
Qed.

Lemma set_new_spec h :
  ∃ l0 lm, is_set (set_new h).1 (set_new h).2 [(l0, VAL_MIN); (lm, VAL_MAX)].
Proof.
  unfold set_new, new_node. simpl.
  set (lm := malloc h). set (h1 := <[lm := _]> h). set (l0 := malloc h1).
  exists l0, lm.
  assert (l0 ≠ lm) as Hne.
  { intros E. pose proof (malloc_fresh h1) as Hf. fold l0 in Hf. rewrite E in Hf.
    unfold h1 in Hf. by rewrite lookup_insert_eq in Hf. }
  split; simpl.
  - split; [done|]. eexists. split; [apply lookup_insert_eq|].
    split; [done|]. eexists. split; [|done].
    rewrite lookup_insert_ne by done. apply lookup_insert_eq.
  - apply NoDup_cons. split; [|apply NoDup_singleton].
    by rewrite list_elem_of_singleton.
Qed.

End Effects.

(** *** The order of the values along the chain *)

Section Order.
Implicit Types (cs pre lo hi : list (loc * Z)) (vs : list Z) (v : Z).

Lemma tail_app_cons {A} (pre : list A) c X :
  tail (pre ++ c :: X) = tail (pre ++ [c]) ++ X.
Proof. destruct pre; simpl; [done|]. by rewrite <- app_assoc. Qed.

Lemma values_tail cs : tail (values cs) = values (tail cs).
Proof. by destruct cs. Qed.

Lemma position_tail v cs pre lp pv ln nv hi :
  position v cs pre lp pv ln nv hi →
  tail (values cs) =
    values (tail (pre ++ [(lp, pv)])) ++ nv :: values hi.
Proof.
  intros (-> & _). rewrite values_tail, tail_app_cons. unfold values.
  by rewrite fmap_app.
Qed.

Lemma position_below v cs pre lp pv ln nv hi :
  position v cs pre lp pv ln nv hi →
  Forall (λ w, w < v) (values (tail (pre ++ [(lp, pv)]))).
Proof. intros (_ & Hlo & _). unfold values. by apply Forall_fmap. Qed.

Lemma invariant_bounded vs : invariant vs → bounded vs.
Proof.
  intros (Hs & Hh & Hl). destruct vs as [|v0 [|v1 vs]]; simpl in *.
  - done.
  - unfold VAL_MIN, VAL_MAX in *. congruence.
  - apply StronglySorted_cons in Hs as [_ Hs]. done.
Qed.

Lemma invariant_alt vs :
  invariant vs ↔
  bounded vs ∧ hd_error vs = Some VAL_MIN ∧ Forall (λ w, VAL_MIN < w) (tail vs).
Proof.
  split.
  - intros Hinv. split; [by apply invariant_bounded|].
    destruct Hinv as (Hs & Hh & Hl). split; [done|].
    destruct vs as [|v0 vs]; simpl in *; [done|].
    apply StronglySorted_cons in Hs as [Hs _]. by simplify_eq.
  - intros ((Hs & Hl) & Hh & Hlt). destruct vs as [|v0 vs]; simpl in *; [done|].
    simplify_eq. split; [|split; [done|]].
    + by apply StronglySorted_cons.
    + by destruct vs.
Qed.

Lemma invariant_NoDup vs : invariant vs → NoDup vs.
Proof.
  intros (Hs & _). induction Hs as [|x l Hs IH Hx]; constructor; [|done].
  intros Hin. rewrite Forall_forall in Hx. specialize (Hx _ Hin). lia.
Qed.

(** Some node after the head is not below [v], when [v <= VAL_MAX]. *)
Lemma bounded_position v cs :
  bounded (values cs) → v ≤ VAL_MAX →
  ∃ pre lp pv ln nv hi, position v cs pre lp pv ln nv hi.
Proof.
  intros [_ Hl] Hv. destruct cs as [|c0 rest]; [done|].
  apply position_exists. simpl in Hl.
  apply last_Some in Hl as (l' & E). unfold values in E.
  apply fmap_app_inv in E as (r1 & r2 & E1 & E2 & ->).
  destruct r2 as [|[lm mv] [|? ?]]; simplify_eq/=.
  apply Exists_app. right. by constructor.
Qed.

(** In a bounded chain the successor found for [v] decides whether a
    node after the head carries [v]. *)
Lemma position_member v cs pre lp pv ln nv hi :
  bounded (values cs) → position v cs pre lp pv ln nv hi →
  v ∈ tail (values cs) ↔ nv = v.
Proof.
  intros [Hs _] Hpos. pose proof (position_below _ _ _ _ _ _ _ _ Hpos) as Hlo.
  rewrite (position_tail _ _ _ _ _ _ _ _ Hpos) in Hs |- *.
  destruct Hpos as (_ & _ & Hv).
  apply StronglySorted_app in Hs as (_ & _ & Hs).
  apply StronglySorted_cons in Hs as [Hhi _].
  rewrite Forall_forall in Hlo, Hhi.
  rewrite elem_of_app, elem_of_cons. split.
  - intros [Hin|[E|Hin]]; [|done|].
    + specialize (Hlo _ Hin). simpl in Hlo. lia.
    + specialize (Hhi _ Hin). lia.
  - auto.
Qed.

Lemma bounded_splice v cs pre lp pv ln nv hi (nw : loc) :
  bounded (values cs) → position v cs pre lp pv ln nv hi → nv ≠ v →
  bounded (values (pre ++ (lp, pv) :: (nw, v) :: (ln, nv) :: hi)).
Proof.
  intros [Hs Hl] Hpos Hne. pose proof (position_below _ _ _ _ _ _ _ _ Hpos) as Hlo.
  rewrite (position_tail _ _ _ _ _ _ _ _ Hpos) in Hs, Hl.
  destruct Hpos as (_ & _ & Hv). unfold bounded.
  rewrite values_tail, tail_app_cons. unfold values in *.
  rewrite fmap_app, !fmap_cons. simpl.
  set (L := (tail (pre ++ [(lp, pv)])).*2) in *. set (H := hi.*2) in *.
  split.
  - apply StronglySorted_app in Hs as (H1 & H2 & H3).
    pose proof H3 as H4. apply StronglySorted_cons in H4 as [H4 _].
    apply StronglySorted_app. split; [|split; [done|]].
    + intros x1 x2 Hx1 Hx2. apply elem_of_cons in Hx2 as [->|Hx2]; [|by apply H1].
      rewrite Forall_forall in Hlo. by apply Hlo.
    + apply StronglySorted_cons. split; [|done].
      constructor; [lia|]. eapply Forall_impl; [exact H4|]. simpl. lia.
  - rewrite last_app in Hl |- *. simpl in *. done.
Qed.

Lemma bounded_unlink v cs pre lp pv ln hi :
  bounded (values cs) → position v cs pre lp pv ln v hi → v < VAL_MAX →
  bounded (values (pre ++ (lp, pv) :: hi)).
Proof.
  intros [Hs Hl] Hpos Hv.
  rewrite (position_tail _ _ _ _ _ _ _ _ Hpos) in Hs, Hl.
  unfold bounded. rewrite values_tail, tail_app_cons. unfold values in *.
  rewrite fmap_app.
  set (L := (tail (pre ++ [(lp, pv)])).*2) in *. set (H := hi.*2) in *.
  split.
  - apply StronglySorted_app in Hs as (H1 & H2 & H3).
    apply StronglySorted_cons in H3 as [_ H3].
    apply StronglySorted_app. split; [|done].
    intros x1 x2 Hx1 Hx2. apply H1; [done|]. by right.
  - rewrite last_app in Hl |- *. destruct H as [|w H]; simpl in *; [|done].
    simplify_eq. lia.
Qed.

Lemma position_head v cs pre lp pv ln nv hi X :
  position v cs pre lp pv ln nv hi →
  hd_error (values (pre ++ (lp, pv) :: X)) = hd_error (values cs).
Proof. intros (-> & _). by destruct pre. Qed.

Lemma invariant_splice v cs pre lp pv ln nv hi (nw : loc) :
  invariant (values cs) → position v cs pre lp pv ln nv hi → nv ≠ v →
  VAL_MIN < v →
  invariant (values (pre ++ (lp, pv) :: (nw, v) :: (ln, nv) :: hi)).
Proof.
  intros (Hb & Hh & Hlt)%invariant_alt Hpos Hne Hv. apply invariant_alt.
  split; [by eapply bounded_splice|]. split.
  - by rewrite (position_head _ _ _ _ _ _ _ _ _ Hpos).
  - rewrite (position_tail _ _ _ _ _ _ _ _ Hpos) in Hlt.
    rewrite values_tail, tail_app_cons. unfold values in *.
    rewrite fmap_app, !fmap_cons. simpl.
    apply Forall_app in Hlt as [H1 H2]. apply Forall_app. split; [done|].
    by constructor.
Qed.

Lemma invariant_unlink v cs pre lp pv ln hi :
  invariant (values cs) → position v cs pre lp pv ln v hi → v < VAL_MAX →
  invariant (values (pre ++ (lp, pv) :: hi)).
Proof.
  intros (Hb & Hh & Hlt)%invariant_alt Hpos Hv. apply invariant_alt.
  split; [by eapply bounded_unlink|]. split.
  - by rewrite (position_head _ _ _ _ _ _ _ _ _ Hpos).
  - rewrite (position_tail _ _ _ _ _ _ _ _ Hpos) in Hlt.
    rewrite values_tail, tail_app_cons. unfold values in *.
    rewrite fmap_app.
    apply Forall_app in Hlt as [H1 H2]. apply Forall_app. split; [done|].
    by apply Forall_cons in H2 as [_ H2].
Qed.

Lemma position_length v cs pre lp pv ln nv hi :
  position v cs pre lp pv ln nv hi →
  length cs = S (S (length pre + length hi)).
Proof. intros (-> & _). rewrite length_app. simpl. lia. Qed.

End Order.

(** *** Sequences of operations on one set *)

Section Sequences.
Implicit Types (h : heap) (cs : list (loc * Z)) (set : intset_t) (o : op).

Lemma op_safe_ok o : op_safe o → op_ok o.
Proof. destruct o; simpl; lia. Qed.

Lemma apply_op_step h set cs o fuel :
  is_set h set cs → bounded (values cs) → op_ok o → (length cs ≤ fuel)%nat →
  ∃ h' b cs',
    apply_op fuel h set o = Ret (h', b) ∧
    is_set h' set cs' ∧ bounded (values cs') ∧
    Z.of_nat (length cs') = Z.of_nat (length cs) + score o b ∧
    (invariant (values cs) → op_safe o → invariant (values cs')).
Proof.
  intros Hset Hb Hok Hf. destruct o as [v|v]; simpl in Hok.
  - destruct (bounded_position v cs Hb Hok) as (pre & lp & pv & ln & nv & hi & Hpos).
    destruct (decide (nv = v)) as [->|Hne].
    + exists h, false, cs. split; [by eapply set_add_hit|].
      split; [done|]. split; [done|]. split; [|done]. unfold score. simpl. lia.
    + destruct (set_add_miss h set v cs pre lp pv ln nv hi fuel) as [Hadd Hset']; [done..|].
      eexists _, true, _. split; [exact Hadd|]. split; [exact Hset'|].
      split; [by eapply bounded_splice|]. split.
      * rewrite (position_length _ _ _ _ _ _ _ _ Hpos), length_app. simpl.
        unfold score. simpl. lia.
      * intros Hinv [Hmin _]. by eapply invariant_splice.
  - assert (v ≤ VAL_MAX) as Hle by lia.
    destruct (bounded_position v cs Hb Hle) as (pre & lp & pv & ln & nv & hi & Hpos).
    destruct (decide (nv = v)) as [->|Hne].
    + destruct (set_remove_hit h set v cs pre lp pv ln hi fuel)
        as (nx & Hln & Hrem & Hset'); [done..|].
      eexists _, true, _. split; [exact Hrem|]. split; [exact Hset'|].
      split; [by eapply bounded_unlink|]. split.
      * rewrite (position_length _ _ _ _ _ _ _ _ Hpos), length_app. simpl.
        unfold score. simpl. lia.
      * intros Hinv _. by eapply invariant_unlink.
    + exists h, false, cs. split; [by eapply set_remove_miss|].
      split; [done|]. split; [done|]. split; [|done]. unfold score. simpl. lia.
Qed.

Lemma score_bound o b : score o b ≤ 1.
Proof. unfold score, is_remove. destruct o, b; simpl; lia. Qed.

Lemma run_steps ops : ∀ h set cs fuel,
  is_set h set cs → bounded (values cs) → Forall op_ok ops →
  (length cs + length ops ≤ fuel)%nat →
  ∃ h' bs cs',
    run fuel h set ops = Ret (h', bs) ∧ length bs = length ops ∧
    is_set h' set cs' ∧ bounded (values cs') ∧
    Z.of_nat (length cs') =
      Z.of_nat (length cs) + (successes is_add ops bs - successes is_remove ops bs) ∧
    (invariant (values cs) → Forall op_safe ops → invariant (values cs')).
Proof.
  induction ops as [|o ops IH]; intros h set cs fuel Hset Hb Hok Hf.
  - exists h, [], cs. simpl. split; [done|]. split; [done|]. split; [done|].
    split; [done|]. split; [lia|done].
  - apply Forall_cons in Hok as [Ho Hok]. simpl in Hf.
    destruct (apply_op_step h set cs o fuel Hset Hb Ho) as (h1 & b & cs1 & E1 & S1 & B1 & L1 & I1); [lia|].
    pose proof (score_bound o b) as Hsc.
    destruct (IH h1 set cs1 fuel S1 B1 Hok) as (h2 & bs & cs2 & E2 & Hl & S2 & B2 & L2 & I2); [lia|].
    exists h2, (b :: bs), cs2. simpl. rewrite E1. simpl. rewrite E2. simpl.
    split; [done|]. split; [by rewrite Hl|]. split; [done|]. split; [done|]. split.
    + rewrite L2, L1. unfold score. lia.
    + intros Hinv [Hs Hss]%Forall_cons. auto.
Qed.

End Sequences.

(** *** Properties of the operations *)

Section Properties.
Implicit Types (h : heap) (cs pre hi : list (loc * Z)) (set : intset_t) (v : Z).

Lemma fresh_is_set : is_set fresh_heap fresh_set [(2%positive, VAL_MIN); (1%positive, VAL_MAX)].
Proof.
  split.
  - simpl. split; [done|]. exists (Some 1%positive). split; [by vm_compute|].
    split; [done|]. exists None. split; [by vm_compute|done].
  - apply (bool_decide_unpack _). by vm_compute.
Qed.

Lemma fresh_bounded : bounded (values [(2%positive, VAL_MIN); (1%positive, VAL_MAX)]).
Proof. split; [|done]. simpl. repeat constructor. Qed.

Lemma fresh_invariant : invariant (values [(2%positive, VAL_MIN); (1%positive, VAL_MAX)]).
Proof. split; [|done]. simpl. repeat constructor. Qed.

Lemma heap_5_is_set :
  is_set heap_5 fresh_set [(2%positive, VAL_MIN); (3%positive, 5); (1%positive, VAL_MAX)].
Proof.
  split.
  - simpl. split; [done|]. exists (Some 3%positive). split; [by vm_compute|].
    split; [done|]. exists (Some 1%positive). split; [by vm_compute|].
    split; [done|]. exists None. split; [by vm_compute|done].
  - apply (bool_decide_unpack _). by vm_compute.
Qed.

Lemma heap_5_bounded :
  bounded (values [(2%positive, VAL_MIN); (3%positive, 5); (1%positive, VAL_MAX)]).
Proof. split; [|done]. simpl. repeat constructor. Qed.

(** Above [VAL_MAX] the traversal passes the maximum sentinel and reads
    through [NULL]: the bound on [v] below is needed. *)
Lemma set_add_above_VAL_MAX :
  set_add 3 fresh_heap fresh_set (VAL_MAX + 1) = Crash ∧
  set_remove 3 fresh_heap fresh_set (VAL_MAX + 1) = Crash ∧
  set_contains 3 fresh_heap fresh_set (VAL_MAX + 1) = Crash.
Proof. by vm_compute. Qed.




Lemma position_links h set v cs pre lp pv ln nv hi :
  is_set h set cs → position v cs pre lp pv ln nv hi →
  h !! lp = Some (Node pv (Some ln)).
Proof.
  intros Hset Hpos.
  by destruct (is_set_position_inv _ _ _ _ _ _ _ _ _ _ Hset Hpos) as (nx & _ & Hlp & _).
Qed.

Lemma unlink_not_member v cs pre lp pv ln hi :
  bounded (values cs) → position v cs pre lp pv ln v hi →
  v ∉ tail (values (pre ++ (lp, pv) :: hi)).
Proof.
  intros [Hs _] Hpos. pose proof (position_below _ _ _ _ _ _ _ _ Hpos) as Hlo.
  rewrite (position_tail _ _ _ _ _ _ _ _ Hpos) in Hs.
  rewrite values_tail, tail_app_cons. unfold values in *. rewrite fmap_app.
  apply StronglySorted_app in Hs as (_ & _ & Hs).
  apply StronglySorted_cons in Hs as [Hhi _].
  rewrite Forall_forall in Hlo, Hhi.
  intros [Hin|Hin]%elem_of_app.
  - specialize (Hlo _ Hin). simpl in Hlo. lia.
  - specialize (Hhi _ Hin). lia.
Qed.

(** C3: on a set whose chain [cs] is bounded, for a value [v] up to
    [VAL_MAX]: when a node [ln] after the head carries [v], [set_remove]
    returns true and the heap differs from the old one in exactly two
    places, [ln] is freed and its predecessor [lp] now points to [ln]'s
    successor [nx]; the chain is the old one without [ln] and no longer
    carries [v]. When no node after the head carries [v], [set_remove]
    returns false and the heap is the one it was given. *)
Theorem set_remove_present_or_absent h set cs v fuel :
  is_set h set cs → bounded (values cs) → v ≤ VAL_MAX → (length cs ≤ fuel)%nat →
  (v ∈ tail (values cs) →
     ∃ pre lp pv ln nx hi,
       cs = pre ++ (lp, pv) :: (ln, v) :: hi ∧
       h !! lp = Some (Node pv (Some ln)) ∧ h !! ln = Some (Node v nx) ∧
       set_remove fuel h set v = Ret (delete ln (<[lp := Node pv nx]> h), true) ∧
       is_set (delete ln (<[lp := Node pv nx]> h)) set (pre ++ (lp, pv) :: hi) ∧
       (v ∉ tail (values (pre ++ (lp, pv) :: hi)))) ∧
  (v ∉ tail (values cs) → set_remove fuel h set v = Ret (h, false)).
Proof.
  intros Hset Hb Hv Hf.
  destruct (bounded_position v cs Hb Hv) as (pre & lp & pv & ln & nv & hi & Hpos).
  pose proof (position_member v cs pre lp pv ln nv hi Hb Hpos) as Hmem.
  split.
  - intros Hin. apply Hmem in Hin as ->.
    destruct (set_remove_hit h set v cs pre lp pv ln hi fuel)
      as (nx & Hln & Hrem & Hset'); [done..|].
    exists pre, lp, pv, ln, nx, hi. split; [apply Hpos|].
    split; [by eapply position_links|]. split; [done|]. split; [done|].
    split; [done|]. by eapply unlink_not_member.
  - intros Hnin. assert (nv ≠ v) as Hne by (intros E; by apply Hnin, Hmem).
    by eapply set_remove_miss.
Qed.

Lemma set_remove_present_or_absent_witness :
  (5 ∈ tail (values [(2%positive, VAL_MIN); (3%positive, 5); (1%positive, VAL_MAX)]) →
   ∃ pre lp pv ln nx hi,
     [(2%positive, VAL_MIN); (3%positive, 5); (1%positive, VAL_MAX)]
       = pre ++ (lp, pv) :: (ln, 5) :: hi ∧
     heap_5 !! lp = Some (Node pv (Some ln)) ∧ heap_5 !! ln = Some (Node 5 nx) ∧
     set_remove 3 heap_5 fresh_set 5
       = Ret (delete ln (<[lp := Node pv nx]> heap_5), true) ∧
     is_set (delete ln (<[lp := Node pv nx]> heap_5)) fresh_set (pre ++ (lp, pv) :: hi) ∧
     (5 ∉ tail (values (pre ++ (lp, pv) :: hi)))) ∧
  (5 ∉ tail (values [(2%positive, VAL_MIN); (3%positive, 5); (1%positive, VAL_MAX)]) →
   set_remove 3 heap_5 fresh_set 5 = Ret (heap_5, false)).
Proof.
  apply (set_remove_present_or_absent heap_5 fresh_set
           [(2%positive, VAL_MIN); (3%positive, 5); (1%positive, VAL_MAX)] 5 3).
  - exact heap_5_is_set.
  - exact heap_5_bounded.
  - by vm_compute.
  - simpl. lia.
Defined.

Lemma set_contains_member h set cs v fuel :
  is_set h set cs → bounded (values cs) → v ≤ VAL_MAX → (length cs ≤ fuel)%nat →
  set_contains fuel h set v = Ret (bool_decide (v ∈ tail (values cs))).
Proof.
  intros Hset Hb Hv Hf.
  destruct (bounded_position v cs Hb Hv) as (pre & lp & pv & ln & nv & hi & Hpos).
  pose proof (position_member v cs pre lp pv ln nv hi Hb Hpos) as Hmem.
  rewrite (set_contains_spec h set v cs pre lp pv ln nv hi fuel) by done.
  f_equal. apply bool_decide_ext. by symmetry.
Qed.

Lemma bounded_last_member cs : bounded (values cs) → VAL_MAX ∈ tail (values cs).
Proof.
  intros [_ Hl]. apply last_Some in Hl as (l' & ->).
  apply elem_of_app. right. apply list_elem_of_here.
Qed.

(** C10: on every set whose chain is bounded (after the head, strictly
    increasing values that end on the maximum sentinel), and so on the set
    [set_new] returns, [set_contains] of [VAL_MAX] returns true. *)
Theorem set_contains_VAL_MAX h set cs fuel :
  is_set h set cs → bounded (values cs) → (length cs ≤ fuel)%nat →
  set_contains fuel h set VAL_MAX = Ret true.
Proof.
  intros Hset Hb Hf. rewrite (set_contains_member h set cs) by done.
  f_equal. apply bool_decide_eq_true_2. by apply bounded_last_member.
Qed.

Lemma set_contains_VAL_MAX_witness :
  set_contains 2 fresh_heap fresh_set VAL_MAX = Ret true.
Proof.
  apply (set_contains_VAL_MAX fresh_heap fresh_set
           [(2%positive, VAL_MIN); (1%positive, VAL_MAX)] 2).
  - exact fresh_is_set.
  - exact fresh_bounded.
  - simpl. lia.
Defined.

Lemma set_add_member h set cs v fuel :
  is_set h set cs → bounded (values cs) → v ≤ VAL_MAX → (length cs ≤ fuel)%nat →
  ∃ h1 b cs1,
    set_add fuel h set v = Ret (h1, b) ∧ is_set h1 set cs1 ∧
    bounded (values cs1) ∧ v ∈ tail (values cs1) ∧
    (length cs1 ≤ S (length cs))%nat.
Proof.
  intros Hset Hb Hv Hf.
  destruct (bounded_position v cs Hb Hv) as (pre & lp & pv & ln & nv & hi & Hpos).
  destruct (decide (nv = v)) as [->|Hne].
  - exists h, false, cs. split; [by eapply set_add_hit|]. split; [done|].
    split; [done|]. split; [by eapply position_member|lia].
  - destruct (set_add_miss h set v cs pre lp pv ln nv hi fuel) as [Hadd Hset']; [done..|].
    eexists _, true, _. split; [exact Hadd|]. split; [exact Hset'|].
    split; [by eapply bounded_splice|]. split.
    + rewrite values_tail, tail_app_cons. unfold values. rewrite fmap_app, fmap_cons.
      apply elem_of_app. right. apply list_elem_of_here.
    + rewrite (position_length _ _ _ _ _ _ _ _ Hpos), length_app. simpl. lia.
Qed.

Lemma set_remove_member h set cs v fuel :
  is_set h set cs → bounded (values cs) → v < VAL_MAX → (length cs ≤ fuel)%nat →
  v ∈ tail (values cs) →
  ∃ h2 cs2,
    set_remove fuel h set v = Ret (h2, true) ∧ is_set h2 set cs2 ∧
    bounded (values cs2) ∧ (v ∉ tail (values cs2)) ∧
    (length cs2 ≤ length cs)%nat.
Proof.
  intros Hset Hb Hv Hf Hin. assert (v ≤ VAL_MAX) as Hle by lia.
  destruct (bounded_position v cs Hb Hle) as (pre & lp & pv & ln & nv & hi & Hpos).
  apply (position_member v cs pre lp pv ln nv hi Hb Hpos) in Hin as ->.
  destruct (set_remove_hit h set v cs pre lp pv ln hi fuel)
    as (nx & Hln & Hrem & Hset'); [done..|].
  eexists _, _. split; [exact Hrem|]. split; [exact Hset'|].
  split; [by eapply bounded_unlink|]. split; [by eapply unlink_not_member|].
  rewrite (position_length _ _ _ _ _ _ _ _ Hpos), length_app. simpl. lia.
Qed.

(** C8, amended: on a set whose chain is bounded, for every value [v]
    below [VAL_MAX]: [set_add] of [v] returns, then [set_contains] of [v]
    returns true, [set_remove] of [v] returns true, and [set_contains] of
    [v] then returns false. *)
Theorem add_contains_remove_contains h set cs v fuel :
  is_set h set cs → bounded (values cs) → v < VAL_MAX → (length cs < fuel)%nat →
  ∃ h1 b h2,
    set_add fuel h set v = Ret (h1, b) ∧
    set_contains fuel h1 set v = Ret true ∧
    set_remove fuel h1 set v = Ret (h2, true) ∧
    set_contains fuel h2 set v = Ret false.
Proof.
  intros Hset Hb Hv Hf. assert (v ≤ VAL_MAX) as Hle by lia.
  destruct (set_add_member h set cs v fuel) as (h1 & b & cs1 & E1 & S1 & B1 & M1 & L1);
    [done|done|done|lia|].
  destruct (set_remove_member h1 set cs1 v fuel) as (h2 & cs2 & E2 & S2 & B2 & M2 & L2);
    [done|done|done|lia|done|].
  exists h1, b, h2. split; [done|]. split; [|split; [done|]].
  - rewrite (set_contains_member h1 set cs1) by (done || lia).
    by rewrite bool_decide_eq_true_2.
  - rewrite (set_contains_member h2 set cs2) by (done || lia).
    by rewrite bool_decide_eq_false_2.
Qed.

Lemma add_contains_remove_contains_witness :
  ∃ h1 b h2,
    set_add 3 fresh_heap fresh_set 5 = Ret (h1, b) ∧
    set_contains 3 h1 fresh_set 5 = Ret true ∧
    set_remove 3 h1 fresh_set 5 = Ret (h2, true) ∧
    set_contains 3 h2 fresh_set 5 = Ret false.
Proof.
  apply (add_contains_remove_contains fresh_heap fresh_set
           [(2%positive, VAL_MIN); (1%positive, VAL_MAX)] 5 3).
  - exact fresh_is_set.
  - exact fresh_bounded.
  - by vm_compute.
  - simpl. lia.
Defined.

(** C8 as stated fails at [VAL_MAX] on the fresh set: the add returns
    false, contains then returns true and the remove returns true, having
    freed the maximum sentinel, and the last contains reads through [NULL]. *)
Lemma add_contains_remove_contains_VAL_MAX :
  set_add 3 fresh_heap fresh_set VAL_MAX = Ret (fresh_heap, false) ∧
  set_contains 3 fresh_heap fresh_set VAL_MAX = Ret true ∧
  set_remove 3 fresh_heap fresh_set VAL_MAX = Ret (heap_no_max, true) ∧
  set_contains 3 heap_no_max fresh_set VAL_MAX = Crash.
Proof. by vm_compute. Qed.

Lemma bounded_cells cs :
  bounded (values cs) → ∃ c0 mid cm, cs = c0 :: mid ++ [cm].
Proof.
  intros [_ Hl]. destruct cs as [|c0 rest]; [done|]. simpl in Hl.
  destruct (decide (rest = [])) as [->|Hne]; [done|].
  apply exists_last in Hne as (mid & cm & ->). by exists c0, mid, cm.
Qed.

(** C1, amended: for every sequence of adds of values up to [VAL_MAX] and
    removes of values below [VAL_MAX], run on the set [set_new] returns,
    every operation returns and [set_size] then returns the number of adds
    that returned true minus the number of removes that returned true. *)
Theorem size_counts_successes h ops fuel :
  Forall op_ok ops → (length ops + 2 ≤ fuel)%nat →
  ∃ h' bs,
    run fuel (set_new h).1 (set_new h).2 ops = Ret (h', bs) ∧
    length bs = length ops ∧
    set_size fuel h' (set_new h).2
      = Ret (successes is_add ops bs - successes is_remove ops bs).
Proof.
  intros Hok Hf. destruct (set_new_spec h) as (l0 & lm & Hset).
  assert (bounded (values [(l0, VAL_MIN); (lm, VAL_MAX)])) as Hb.
  { split; [|done]. simpl. repeat constructor. }
  destruct (run_steps ops _ _ _ fuel Hset Hb Hok) as (h' & bs & cs' & E & Hl & S' & B' & L' & _).
  { simpl. lia. }
  exists h', bs. split; [done|]. split; [done|].
  destruct (bounded_cells cs' B') as ([l0' v0'] & mid & [lm' vm'] & ->).
  rewrite (set_size_spec h' _ l0' v0' mid lm' vm' fuel S').
  - f_equal. simpl in L'. rewrite length_app in L'. simpl in L'. lia.
  - simpl in L'. rewrite length_app in L'. simpl in L'.
    assert (successes is_add ops bs - successes is_remove ops bs ≤ Z.of_nat (length ops)); [|lia].
    clear. revert bs. induction ops as [|o ops IH]; intros [|b bs]; simpl; try lia.
    specialize (IH bs). destruct o, b; cbn; lia.
Qed.

Lemma size_counts_successes_witness :
  ∃ h' bs,
    run 5 (set_new ∅).1 (set_new ∅).2 [Add 5; Add 5; Remove 7] = Ret (h', bs) ∧
    length bs = length [Add 5; Add 5; Remove 7] ∧
    set_size 5 h' (set_new ∅).2
      = Ret (successes is_add [Add 5; Add 5; Remove 7] bs
             - successes is_remove [Add 5; Add 5; Remove 7] bs).
Proof.
  apply (size_counts_successes ∅ [Add 5; Add 5; Remove 7] 5).
  - repeat constructor; by vm_compute.
  - simpl. lia.
Defined.

(** C1 as stated fails on the sequence of one remove of [VAL_MAX]: it
    returns true, so the count is -1, and [set_size] reads through [NULL]. *)
Lemma size_after_remove_VAL_MAX :
  run 3 fresh_heap fresh_set [Remove VAL_MAX] = Ret (heap_no_max, [true]) ∧
  successes is_add [Remove VAL_MAX] [true]
    - successes is_remove [Remove VAL_MAX] [true] = -1 ∧
  set_size 3 heap_no_max fresh_set = Crash.
Proof. by vm_compute. Qed.

(** C9, amended: for every sequence of adds of values above [VAL_MIN] and
    up to [VAL_MAX] and removes of values below [VAL_MAX], run on the set
    [set_new] returns, every operation returns and the chain then has
    strictly increasing values, the first [VAL_MIN] and the last
    [VAL_MAX]; no value occurs twice. *)
Theorem invariant_preserved h ops fuel :
  Forall op_safe ops → (length ops + 2 ≤ fuel)%nat →
  ∃ h' bs cs,
    run fuel (set_new h).1 (set_new h).2 ops = Ret (h', bs) ∧
    is_set h' (set_new h).2 cs ∧
    invariant (values cs) ∧ NoDup (values cs).
Proof.
  intros Hsafe Hf. destruct (set_new_spec h) as (l0 & lm & Hset).
  assert (invariant (values [(l0, VAL_MIN); (lm, VAL_MAX)])) as Hinv.
  { split; [|done]. simpl. repeat constructor. }
  assert (Forall op_ok ops) as Hok.
  { eapply Forall_impl; [exact Hsafe|]. apply op_safe_ok. }
  destruct (run_steps ops _ _ _ fuel Hset (invariant_bounded _ Hinv) Hok)
    as (h' & bs & cs' & E & Hl & S' & B' & L' & I').
  { simpl. lia. }
  exists h', bs, cs'. split; [done|]. split; [done|].
  split; [by apply I'|]. apply invariant_NoDup. by apply I'.
Qed.

Lemma invariant_preserved_witness :
  ∃ h' bs cs,
    run 5 (set_new ∅).1 (set_new ∅).2 [Add 5; Add 3; Remove 5] = Ret (h', bs) ∧
    is_set h' (set_new ∅).2 cs ∧
    invariant (values cs) ∧ NoDup (values cs).
Proof.
  apply (invariant_preserved ∅ [Add 5; Add 3; Remove 5] 5).
  - repeat constructor; by vm_compute.
  - simpl. lia.
Defined.

(** C9 as stated fails on the sequence of one remove of [VAL_MAX]: the
    chain is then the head alone, and its last value is not [VAL_MAX]. *)
Lemma invariant_lost_by_remove_VAL_MAX :
  run 3 fresh_heap fresh_set [Remove VAL_MAX] = Ret (heap_no_max, [true]) ∧
  is_set heap_no_max fresh_set [(2%positive, VAL_MIN)] ∧
  bool_decide (invariant (values [(2%positive, VAL_MIN)])) = false.
Proof.
  split; [by vm_compute|]. split; [|by vm_compute].
  split.
  - simpl. split; [done|]. exists None. split; [by vm_compute|done].
  - apply NoDup_singleton.
Qed.

(** An add of [VAL_MIN] breaks the strict order too: the new node follows
    the head sentinel and carries the same value. *)
Lemma invariant_lost_by_add_VAL_MIN :
  ∃ h',
    run 3 fresh_heap fresh_set [Add VAL_MIN] = Ret (h', [true]) ∧
    is_set h' fresh_set
      [(2%positive, VAL_MIN); (3%positive, VAL_MIN); (1%positive, VAL_MAX)] ∧
    bool_decide (invariant (values
      [(2%positive, VAL_MIN); (3%positive, VAL_MIN); (1%positive, VAL_MAX)])) = false.
Proof.
  eexists. split; [by vm_compute|]. split; [|by vm_compute].
  split.
  - simpl. split; [done|]. eexists. split; [by vm_compute|].
    split; [done|]. eexists. split; [by vm_compute|].
    split; [done|]. eexists. split; [by vm_compute|done].
  - apply (bool_decide_unpack _). by vm_compute.
Qed.

End Properties.

End SortedSet.

(** ** The barrier *)

Section RendezvousBarrier.
Import Barrier.

Lemma upd_eq {A} (f : nat → A) t x : upd f t x t = x.
Proof. unfold upd. by rewrite decide_True. Qed.

Lemma upd_ne {A} (f : nat → A) t u x : u ≠ t → upd f t x u = f u.
Proof. intros H. unfold upd. by rewrite decide_False. Qed.

Section Invariant.
Variable n : Z.
Hypothesis n_pos : 1 ≤ n.

Lemma inv_init : inv n (barrier_init n).
Proof.
  split.
  - done.
  - intros t. simpl. split; done.
  - unfold tally. simpl. lia.
  - simpl. lia.
  - intros t. unfold released. simpl. lia.
Qed.

Ltac other t u :=
  destruct (decide (u = t)) as [->|];
  [rewrite ?upd_eq | rewrite ?upd_ne by done].

Lemma inv_step t s s' : inv n s → step t s = Some s' → inv n s'.
Proof.
  intros [Hc Ho Ht Hr Hrel] Hstep. unfold step in Hstep.
  pose proof (Ho t) as Hot. pose proof (Hrel t) as Hrt. unfold released in Hrt.
  unfold tally in Ht.
  destruct (pcs s t) eqn:Ep; simpl in Hot.
  - (* pthread_mutex_lock *)
    destruct (mutex s) as [o|] eqn:Em; [done|]. simplify_eq.
    split; simpl; [done| | |done|].
    + intros u. other t u; [done|]. rewrite Ho. split; [done|congruence].
    + unfold tally. simpl. by rewrite upd_eq.
    + intros u. unfold released. simpl. other t u; [lia|apply Hrel].
  - (* b->crossing++ *)
    simplify_eq. assert (mutex s = Some t) as Em by (by apply Hot).
    rewrite Em, Ep in Ht.
    split; simpl; [done| | |done|].
    + intros u. other t u; [by rewrite Em|]. apply Ho.
    + unfold tally. simpl. rewrite Em, upd_eq. lia.
    + intros u. unfold released. simpl. other t u; [lia|apply Hrel].
  - (* if (b->crossing < b->count) *)
    simplify_eq. assert (mutex s = Some t) as Em by (by apply Hot).
    rewrite Em, Ep in Ht.
    split; simpl; [done| | |done|].
    + intros u. other t u; [|apply Ho].
      rewrite Em. by destruct (crossing s <? count s).
    + unfold tally. simpl. rewrite Em, upd_eq.
      destruct (Z.ltb_spec (crossing s) (count s)); lia.
    + intros u. unfold released. simpl. other t u; [|apply Hrel].
      destruct (crossing s <? count s); lia.
  - (* pthread_cond_wait: release and block *)
    simplify_eq. assert (mutex s = Some t) as Em by (by apply Hot).
    rewrite Em, Ep in Ht.
    split; simpl; [done| | |done|].
    + intros u. other t u; [done|]. rewrite Ho, Em. split; [congruence|done].
    + unfold tally. simpl. lia.
    + intros u. unfold released. simpl. other t u; [lia|apply Hrel].
  - done.
  - (* pthread_cond_wait: take the mutex back *)
    destruct (mutex s) as [o|] eqn:Em; [done|]. simplify_eq.
    split; simpl; [done| | |done|].
    + intros u. other t u; [done|]. rewrite Ho. split; [done|congruence].
    + unfold tally. simpl. by rewrite upd_eq.
    + intros u. unfold released. simpl. other t u; [lia|apply Hrel].
  - (* pthread_cond_broadcast *)
    simplify_eq. assert (mutex s = Some t) as Em by (by apply Hot).
    rewrite Em, Ep in Ht.
    split; simpl; [done| | |lia|].
    + intros u. other t u; [by rewrite Em|].
      unfold wake_all. rewrite <- Ho. by destruct (pcs s u).
    + unfold tally. simpl. rewrite Em, upd_eq. lia.
    + intros u. unfold released. simpl. other t u; [lia|].
      pose proof (Hrel u) as Hu. unfold released in Hu. unfold wake_all.
      destruct (pcs s u); lia.
  - (* b->crossing = 0 *)
    simplify_eq. assert (mutex s = Some t) as Em by (by apply Hot).
    rewrite Em, Ep in Ht.
    split; simpl; [done| | |done|].
    + intros u. other t u; [by rewrite Em|]. apply Ho.
    + unfold tally. simpl. rewrite Em, upd_eq. lia.
    + intros u. unfold released. simpl. other t u; [lia|apply Hrel].
  - (* pthread_mutex_unlock *)
    simplify_eq. assert (mutex s = Some t) as Em by (by apply Hot).
    rewrite Em, Ep in Ht.
    split; simpl; [done| | |done|].
    + intros u. other t u; [done|]. rewrite Ho, Em. split; [congruence|done].
    + unfold tally. simpl. lia.
    + intros u. unfold released. simpl. other t u; [lia|apply Hrel].
Qed.


End Invariant.

Lemma two_rounds_run :
  exec two_rounds (barrier_init 2) = Some after_two_rounds ∧
  returned after_two_rounds 0%nat = 2 ∧ returned after_two_rounds 1%nat = 2 ∧
  arrivals after_two_rounds = 4 ∧ crossing after_two_rounds = 0 ∧
  mutex after_two_rounds = None.
Proof. by vm_compute. Qed.

Lemma second_rendezvous_run :
  exec before_broadcast (barrier_init 2) = Some second_rendezvous ∧
  pcs second_rendezvous 0%nat = Blocked ∧
  pcs second_rendezvous 1%nat = AtBroadcast ∧
  returned second_rendezvous 0%nat = 1 ∧ returned second_rendezvous 1%nat = 1 ∧
  arrivals second_rendezvous = 4 ∧ crossing second_rendezvous = 2.
Proof. by vm_compute. Qed.

(** With one thread short the other stays blocked: it has no step. *)
Lemma one_short_blocks :
  ∃ s, exec [0; 0; 0; 0]%nat (barrier_init 2) = Some s ∧
       pcs s 0%nat = Blocked ∧ step 0%nat s = None.
Proof. eexists. by vm_compute. Qed.

(** C4: a thread alone at a barrier for two returns from [barrier_cross]
    when its [pthread_cond_wait] ends spuriously: it is released after one
    arrival, with no broadcast and [crossing] left at 1, where the barrier
    was to hold it until the second arrival. The wait stands under
    [if (b->crossing < b->count)] and the condition is not tested again.
    When the same thread then calls [barrier_cross] once more, its arrival
    counts as the second: it broadcasts, resets [crossing] and returns
    without having waited, so that one thread has been through the barrier
    for two twice. *)
Theorem barrier_released_by_spurious_wakeup :
  perform lone_crossing (barrier_init 2) = Some lone_released ∧
  pcs lone_released 0%nat = Outside ∧ mutex lone_released = None ∧
  returned lone_released 0%nat = 1 ∧ arrivals lone_released = 1 ∧
  rounds lone_released = 0 ∧ crossing lone_released = 1 ∧
  count lone_released = 2 ∧
  perform lone_second_crossing lone_released = Some lone_released_twice ∧
  pcs lone_released_twice 0%nat = Outside ∧
  returned lone_released_twice 0%nat = 2 ∧ arrivals lone_released_twice = 2 ∧
  rounds lone_released_twice = 1 ∧ crossing lone_released_twice = 0.
Proof. by vm_compute. Qed.

End RendezvousBarrier.

(** ** The worker *)

Section Worker.
Import IntSet Rand Stress.
Implicit Types (h : heap) (d : thread_data_t) (l : locals).


Lemma wrap_int_small x : INT_MIN ≤ x ≤ INT_MAX → wrap_int x = x.
Proof.
  unfold wrap_int, INT_MIN, INT_MAX. intros H.
  rewrite Z.mod_small by lia. lia.
Qed.

Lemma draw_returns n d :
  0 < n → n ≤ INT_MAX →
  ∃ v, draw n d = Ret (v, with_seed d (drand48_iterate (seed d))) ∧ 0 ≤ v < n.
Proof.
  intros H0 H1. destruct (erand48_product n (seed d) H0 H1) as (v & E & Hv0 & Hv).
  exists v. split; [|done].
  unfold draw, rand_range. unfold erand48 in *. cbn [fst] in E. rewrite E.
  destruct (Z.leb_spec 0 v); [|lia].
  destruct (Z.ltb_spec v n); [|lia]. done.
Qed.

(** A draw changes the seed only. *)
Lemma draw_fields n d v d1 :
  draw n d = Ret (v, d1) →
  update d1 = update d ∧ alternate d1 = alternate d ∧ set d1 = set d.
Proof.
  unfold draw. destruct (rand_range n (seed d)) as [[? ?]| | |]; simpl; [|done..].
  intros ?. by simplify_eq.
Qed.

#[local] Opaque drand48_iterate draw set_add set_remove set_contains.

(** With a value outstanding, the update step of alternate mode removes
    [last] and prints [val]. *)
Lemma test_body_alternate_remove fuel h d l h' result :
  (∃ o d1, draw 100 d = Ret (o, d1) ∧ o < update d) →
  alternate d ≠ 0 → 0 ≤ last l →
  set_remove fuel h (set d) (last l) = Ret (h', result) →
  ∃ d' l',
    test_body fuel h d l
      = Ret (h', d', l', Event 1 (val l) (CallRemove (last l) result)) ∧
    last l' = -1.
Proof.
  intros (o & d1 & Eo & Ho) Halt Hlast Hrem.
  destruct (draw_fields _ _ _ _ Eo) as (Eu & Ea & Es).
  unfold test_body. rewrite Eo. simpl. rewrite Eu, Ea, Es.
  destruct (Z.ltb_spec o (update d)); [|lia].
  destruct (Z.eqb_spec (alternate d) 0); [done|]. simpl.
  destruct (Z.ltb_spec (last l) 0); [lia|].
  rewrite Hrem. simpl. eauto.
Qed.

(** C6: the worker of three operations on the fresh set, range 10, update
    rate 50, alternate mode, generator state (2, 0, 0): it adds 5, looks up
    6 and then removes 5, and the line of the removal reads ["1 - 6"]: the
    value printed is [val], which the lookup overwrote, and not the value
    [last] that [set_remove] was given. *)
Theorem alternate_remove_line_shows_val :
  ∃ h d l e0 e1 e2,
    test 4 3 fresh_heap (worker (Seed 2 0 0) 3 10 50 1) 0 0
      = Ret (h, d, l, [e0; e1; e2]) ∧
    line e0 = (0, 5) ∧ made e0 = CallAdd 5 true ∧
    line e1 = (2, 6) ∧ made e1 = CallContains 6 false ∧
    line e2 = (1, 6) ∧ made e2 = CallRemove 5 true.
Proof. do 6 eexists. split; [by vm_compute|]. by vm_compute. Qed.

(** C7, amended: in alternate mode, on a well-formed set and with no value
    outstanding, the update step draws a value in [1, range], calls
    [set_add] on it and increments [nb_add] whether or not the add
    succeeded; [diff] is incremented and the value recorded as [last] only
    when it succeeded. [diff] is an [int] below [INT_MAX], so that the
    increment does not overflow. *)
Theorem alternate_add_counts_attempts fuel h d l cs :
  is_set h (set d) cs → bounded (values cs) → (length cs ≤ fuel)%nat →
  0 < range d → range d ≤ INT_MAX → alternate d ≠ 0 → last l < 0 →
  INT_MIN ≤ diff d < INT_MAX →
  ∃ o d1,
    draw 100 d = Ret (o, d1) ∧
    (o < update d →
     ∃ h' d' l' v result,
       test_body fuel h d l = Ret (h', d', l', Event 0 v (CallAdd v result)) ∧
       set_add fuel h (set d) v = Ret (h', result) ∧
       1 ≤ v ≤ range d ∧
       nb_add d' = incr_ulong (nb_add d) ∧
       diff d' = (if result then diff d + 1 else diff d) ∧
       INT_MIN ≤ diff d' ≤ INT_MAX ∧
       last l' = (if result then v else last l)).
Proof.
  intros Hset Hb Hf Hr0 Hr1 Halt Hlast Hdiff.
  destruct (draw_returns 100 d) as (o & Eo & Ho); [done..|].
  eexists o, _. split; [exact Eo|]. intros Hup.
  unfold test_body. rewrite Eo. simpl.
  destruct (Z.ltb_spec o (update d)); [|lia].
  destruct (Z.eqb_spec (alternate d) 0); [done|]. simpl.
  destruct (Z.ltb_spec (last l) 0); [|lia].
  destruct (draw_returns (range d) (with_seed d (drand48_iterate (seed d))))
    as (r & Er & Hr); [done..|].
  rewrite Er. simpl.
  destruct (set_add_member h (set d) cs (r + 1) fuel)
    as (h' & result & cs' & Eadd & _); [done|done|unfold VAL_MAX, INT_MAX in *; lia|done|].
  rewrite Eadd. simpl.
  eexists _, _, _, _, _. split; [done|]. split; [done|]. split; [lia|].
  simpl. rewrite wrap_int_small by lia.
  split; [done|]. split; [done|]. split; [destruct result; lia|done].
Qed.

Lemma alternate_add_counts_attempts_witness :
  ∃ o d1,
    draw 100 (worker (Seed 0 0 0) 1 1 100 1) = Ret (o, d1) ∧
    (o < update (worker (Seed 0 0 0) 1 1 100 1) →
     ∃ h' d' l' v result,
       test_body 3 heap_1 (worker (Seed 0 0 0) 1 1 100 1) (Locals 0 0 (-1))
         = Ret (h', d', l', Event 0 v (CallAdd v result)) ∧
       set_add 3 heap_1 (set (worker (Seed 0 0 0) 1 1 100 1)) v = Ret (h', result) ∧
       1 ≤ v ≤ range (worker (Seed 0 0 0) 1 1 100 1) ∧
       nb_add d' = incr_ulong (nb_add (worker (Seed 0 0 0) 1 1 100 1)) ∧
       diff d' = (if result then diff (worker (Seed 0 0 0) 1 1 100 1) + 1
                  else diff (worker (Seed 0 0 0) 1 1 100 1)) ∧
       INT_MIN ≤ diff d' ≤ INT_MAX ∧
       last l' = (if result then v else last (Locals 0 0 (-1)))).
Proof.
  apply (alternate_add_counts_attempts 3 heap_1 (worker (Seed 0 0 0) 1 1 100 1)
           (Locals 0 0 (-1))
           [(2%positive, VAL_MIN); (3%positive, 1); (1%positive, VAL_MAX)]).
  - split.
    + simpl. split; [done|]. exists (Some 3%positive). split; [by vm_compute|].
      split; [done|]. exists (Some 1%positive). split; [by vm_compute|].
      split; [done|]. exists None. split; [by vm_compute|done].
    + apply (bool_decide_unpack _). by vm_compute.
  - split; [|done]. simpl. repeat constructor.
  - simpl. lia.
  - by vm_compute.
  - by vm_compute.
  - by vm_compute.
  - by vm_compute.
  - by vm_compute.
Defined.

(** C7 as stated fails on the set that holds 1, for the worker of range 1:
    the value drawn is 1, [set_add] returns false, [diff] and [last] are
    left as they were, and [nb_add] goes from 0 to 1. *)
Lemma alternate_add_failed_yet_counted :
  ∃ d' l',
    test_body 3 heap_1 (worker (Seed 0 0 0) 1 1 100 1) (Locals 0 0 (-1))
      = Ret (heap_1, d', l', Event 0 1 (CallAdd 1 false)) ∧
    nb_add (worker (Seed 0 0 0) 1 1 100 1) = 0 ∧ nb_add d' = 1 ∧
    diff d' = 0 ∧ last l' = -1.
Proof. do 2 eexists. split; [by vm_compute|]. by vm_compute. Qed.

End Worker.

(** ** More on the sorted set *)

Section SortedSetMore.
Import IntSet.
Implicit Types (h : heap) (cs : list (loc * Z)) (set : intset_t) (v : Z).

(** X1: on every chain that ends on [NULL], [set_size] returns the number
    of nodes less two, whatever their values, and it reads through [NULL]
    when the chain has fewer than the two nodes it counts on. *)
Theorem set_size_chain h set cs fuel :
  is_set h set cs → (0 < fuel)%nat → (length cs ≤ S fuel)%nat →
  set_size fuel h set
    = if decide (2 ≤ length cs)%nat then Ret (Z.of_nat (length cs) - 2) else Crash.
Proof.
  intros Hset Hf0 Hf. destruct cs as [|[l0 v0] [|c1 rest]].
  - destruct Hset as [Hs _]. simpl in Hs. unfold set_size. by rewrite Hs.
  - destruct Hset as [(Hh & nx & Hl & Hnx) _]. simpl in Hnx. subst nx.
    unfold set_size. rewrite Hh. simpl. rewrite Hl. simpl.
    destruct fuel; [lia|done].
  - destruct (exists_last (l := c1 :: rest)) as (mid & [lm mv] & E); [done|].
    rewrite E in Hset, Hf |- *. rewrite decide_True by (simpl; rewrite length_app; simpl; lia).
    rewrite (set_size_spec h set l0 v0 mid lm mv fuel Hset).
    + f_equal. simpl. rewrite length_app. simpl. lia.
    + simpl in Hf. rewrite length_app in Hf. simpl in Hf. lia.
Qed.

Lemma set_size_chain_witness :
  set_size 3 heap_5 fresh_set
    = if decide (2 ≤ length cells_5)%nat
      then Ret (Z.of_nat (length cells_5) - 2)
      else Crash.
Proof.
  apply (set_size_chain heap_5 fresh_set
           cells_5 3).
  - exact heap_5_is_set.
  - lia.
  - simpl. lia.
Defined.

Lemma bounded_le_max vs : bounded vs → Forall (λ w, w ≤ VAL_MAX) (tail vs).
Proof.
  intros [Hs Hl]. apply last_Some in Hl as (l' & E). rewrite E in Hs |- *.
  apply StronglySorted_app in Hs as (H1 & _ & _).
  apply Forall_app. split; [|by repeat constructor].
  apply Forall_forall. intros x Hx.
  assert (x < VAL_MAX); [|lia]. apply (H1 x VAL_MAX Hx). apply list_elem_of_here.
Qed.

(** Above [VAL_MAX] the traversal runs off the chain. *)
Lemma locate_overrun h set cs v fuel :
  is_set h set cs → bounded (values cs) → VAL_MAX < v → (length cs ≤ fuel)%nat →
  locate fuel h set v = Crash.
Proof.
  intros [Hs _] Hb Hv Hf. pose proof (bounded_le_max _ Hb) as Hle.
  destruct cs as [|[l0 v0] rest]; [by destruct Hb|].
  destruct Hs as (Hh & nx & Hl & Hs). unfold locate. rewrite Hh. simpl.
  rewrite Hl. simpl. simpl in Hle, Hf.
  apply (locate_loop_overrun h v rest); [done| |lia].
  rewrite Forall_forall in Hle. apply Forall_forall. intros [l w] Hin.
  assert (w ≤ VAL_MAX); [|simpl; lia].
  apply Hle. unfold values. apply list_elem_of_fmap. by exists (l, w).
Qed.

(** X2: on a well-formed set [set_contains] decides, for every value up
    to [VAL_MAX], whether a node after the head carries it; for every value
    above [VAL_MAX] it reads through [NULL]. *)
Theorem set_contains_decides h set cs v fuel :
  is_set h set cs → bounded (values cs) → (length cs ≤ fuel)%nat →
  set_contains fuel h set v
    = if decide (v ≤ VAL_MAX) then Ret (bool_decide (v ∈ tail (values cs)))
      else Crash.
Proof.
  intros Hset Hb Hf. case_decide.
  - by apply set_contains_member.
  - unfold set_contains. by rewrite (locate_overrun h set cs v fuel) by (done || lia).
Qed.

Lemma set_contains_decides_witness :
  set_contains 3 heap_5 fresh_set 5
    = if decide (5 ≤ VAL_MAX)
      then Ret (bool_decide
        (5 ∈ tail (values cells_5)))
      else Crash.
Proof.
  apply (set_contains_decides heap_5 fresh_set
           cells_5 5 3).
  - exact heap_5_is_set.
  - exact heap_5_bounded.
  - simpl. lia.
Defined.

(** X3: on a well-formed set, [set_add] and [set_remove] of a value above
    [VAL_MAX] pass the maximum sentinel and read through [NULL]; nothing
    is written. *)
Theorem update_above_VAL_MAX h set cs v fuel :
  is_set h set cs → bounded (values cs) → (length cs ≤ fuel)%nat →
  VAL_MAX < v →
  set_add fuel h set v = Crash ∧ set_remove fuel h set v = Crash.
Proof.
  intros Hset Hb Hf Hv. unfold set_add, set_remove.
  by rewrite (locate_overrun h set cs v fuel).
Qed.

Lemma update_above_VAL_MAX_witness :
  set_add 3 heap_5 fresh_set (VAL_MAX + 1) = Crash ∧
  set_remove 3 heap_5 fresh_set (VAL_MAX + 1) = Crash.
Proof.
  apply (update_above_VAL_MAX heap_5 fresh_set cells_5 (VAL_MAX + 1) 3).
  - exact heap_5_is_set.
  - exact heap_5_bounded.
  - simpl. lia.
  - by vm_compute.
Defined.

Lemma set_delete_loop_spec h p cs fuel :
  is_seg h p cs None → NoDup cs.*1 → (length cs ≤ fuel)%nat →
  ∃ h', set_delete_loop fuel h p = Ret h' ∧
        ∀ l, h' !! l = if decide (l ∈ cs.*1) then None else h !! l.
Proof.
  revert h p fuel. induction cs as [|[l0 v0] cs IH]; intros h p fuel Hs Hnd Hf.
  - simpl in Hs. subst p. exists h. split; [by destruct fuel|].
    intros l. rewrite decide_False; [done|]. simpl. apply not_elem_of_nil.
  - destruct Hs as (-> & nx & Hl & Hs). destruct fuel as [|fuel]; [simpl in Hf; lia|].
    rewrite fmap_cons in Hnd. apply NoDup_cons in Hnd as [Hnin Hnd]. simpl in Hnin.
    destruct (IH (delete l0 h) nx fuel) as (h' & E & Hh'); [by apply is_seg_delete|done|simpl in Hf; lia|].
    exists h'. split.
    + simpl. rewrite Hl. simpl. done.
    + intros l. rewrite Hh'. rewrite fmap_cons. simpl.
      destruct (decide (l = l0)) as [->|Hne].
      * rewrite (decide_True (P := l0 ∈ l0 :: cs.*1)) by apply list_elem_of_here.
        case_decide; [done|]. apply lookup_delete_eq.
      * rewrite lookup_delete_ne by done.
        destruct (decide (l ∈ cs.*1)) as [Hin|Hnin'].
        -- rewrite decide_True; [done|]. by right.
        -- rewrite decide_False; [done|]. intros [?|?]%elem_of_cons; done.
Qed.

(** X4: [set_delete] on a chain that ends on [NULL] returns, having freed
    the nodes of the chain and no other: every node of the chain is gone
    from the heap and every other address holds what it held. *)
Theorem set_delete_frees_chain h set cs fuel :
  is_set h set cs → (length cs ≤ fuel)%nat →
  ∃ h', set_delete fuel h set = Ret h' ∧
        ∀ l, h' !! l = if decide (l ∈ cs.*1) then None else h !! l.
Proof. intros [Hs Hnd] Hf. by apply set_delete_loop_spec. Qed.

Lemma set_delete_frees_chain_witness :
  ∃ h', set_delete 3 heap_5 fresh_set = Ret h' ∧
        ∀ l, h' !! l
             = if decide (l ∈ cells_5.*1)
               then None else heap_5 !! l.
Proof.
  apply (set_delete_frees_chain heap_5 fresh_set
           cells_5 3).
  - exact heap_5_is_set.
  - simpl. lia.
Defined.

(** *** The chain against the set of integers it stands for *)

Lemma fresh_represents (l0 lm : loc) :
  represents [(l0, VAL_MIN); (lm, VAL_MAX)] ∅.
Proof.
  intros x. simpl. rewrite list_elem_of_singleton. split; [|tauto].
  intros Hx. by apply not_elem_of_empty in Hx.
Qed.

Lemma fresh_owns h0 :
  ∃ l0 lm,
    is_set (set_new h0).1 (set_new h0).2 [(l0, VAL_MIN); (lm, VAL_MAX)] ∧
    owns h0 (set_new h0).1 [(l0, VAL_MIN); (lm, VAL_MAX)].
Proof.
  unfold set_new, new_node. simpl.
  set (lm := malloc h0). set (h1 := <[lm := _]> h0). set (l0 := malloc h1).
  exists l0, lm.
  assert (h0 !! lm = None) as Hlm by apply malloc_fresh.
  assert (h1 !! l0 = None) as Hl0 by apply malloc_fresh.
  assert (l0 ≠ lm) as Hne.
  { intros E. rewrite E in Hl0. unfold h1 in Hl0. by rewrite lookup_insert_eq in Hl0. }
  assert (h0 !! l0 = None) as Hl0'.
  { unfold h1 in Hl0. by rewrite lookup_insert_ne in Hl0. }
  split; [split|split].
  - simpl. split; [done|]. eexists. split; [apply lookup_insert_eq|].
    split; [done|]. eexists. split; [|done].
    rewrite lookup_insert_ne by done. apply lookup_insert_eq.
  - simpl. apply NoDup_cons. split; [|apply NoDup_singleton].
    by rewrite list_elem_of_singleton.
  - intros l. simpl. rewrite elem_of_cons, list_elem_of_singleton.
    by intros [->| ->].
  - intros l. simpl. rewrite elem_of_cons, list_elem_of_singleton. intros Hl.
    rewrite lookup_insert_ne by (intros E; apply Hl; auto).
    unfold h1. rewrite lookup_insert_ne by (intros E; apply Hl; auto). done.
Qed.

Lemma splice_member v cs pre lp pv ln nv hi (nw : loc) x :
  position v cs pre lp pv ln nv hi →
  x ∈ tail (values (pre ++ (lp, pv) :: (nw, v) :: (ln, nv) :: hi))
  ↔ x = v ∨ x ∈ tail (values cs).
Proof.
  intros Hpos. rewrite (position_tail _ _ _ _ _ _ _ _ Hpos).
  rewrite values_tail, tail_app_cons. unfold values.
  rewrite fmap_app, !fmap_cons. simpl.
  rewrite !elem_of_app, !elem_of_cons. tauto.
Qed.

Lemma unlink_member v cs pre lp pv ln hi x :
  bounded (values cs) → position v cs pre lp pv ln v hi →
  x ∈ tail (values (pre ++ (lp, pv) :: hi)) ↔ x ∈ tail (values cs) ∧ x ≠ v.
Proof.
  intros Hb Hpos. pose proof (unlink_not_member v cs pre lp pv ln hi Hb Hpos) as Hnin.
  revert Hnin. rewrite (position_tail _ _ _ _ _ _ _ _ Hpos).
  rewrite values_tail, tail_app_cons. unfold values. rewrite fmap_app.
  rewrite !elem_of_app, !elem_of_cons. intros Hnin. split.
  - intros Hx. split; [tauto|]. intros ->. tauto.
  - tauto.
Qed.

(** One call keeps the chain well formed, in step with the set of
    integers, and within the nodes the set allocated. *)
Lemma apply_op_track h0 h set cs o fuel (X : gset Z) :
  is_set h set cs → bounded (values cs) → owns h0 h cs → represents cs X →
  op_value o < VAL_MAX → (length cs ≤ fuel)%nat →
  ∃ h' cs',
    apply_op fuel h set o = Ret (h', (model_op X o).2) ∧
    is_set h' set cs' ∧ bounded (values cs') ∧ owns h0 h' cs' ∧
    represents cs' (model_op X o).1 ∧ (length cs' ≤ S (length cs))%nat.
Proof.
  intros Hset Hb [Ho1 Ho2] Hrep Hv Hf. assert (op_value o ≤ VAL_MAX) as Hle by lia.
  destruct (bounded_position _ cs Hb Hle) as (pre & lp & pv & ln & nv & hi & Hpos).
  pose proof (position_member _ cs pre lp pv ln nv hi Hb Hpos) as Hmem.
  destruct o as [v|v]; simpl in Hv, Hle, Hpos, Hmem |- *.
  - destruct (decide (nv = v)) as [->|Hne].
    + assert (v ∈ X) as HvS by (apply Hrep; split; [by apply Hmem|lia]).
      exists h, cs. rewrite bool_decide_eq_false_2 by tauto.
      split; [by eapply set_add_hit|]. split; [done|]. split; [done|].
      split; [done|]. split; [|lia].
      intros x. rewrite elem_of_union, elem_of_singleton, (Hrep x). split; [|tauto].
      intros [?| ->]; [done|]. by apply Hrep.
    + assert (v ∉ X) as HvS by (rewrite (Hrep v); tauto).
      destruct (set_add_miss h set v cs pre lp pv ln nv hi fuel) as [Hadd Hset']; [done..|].
      eexists _, _. rewrite bool_decide_eq_true_2 by done.
      split; [exact Hadd|]. split; [exact Hset'|].
      split; [by eapply bounded_splice|].
      pose proof (malloc_fresh h) as Hfresh.
      assert (malloc h ∉ cs.*1) as Hnw.
      { intros Hin. destruct Hset as [Hs _].
        destruct (is_seg_allocated _ _ _ _ _ Hs Hin). congruence. }
      assert (∀ l, l ∈ (pre ++ (lp, pv) :: (malloc h, v) :: (ln, nv) :: hi).*1
                   ↔ l = malloc h ∨ l ∈ cs.*1) as Hlocs.
      { intros l. destruct Hpos as (-> & _).
        rewrite !fmap_app, !fmap_cons, !elem_of_app, !elem_of_cons. simpl. tauto. }
      assert (lp ∈ cs.*1) as Hlp.
      { destruct Hpos as (-> & _). rewrite fmap_app, fmap_cons, elem_of_app, elem_of_cons.
        simpl. tauto. }
      split; [split|split].
      * intros l [->|Hin]%Hlocs; [|by apply Ho1].
        rewrite <- Ho2 by done. done.
      * intros l Hl. rewrite Hlocs in Hl. unfold spliced.
        rewrite lookup_insert_ne by (intros E; apply Hl; right; by rewrite <- E).
        rewrite lookup_insert_ne by (intros E; apply Hl; by left).
        apply Ho2. tauto.
      * intros x. rewrite elem_of_union, elem_of_singleton, (Hrep x).
        rewrite (splice_member v cs pre lp pv ln nv hi (malloc h) x Hpos).
        split; [|tauto]. intros [?| ->]; [tauto|]. split; [tauto|lia].
      * rewrite (position_length _ _ _ _ _ _ _ _ Hpos), length_app. simpl. lia.
  - destruct (decide (nv = v)) as [->|Hne].
    + assert (v ∈ X) as HvS by (apply Hrep; split; [by apply Hmem|lia]).
      destruct (set_remove_hit h set v cs pre lp pv ln hi fuel)
        as (nx & Hln & Hrem & Hset'); [done..|].
      eexists _, _. rewrite bool_decide_eq_true_2 by done.
      split; [exact Hrem|]. split; [exact Hset'|].
      split; [by eapply bounded_unlink|].
      assert (∀ l, l ∈ cs.*1 ↔ l = ln ∨ l ∈ (pre ++ (lp, pv) :: hi).*1) as Hlocs.
      { intros l. destruct Hpos as (-> & _).
        rewrite !fmap_app, !fmap_cons, !elem_of_app, !elem_of_cons. simpl. tauto. }
      assert (lp ∈ (pre ++ (lp, pv) :: hi).*1) as Hlp.
      { rewrite fmap_app, fmap_cons, elem_of_app, elem_of_cons. simpl. tauto. }
      split; [split|split].
      * intros l Hin. apply Ho1, Hlocs. tauto.
      * intros l Hl. unfold unlinked. destruct (decide (l = ln)) as [->|Hne].
        -- rewrite lookup_delete_eq. symmetry. apply Ho1, Hlocs. tauto.
        -- rewrite lookup_delete_ne by done.
           rewrite lookup_insert_ne by (intros E; apply Hl; by rewrite <- E).
           apply Ho2. rewrite Hlocs. tauto.
      * intros x. rewrite elem_of_difference, elem_of_singleton, (Hrep x).
        rewrite (unlink_member v cs pre lp pv ln hi x Hb Hpos). tauto.
      * rewrite (position_length _ _ _ _ _ _ _ _ Hpos), length_app. simpl. lia.
    + assert (v ∉ X) as HvS by (rewrite (Hrep v); tauto).
      exists h, cs. rewrite bool_decide_eq_false_2 by done.
      split; [by eapply set_remove_miss|]. split; [done|]. split; [done|].
      split; [done|]. split; [|lia].
      intros x. rewrite elem_of_difference, elem_of_singleton, (Hrep x).
      split; [tauto|]. intros [Hx ?]. split; [done|]. intros ->. tauto.
Qed.

Lemma run_track ops : ∀ h0 h set cs fuel (X : gset Z),
  is_set h set cs → bounded (values cs) → owns h0 h cs → represents cs X →
  Forall (λ o, op_value o < VAL_MAX) ops → (length cs + length ops ≤ fuel)%nat →
  ∃ h' cs',
    run fuel h set ops = Ret (h', (model_run X ops).2) ∧
    is_set h' set cs' ∧ bounded (values cs') ∧ owns h0 h' cs' ∧
    represents cs' (model_run X ops).1 ∧
    (length cs' ≤ length cs + length ops)%nat.
Proof.
  induction ops as [|o ops IH]; intros h0 h set cs fuel X Hset Hb Ho Hrep Hops Hf.
  - exists h, cs. simpl. repeat (split; [done|]). lia.
  - apply Forall_cons in Hops as [Hv Hops]. simpl in Hf.
    destruct (apply_op_track h0 h set cs o fuel X)
      as (h1 & cs1 & E1 & S1 & B1 & O1 & R1 & L1); [done..|lia|].
    destruct (IH h0 h1 set cs1 fuel (model_op X o).1)
      as (h2 & cs2 & E2 & S2 & B2 & O2 & R2 & L2); [done..|lia|].
    exists h2, cs2. simpl. rewrite E1. simpl. rewrite E2. simpl.
    destruct (model_op X o) as [X1' b]. simpl in *.
    destruct (model_run X1' ops) as [X2' bs]. simpl in *.
    repeat (split; [done|]). lia.
Qed.

Lemma represents_size cs (X : gset Z) :
  bounded (values cs) → represents cs X →
  Z.of_nat (size X) = Z.of_nat (length cs) - 2.
Proof.
  intros Hb Hrep. pose proof Hb as [Hs Hl].
  apply last_Some in Hl as (mid & E). rewrite E in Hs.
  apply StronglySorted_app in Hs as (Hlt & Hmid & _).
  assert (NoDup mid) as Hnd.
  { clear -Hmid. induction Hmid as [|x l Hs IH Hx]; constructor; [|done].
    intros Hin. rewrite Forall_forall in Hx. specialize (Hx _ Hin). lia. }
  assert (X = list_to_set mid) as ->.
  { apply set_eq. intros x. rewrite elem_of_list_to_set, (Hrep x), E, elem_of_app.
    rewrite list_elem_of_singleton. split.
    - tauto.
    - intros Hx. split; [tauto|]. intros ->.
      specialize (Hlt VAL_MAX VAL_MAX Hx). rewrite list_elem_of_singleton in Hlt.
      specialize (Hlt eq_refl). lia. }
  rewrite size_list_to_set by done.
  assert (length (tail (values cs)) = S (length mid)) as Hlen.
  { rewrite E, length_app. simpl. lia. }
  destruct cs as [|c0 rest]; [done|]. unfold values in Hlen. simpl in Hlen.
  rewrite length_fmap in Hlen. simpl. lia.
Qed.

(** X5: the list implements a set of integers. For every sequence of
    adds and removes of values below [VAL_MAX], run on the set [set_new]
    returns, every call returns what the same call returns on a
    mathematical set that starts empty; afterwards [set_contains] answers
    membership in that set for every value below [VAL_MAX], and [set_size]
    returns its cardinal. *)
Theorem run_refines_set h0 ops fuel :
  Forall (λ o, op_value o < VAL_MAX) ops → (length ops + 2 ≤ fuel)%nat →
  ∃ h',
    run fuel (set_new h0).1 (set_new h0).2 ops = Ret (h', (model_run ∅ ops).2) ∧
    (∀ v, v < VAL_MAX →
       set_contains fuel h' (set_new h0).2 v
         = Ret (bool_decide (v ∈ (model_run ∅ ops).1))) ∧
    set_size fuel h' (set_new h0).2 = Ret (Z.of_nat (size (model_run ∅ ops).1)).
Proof.
  intros Hops Hf. destruct (fresh_owns h0) as (l0 & lm & Hset & Hown).
  assert (bounded (values [(l0, VAL_MIN); (lm, VAL_MAX)])) as Hb.
  { split; [|done]. simpl. repeat constructor. }
  destruct (run_track ops h0 _ _ _ fuel ∅ Hset Hb Hown (fresh_represents l0 lm) Hops)
    as (h' & cs' & E & S' & B' & O' & R' & L'); [simpl; lia|].
  simpl in L'. exists h'. split; [done|]. split.
  - intros v Hv. rewrite (set_contains_member h' _ cs') by (done || lia).
    f_equal. apply bool_decide_ext. rewrite (R' v). split; [|tauto].
    intros Hin. split; [done|lia].
  - rewrite (represents_size cs' _ B' R').
    destruct (bounded_cells cs' B') as ([l0' v0'] & mid & [lm' vm'] & ->).
    rewrite (set_size_spec h' _ l0' v0' mid lm' vm' fuel S').
    + f_equal. simpl. rewrite length_app. simpl. lia.
    + simpl in L'. rewrite length_app in L'. simpl in L'. lia.
Qed.

Lemma run_refines_set_witness :
  ∃ h',
    run 5 (set_new ∅).1 (set_new ∅).2 [Add 5; Add 3; Remove 5]
      = Ret (h', (model_run ∅ [Add 5; Add 3; Remove 5]).2) ∧
    (∀ v, v < VAL_MAX →
       set_contains 5 h' (set_new ∅).2 v
         = Ret (bool_decide (v ∈ (model_run ∅ [Add 5; Add 3; Remove 5]).1))) ∧
    set_size 5 h' (set_new ∅).2
      = Ret (Z.of_nat (size (model_run ∅ [Add 5; Add 3; Remove 5]).1)).
Proof.
  apply (run_refines_set ∅ [Add 5; Add 3; Remove 5] 5).
  - repeat constructor; by vm_compute.
  - simpl. lia.
Defined.

(** X6: the operations write to the nodes of the set only. Whatever was
    allocated before [set_new] holds the same contents after any sequence
    of adds and removes of values below [VAL_MAX]. *)
Theorem run_frame h0 ops fuel :
  Forall (λ o, op_value o < VAL_MAX) ops → (length ops + 2 ≤ fuel)%nat →
  ∃ h' bs,
    run fuel (set_new h0).1 (set_new h0).2 ops = Ret (h', bs) ∧
    ∀ l n, h0 !! l = Some n → h' !! l = Some n.
Proof.
  intros Hops Hf. destruct (fresh_owns h0) as (l0 & lm & Hset & Hown).
  assert (bounded (values [(l0, VAL_MIN); (lm, VAL_MAX)])) as Hb.
  { split; [|done]. simpl. repeat constructor. }
  destruct (run_track ops h0 _ _ _ fuel ∅ Hset Hb Hown (fresh_represents l0 lm) Hops)
    as (h' & cs' & E & S' & B' & [O1 O2] & R' & L'); [simpl; lia|].
  exists h', (model_run ∅ ops).2. split; [done|].
  intros l n Hl. rewrite O2; [done|]. intros Hin. apply O1 in Hin. congruence.
Qed.

Lemma run_frame_witness :
  ∃ h' bs,
    run 5 (set_new heap_5).1 (set_new heap_5).2 [Add 5; Add 3; Remove 5]
      = Ret (h', bs) ∧
    ∀ l n, heap_5 !! l = Some n → h' !! l = Some n.
Proof.
  apply (run_frame heap_5 [Add 5; Add 3; Remove 5] 5).
  - repeat constructor; by vm_compute.
  - simpl. lia.
Defined.

(** X7: nothing leaks. After [set_new], any sequence of adds and removes
    of values below [VAL_MAX], and [set_delete], the heap is the one
    [set_new] was given: every node the set allocated has been freed, by
    [set_remove] or by [set_delete], and nothing else has changed. *)
Theorem set_delete_restores_heap h0 ops fuel :
  Forall (λ o, op_value o < VAL_MAX) ops → (length ops + 2 ≤ fuel)%nat →
  ∃ h' bs,
    run fuel (set_new h0).1 (set_new h0).2 ops = Ret (h', bs) ∧
    set_delete fuel h' (set_new h0).2 = Ret h0.
Proof.
  intros Hops Hf. destruct (fresh_owns h0) as (l0 & lm & Hset & Hown).
  assert (bounded (values [(l0, VAL_MIN); (lm, VAL_MAX)])) as Hb.
  { split; [|done]. simpl. repeat constructor. }
  destruct (run_track ops h0 _ _ _ fuel ∅ Hset Hb Hown (fresh_represents l0 lm) Hops)
    as (h' & cs' & E & [Hs Hnd] & B' & [O1 O2] & R' & L'); [simpl; lia|].
  exists h', (model_run ∅ ops).2. split; [done|].
  destruct (set_delete_loop_spec h' (head (set_new h0).2) cs' fuel)
    as (h'' & Edel & Hh''); [done|done|simpl in L'; lia|].
  unfold set_delete. rewrite Edel. f_equal. apply map_eq. intros l.
  rewrite Hh''. case_decide; [symmetry; by apply O1|by apply O2].
Qed.

Lemma set_delete_restores_heap_witness :
  ∃ h' bs,
    run 5 (set_new heap_5).1 (set_new heap_5).2 [Add 5; Add 3; Remove 5]
      = Ret (h', bs) ∧
    set_delete 5 h' (set_new heap_5).2 = Ret heap_5.
Proof.
  apply (set_delete_restores_heap heap_5 [Add 5; Add 3; Remove 5] 5).
  - repeat constructor; by vm_compute.
  - simpl. lia.
Defined.

End SortedSetMore.

(** ** The worker that runs alone *)

Section WorkerAlone.
Import IntSet Rand Stress.
Implicit Types (h : heap) (d : thread_data_t) (l : locals) (cs : list (loc * Z)).

#[local] Opaque drand48_iterate draw set_add set_remove set_contains.

Lemma is_set_unique h set cs1 cs2 : is_set h set cs1 → is_set h set cs2 → cs1 = cs2.
Proof. intros [H1 _] [H2 _]. by eapply is_seg_func. Qed.

Lemma add_step_facts fuel h set cs v :
  is_set h set cs → bounded (values cs) → v < VAL_MAX → (length cs ≤ fuel)%nat →
  ∃ h' b cs',
    set_add fuel h set v = Ret (h', b) ∧ is_set h' set cs' ∧
    bounded (values cs') ∧ v ∈ tail (values cs') ∧
    Z.of_nat (length cs') = Z.of_nat (length cs) + (if b then 1 else 0).
Proof.
  intros Hset Hb Hv Hf.
  destruct (set_add_member h set cs v fuel) as (h' & b & cs' & E & S' & B' & M' & _);
    [done|done|lia|done|].
  destruct (apply_op_step h set cs (Add v) fuel) as (h2 & b2 & cs2 & E2 & S2 & _ & L2 & _);
    [done|done|simpl; lia|done|].
  simpl in E2. rewrite E in E2. simplify_eq.
  pose proof (is_set_unique _ _ _ _ S' S2) as ->.
  exists h2, b2, cs2. repeat (split; [done|]).
  rewrite L2. unfold score. by destruct b2.
Qed.

Lemma remove_step_facts fuel h set cs v :
  is_set h set cs → bounded (values cs) → v < VAL_MAX → (length cs ≤ fuel)%nat →
  ∃ h' b cs',
    set_remove fuel h set v = Ret (h', b) ∧ is_set h' set cs' ∧
    bounded (values cs') ∧
    Z.of_nat (length cs') = Z.of_nat (length cs) - (if b then 1 else 0) ∧
    (v ∈ tail (values cs) → b = true).
Proof.
  intros Hset Hb Hv Hf.
  destruct (apply_op_step h set cs (Remove v) fuel) as (h2 & b2 & cs2 & E2 & S2 & B2 & L2 & _);
    [done..|].
  simpl in E2.
  assert (Z.of_nat (length cs2) = Z.of_nat (length cs) - (if b2 then 1 else 0)) as L.
  { rewrite L2. unfold score, is_remove. simpl. destruct b2; lia. }
  assert (v ∈ tail (values cs) → b2 = true) as M.
  { intros Hin.
    destruct (set_remove_member h set cs v fuel) as (h3 & cs3 & E3 & _); [done..|].
    rewrite E2 in E3. by simplify_eq. }
  by exists h2, b2, cs2.
Qed.

(** One iteration of the loop of [test], for a worker that runs alone. *)
Lemma test_body_step fuel h d l cs :
  worker_ok fuel h d l cs → INT_MIN < diff d < INT_MAX →
  ∃ h' d' l' e cs',
    test_body fuel h d l = Ret (h', d', l', e) ∧
    is_set h' (set d) cs' ∧ bounded (values cs') ∧ last_ok d l' cs' ∧
    step_facts d l cs h d' l' cs' h' e.
Proof.
  intros (Hset & Hb & Hf & Hr & Hlast) Hdiff.
  unfold test_body.
  destruct (draw_returns 100 d) as (o & Eo & Ho); [done..|]. rewrite Eo. simpl.
  set (d1 := with_seed d (drand48_iterate (seed d))).
  destruct (draw_returns (range d) d1) as (r & Er & Hr'); [simpl; lia..|].
  simpl in Hr'.
  set (d2 := with_seed d1 (drand48_iterate (seed d1))) in *.
  assert (r + 1 < VAL_MAX) as Hv by (unfold VAL_MAX, INT_MAX in *; lia).
  destruct (Z.ltb_spec o (update d)) as [Hup|Hup].
  - destruct (Z.eqb_spec (alternate d) 0) as [Halt|Halt]; simpl.
    + (* non-alternate mode: the outstanding slot is never written *)
      assert (last l = -1) as Hl1 by (destruct Hlast as [?|[? _]]; done).
      rewrite Er. simpl.
      destruct (Z.eqb_spec (Z.land o 1) 0) as [Hev|Hev].
      * destruct (add_step_facts fuel h (set d) cs (r + 1))
          as (h' & b & cs' & E & S' & B' & M' & L'); [done..|].
        rewrite E. simpl. eexists _, _, _, _, cs'. split; [done|].
        split; [done|]. split; [done|]. split; [by left|].
        unfold step_facts, same_config, event_ok, delta, outstanding. simpl.
        rewrite ?wrap_int_small by lia.
        rewrite Hl1. simpl.
        repeat split; try done; try lia; destruct b; simpl; lia.
      * destruct (remove_step_facts fuel h (set d) cs (r + 1))
          as (h' & b & cs' & E & S' & B' & L' & M'); [done..|].
        rewrite E. simpl. eexists _, _, _, _, cs'. split; [done|].
        split; [done|]. split; [done|]. split; [by left|].
        unfold step_facts, same_config, event_ok, delta, outstanding. simpl.
        rewrite ?wrap_int_small by lia.
        rewrite Hl1. simpl.
        repeat split; try done; try lia; destruct b; simpl; lia.
    + destruct (Z.ltb_spec (last l) 0) as [Hneg|Hpos].
      * (* no value outstanding: add *)
        assert (last l = -1) as Hl1 by (destruct Hlast as [?|(_ & ? & _)]; [done|lia]).
        rewrite Er. simpl.
        destruct (add_step_facts fuel h (set d) cs (r + 1))
          as (h' & b & cs' & E & S' & B' & M' & L'); [done..|].
        rewrite E. simpl. eexists _, _, _, _, cs'. split; [done|].
        split; [done|]. split; [done|]. split.
        { unfold last_ok. simpl. destruct b; [right|by left].
          split; [done|]. split; [lia|]. split; [lia|done]. }
        unfold step_facts, same_config, event_ok, delta, outstanding. simpl.
        rewrite ?wrap_int_small by lia.
        rewrite Hl1. simpl.
        repeat split; try done; try lia; destruct b; simpl; try lia.
        all: destruct (Z.leb_spec 0 (r + 1)); lia.
      * (* a value is outstanding: remove it *)
        destruct Hlast as [?|(_ & Hlr & Hvr & Hin)]; [lia|].
        destruct (remove_step_facts fuel h (set d) cs (last l))
          as (h' & b & cs' & E & S' & B' & L' & M');
          [done|done|unfold VAL_MAX, INT_MAX in *; lia|done|].
        rewrite (M' Hin) in *. rewrite E. simpl.
        eexists _, _, _, _, cs'. split; [done|].
        split; [done|]. split; [done|]. split; [by left|].
        unfold step_facts, same_config, event_ok, delta, outstanding. simpl.
        rewrite ?wrap_int_small by lia.
        destruct (Z.leb_spec 0 (last l)); [|lia].
        repeat split; try done; try lia.
  - (* lookup *)
    rewrite Er. simpl.
    rewrite (set_contains_member h (set d) cs (r + 1) fuel) by (done || lia). simpl.
    eexists _, _, _, _, cs. split; [done|].
    split; [done|]. split; [done|]. split.
    { unfold last_ok in *. simpl.
      destruct Hlast as [?|(? & ? & ? & ?)]; [by left|right].
      split; [done|]. split; [done|]. split; [lia|done]. }
    unfold step_facts, same_config, event_ok, delta, outstanding. simpl.
    repeat split; try done; try lia.
Qed.

Lemma event_ok_config d d' e : same_config d d' → event_ok d' e → event_ok d e.
Proof. intros (_ & Hr & Hu & Ha). unfold event_ok. by rewrite Hr, Hu, Ha. Qed.

Lemma last_ok_config d d' l cs : same_config d d' → last_ok d' l cs → last_ok d l cs.
Proof. intros (_ & Hr & _ & Ha). unfold last_ok. by rewrite Hr, Ha. Qed.

Lemma incr_ulong_range x : 0 ≤ incr_ulong x < 2 ^ 64.
Proof. unfold incr_ulong. apply Z.mod_pos_bound. lia. Qed.

Lemma incr_ulong_add x a : (incr_ulong x + a) mod 2 ^ 64 = (x + (1 + a)) mod 2 ^ 64.
Proof. unfold incr_ulong. rewrite Z.add_mod_idemp_l by lia. f_equal. lia. Qed.

(** The loop of [test], for a worker that runs alone: [k] iterations. *)
Lemma test_loop_run k : ∀ n fuel h d l cs trace,
  worker_ok fuel h d l cs → counters_ok d →
  INT_MIN + Z.of_nat k ≤ diff d ≤ INT_MAX - Z.of_nat k →
  ops d = Z.of_nat k → (length cs + k ≤ fuel)%nat → (k < n)%nat →
  ∃ h' d' l' t cs',
    test_loop n fuel h d l trace = Ret (h', d', l', trace ++ t) ∧
    is_set h' (set d) cs' ∧ bounded (values cs') ∧ last_ok d l' cs' ∧
    run_facts d l cs h d' l' cs' h' t.
Proof.
  induction k as [|k IH]; intros n fuel h d l cs trace Hok Hc Hdiff Hops Hf Hn;
    (destruct n as [|n]; [lia|]); simpl test_loop; rewrite Hops.
  - simpl. destruct Hok as (Hset & Hb & _ & _ & Hlast).
    destruct Hc as (C1 & C2 & C3 & C4).
    exists h, (with_ops d (0 - 1)), l, [], cs. rewrite app_nil_r.
    split; [done|]. split; [done|]. split; [done|]. split; [done|].
    unfold run_facts, same_config. simpl.
    rewrite !Z.add_0_r, !Z.mod_small by lia.
    repeat split; try done; lia.
  - replace (Z.of_nat (S k) =? 0) with false by (symmetry; apply Z.eqb_neq; lia).
    simpl negb. cbv iota.
    set (d0 := with_ops d (Z.of_nat (S k) - 1)).
    assert (worker_ok fuel h d0 l cs) as Hok0.
    { destruct Hok as (Hset & Hb & Hf' & Hr & Hlast).
      split; [exact Hset|]. split; [exact Hb|]. split; [exact Hf'|].
      split; [exact Hr|exact Hlast]. }
    destruct (test_body_step fuel h d0 l cs Hok0)
      as (h1 & d1 & l1 & e & cs1 & E1 & S1 & B1 & L1 & F1); [simpl; lia|].
    rewrite E1. simpl.
    destruct F1 as (Hcfg & Hops1 & Hev & A1 & R1 & C1 & N1 & D1 & Len1 & Hh1 & O1).
    pose proof Hcfg as (Hs1 & Hr1 & Hu1 & Ha1). simpl in Hs1, Hr1, Hu1, Ha1.
    assert (-1 ≤ delta e ≤ 1) as Hd1.
    { unfold delta. destruct (made e) as [? []|? []|? []]; lia. }
    assert (worker_ok fuel h1 d1 l1 cs1) as Hok1.
    { destruct Hok as (_ & _ & _ & Hr & _). split; [by rewrite Hs1|].
      split; [done|]. split; [lia|]. split; [by rewrite Hr1|].
      unfold last_ok in *. by rewrite Hr1, Ha1. }
    assert (counters_ok d1) as Hc1.
    { destruct Hc as (? & ? & ? & ?). unfold counters_ok.
      rewrite A1, R1, C1, N1. simpl.
      pose proof (incr_ulong_range (nb_add d)). pose proof (incr_ulong_range (nb_remove d)).
      pose proof (incr_ulong_range (nb_contains d)). pose proof (incr_ulong_range (nb_found d)).
      repeat split.
      all: try (destruct (tag e =? 0); lia); try (destruct (tag e =? 1); lia);
        try (destruct (tag e =? 2); lia).
      all: destruct (made e) as [? ?|? ?|? []]; lia. }
    destruct (IH n fuel h1 d1 l1 cs1 (trace ++ [e]) Hok1 Hc1)
      as (h' & d' & l' & t & cs' & E & S' & B' & L' & F');
      [rewrite D1; simpl; lia|rewrite Hops1; simpl; lia|lia|lia|].
    rewrite E. exists h', d', l', (e :: t), cs'.
    rewrite <- app_assoc. split; [done|]. rewrite Hs1 in S'.
    split; [done|]. split; [done|].
    split; [unfold last_ok in *; by rewrite <- Hr1, <- Ha1|].
    destruct F' as (Hcfg' & Hops' & Hlen' & Hev' & A' & R' & C' & N' & D' & Len' & Hh' & O').
    destruct Hcfg' as (Hs' & Hr' & Hu' & Ha').
    unfold run_facts, same_config. simpl tagged. simpl found. simpl net.
    split; [by rewrite Hs', Hr', Hu', Ha'|]. split; [done|].
    split; [rewrite length_cons, Hops; rewrite Hops1 in Hlen'; simpl in Hlen'; lia|].
    split.
    { constructor.
      - by apply (event_ok_config d d0 e).
      - eapply Forall_impl; [exact Hev'|]. intros e' He'.
        apply (event_ok_config d d0); [done|]. by apply (event_ok_config d0 d1). }
    split.
    { rewrite A', A1. simpl. destruct (tag e =? 0); [apply incr_ulong_add|done]. }
    split.
    { rewrite R', R1. simpl. destruct (tag e =? 1); [apply incr_ulong_add|done]. }
    split.
    { rewrite C', C1. simpl. destruct (tag e =? 2); [apply incr_ulong_add|done]. }
    split.
    { rewrite N', N1. simpl.
      destruct (made e) as [? ?|? ?|? []]; simpl; try done. apply incr_ulong_add. }
    split; [rewrite D', D1; simpl; lia|].
    split; [lia|].
    split.
    { intros [Ht Hts]%Forall_cons. rewrite (Hh' Hts). by apply Hh1. }
    intros Halt. rewrite O' by (by rewrite Ha1). rewrite O1 by done. lia.
Qed.

Lemma net_bound t : - Z.of_nat (length t) ≤ net t ≤ Z.of_nat (length t).
Proof.
  induction t as [|e t IH]; simpl net; [simpl; lia|]. rewrite length_cons.
  unfold delta. destruct (made e) as [? []|? []|? []]; lia.
Qed.

Lemma tagged_sum d t :
  Forall (event_ok d) t →
  tagged 0 t + tagged 1 t + tagged 2 t = Z.of_nat (length t) ∧
  0 ≤ found t ≤ tagged 2 t.
Proof.
  induction 1 as [|e t He _ IH]; [simpl; lia|].
  rewrite length_cons. simpl tagged. simpl found.
  destruct He as [He _]. destruct (made e) as [v b|v b|v b].
  - destruct He as (-> & _). simpl. lia.
  - destruct He as (-> & _). simpl. lia.
  - destruct He as (-> & _). simpl. destruct b; lia.
Qed.

Lemma set_size_length h set cs fuel :
  is_set h set cs → bounded (values cs) → (length cs ≤ S fuel)%nat →
  set_size fuel h set = Ret (Z.of_nat (length cs) - 2).
Proof.
  intros Hset [_ Hl] Hf. destruct cs as [|[l0 v0] [|c1 rest]]; [done..|].
  destruct (exists_last (l := c1 :: rest)) as (mid & [lm mv] & E); [done|].
  rewrite E in Hset, Hf |- *.
  rewrite (set_size_spec h set l0 v0 mid lm mv fuel Hset).
  - f_equal. simpl. rewrite length_app. simpl. lia.
  - simpl in Hf. rewrite length_app in Hf. simpl in Hf. lia.
Qed.

(** [test], for a worker that runs alone. *)
Lemma test_run n fuel h d cs op0 val0 :
  runs_alone n fuel h d cs →
  ∃ h' d' l' t cs',
    test n fuel h d op0 val0 = Ret (h', d', l', t) ∧
    is_set h' (set d) cs' ∧ bounded (values cs') ∧ last_ok d l' cs' ∧
    run_facts d (Locals op0 val0 (-1)) cs h d' l' cs' h' t.
Proof.
  intros (Hset & Hb & Hr & Hc & Hops & Hdiff & Hf & Hn). unfold test.
  destruct (test_loop_run (Z.to_nat (ops d)) n fuel h d (Locals op0 val0 (-1)) cs [])
    as (h' & d' & l' & t & cs' & E & F); [|done|lia|lia|done|done|].
  - split; [done|]. split; [done|]. split; [lia|]. split; [done|by left].
  - by exists h', d', l', t, cs'.
Qed.

Lemma runs_alone_worker :
  runs_alone 10 10 fresh_heap (worker (Seed 2 0 0) 3 10 50 1) cells_fresh.
Proof.
  split; [exact fresh_is_set|]. split; [exact fresh_bounded|].
  unfold counters_ok. simpl. unfold INT_MAX, INT_MIN. repeat split; lia.
Qed.

Lemma runs_alone_lookups :
  runs_alone 10 10 fresh_heap (worker (Seed 2 0 0) 3 10 0 0) cells_fresh.
Proof.
  split; [exact fresh_is_set|]. split; [exact fresh_bounded|].
  unfold counters_ok. simpl. unfold INT_MAX, INT_MIN. repeat split; lia.
Qed.

Lemma runs_alone_updates :
  runs_alone 10 10 fresh_heap (worker (Seed 2 0 0) 3 10 100 0) cells_fresh.
Proof.
  split; [exact fresh_is_set|]. split; [exact fresh_bounded|].
  unfold counters_ok. simpl. unfold INT_MAX, INT_MIN. repeat split; lia.
Qed.

(** X8: a worker that runs alone never crashes and never aborts: [test]
    returns after exactly [ops] iterations, each with one line whose tag is
    0, 1 or 2 and whose value lies in [1, range]; it leaves [ops] at -1,
    the configuration as it was and the set well formed. *)
Theorem test_prints_ops_lines n fuel h d cs op0 val0 :
  runs_alone n fuel h d cs →
  ∃ h' d' l' t cs',
    test n fuel h d op0 val0 = Ret (h', d', l', t) ∧
    Z.of_nat (length t) = ops d ∧ ops d' = -1 ∧ same_config d d' ∧
    Forall (λ e, (tag e = 0 ∨ tag e = 1 ∨ tag e = 2) ∧ 1 ≤ value e ≤ range d) t ∧
    is_set h' (set d) cs' ∧ bounded (values cs').
Proof.
  intros Hok. destruct (test_run n fuel h d cs op0 val0 Hok)
    as (h' & d' & l' & t & cs' & E & S' & B' & _ & F).
  destruct F as (Hcfg & Hops' & Hlen & Hev & _).
  exists h', d', l', t, cs'. repeat (split; [done|]). split; [|done].
  eapply Forall_impl; [exact Hev|]. intros e [He _].
  destruct (made e) as [v b|v b|v b].
  - destruct He as (-> & -> & ?). split; [by left|done].
  - destruct He as (-> & _ & ? & _). split; [right; by left|done].
  - destruct He as (-> & -> & ?). split; [right; by right|done].
Qed.

Lemma test_prints_ops_lines_witness :
  ∃ h' d' l' t cs',
    test 10 10 fresh_heap (worker (Seed 2 0 0) 3 10 50 1) 0 0 = Ret (h', d', l', t) ∧
    Z.of_nat (length t) = ops (worker (Seed 2 0 0) 3 10 50 1) ∧ ops d' = -1 ∧
    same_config (worker (Seed 2 0 0) 3 10 50 1) d' ∧
    Forall (λ e, (tag e = 0 ∨ tag e = 1 ∨ tag e = 2) ∧
                 1 ≤ value e ≤ range (worker (Seed 2 0 0) 3 10 50 1)) t ∧
    is_set h' (set (worker (Seed 2 0 0) 3 10 50 1)) cs' ∧ bounded (values cs').
Proof.
  apply (test_prints_ops_lines 10 10 fresh_heap (worker (Seed 2 0 0) 3 10 50 1)
           cells_fresh 0 0).
  exact runs_alone_worker.
Defined.

(** X9: the counters of a worker that runs alone tally its trace: [nb_add],
    [nb_remove] and [nb_contains] grow (as [unsigned long]) by the numbers
    of lines tagged 0, 1 and 2, which add up to [ops]; [nb_found] grows by
    the number of lookups that returned 1, which is at most the number of
    lookups. *)
Theorem test_counters_tally n fuel h d cs op0 val0 :
  runs_alone n fuel h d cs →
  ∃ h' d' l' t,
    test n fuel h d op0 val0 = Ret (h', d', l', t) ∧
    nb_add d' = (nb_add d + tagged 0 t) mod 2 ^ 64 ∧
    nb_remove d' = (nb_remove d + tagged 1 t) mod 2 ^ 64 ∧
    nb_contains d' = (nb_contains d + tagged 2 t) mod 2 ^ 64 ∧
    nb_found d' = (nb_found d + found t) mod 2 ^ 64 ∧
    tagged 0 t + tagged 1 t + tagged 2 t = ops d ∧
    0 ≤ found t ≤ tagged 2 t.
Proof.
  intros Hok. destruct (test_run n fuel h d cs op0 val0 Hok)
    as (h' & d' & l' & t & cs' & E & _ & _ & _ & F).
  destruct F as (_ & _ & Hlen & Hev & A & R & C & N & _).
  destruct (tagged_sum d t Hev) as [Hsum Hfound].
  exists h', d', l', t. repeat (split; [done|]). split; [lia|done].
Qed.

Lemma test_counters_tally_witness :
  ∃ h' d' l' t,
    test 10 10 fresh_heap (worker (Seed 2 0 0) 3 10 50 1) 0 0 = Ret (h', d', l', t) ∧
    nb_add d' = (nb_add (worker (Seed 2 0 0) 3 10 50 1) + tagged 0 t) mod 2 ^ 64 ∧
    nb_remove d' = (nb_remove (worker (Seed 2 0 0) 3 10 50 1) + tagged 1 t) mod 2 ^ 64 ∧
    nb_contains d'
      = (nb_contains (worker (Seed 2 0 0) 3 10 50 1) + tagged 2 t) mod 2 ^ 64 ∧
    nb_found d' = (nb_found (worker (Seed 2 0 0) 3 10 50 1) + found t) mod 2 ^ 64 ∧
    tagged 0 t + tagged 1 t + tagged 2 t = ops (worker (Seed 2 0 0) 3 10 50 1) ∧
    0 ≤ found t ≤ tagged 2 t.
Proof.
  apply (test_counters_tally 10 10 fresh_heap (worker (Seed 2 0 0) 3 10 50 1)
           cells_fresh 0 0).
  exact runs_alone_worker.
Defined.

(** X10: the check [main] ends on passes for a worker that runs alone:
    [set_size] after [test] is [set_size] before it plus what the worker
    added to [diff], and [diff] never left the range of an [int]. *)
Theorem test_diff_is_size_change n fuel h d cs op0 val0 :
  runs_alone n fuel h d cs →
  ∃ h' d' l' t size,
    test n fuel h d op0 val0 = Ret (h', d', l', t) ∧
    set_size fuel h (set d) = Ret size ∧
    set_size fuel h' (set d) = Ret (size + (diff d' - diff d)) ∧
    diff d' - diff d = net t ∧
    INT_MIN ≤ diff d' ≤ INT_MAX.
Proof.
  intros Hok. destruct (test_run n fuel h d cs op0 val0 Hok)
    as (h' & d' & l' & t & cs' & E & S' & B' & _ & F).
  destruct Hok as (Hset & Hb & _ & _ & Hops & Hdiff & Hf & _).
  destruct F as (_ & _ & Hlen & _ & _ & _ & _ & _ & D & L & _).
  pose proof (net_bound t) as Hnet.
  exists h', d', l', t, (Z.of_nat (length cs) - 2).
  split; [done|].
  split; [apply set_size_length; [done|done|lia]|].
  split; [|lia].
  rewrite (set_size_length h' (set d) cs' fuel); [f_equal; lia|done|done|lia].
Qed.

Lemma test_diff_is_size_change_witness :
  ∃ h' d' l' t size,
    test 10 10 fresh_heap (worker (Seed 2 0 0) 3 10 50 1) 0 0 = Ret (h', d', l', t) ∧
    set_size 10 fresh_heap (set (worker (Seed 2 0 0) 3 10 50 1)) = Ret size ∧
    set_size 10 h' (set (worker (Seed 2 0 0) 3 10 50 1))
      = Ret (size + (diff d' - diff (worker (Seed 2 0 0) 3 10 50 1))) ∧
    diff d' - diff (worker (Seed 2 0 0) 3 10 50 1) = net t ∧
    INT_MIN ≤ diff d' ≤ INT_MAX.
Proof.
  apply (test_diff_is_size_change 10 10 fresh_heap (worker (Seed 2 0 0) 3 10 50 1)
           cells_fresh 0 0).
  exact runs_alone_worker.
Defined.

(** X11: with an update percentage of zero or less the worker only looks
    values up: every line is tagged 2, the heap is left as it was, and
    [nb_add], [nb_remove] and [diff] keep their values. *)
Theorem test_no_update_only_lookups n fuel h d cs op0 val0 :
  runs_alone n fuel h d cs → update d ≤ 0 →
  ∃ d' l' t,
    test n fuel h d op0 val0 = Ret (h, d', l', t) ∧
    Forall (λ e, tag e = 2) t ∧
    nb_add d' = nb_add d ∧ nb_remove d' = nb_remove d ∧ diff d' = diff d ∧
    nb_contains d' = (nb_contains d + ops d) mod 2 ^ 64.
Proof.
  intros Hok Hup. destruct (test_run n fuel h d cs op0 val0 Hok)
    as (h' & d' & l' & t & cs' & E & _ & _ & _ & F).
  destruct Hok as (_ & _ & _ & (? & ? & ? & ?) & _).
  destruct F as (_ & _ & Hlen & Hev & A & R & C & _ & D & _ & Hh & _).
  assert (Forall (λ e, tag e = 2) t) as Htags.
  { eapply Forall_impl; [exact Hev|]. intros e (_ & He & _). by apply He. }
  assert (tagged 0 t = 0 ∧ tagged 1 t = 0 ∧ tagged 2 t = Z.of_nat (length t) ∧ net t = 0)
    as (T0 & T1 & T2 & Tn).
  { clear -Hev Htags. induction t as [|e t IH]; [done|].
    apply Forall_cons in Hev as [[He _] Hev]. apply Forall_cons in Htags as [Ht Htags].
    destruct (IH Hev Htags) as (I0 & I1 & I2 & In).
    rewrite length_cons. simpl tagged. simpl net. rewrite Ht, I0, I1, I2, In. simpl.
    unfold delta. destruct (made e) as [v b|v b|v b].
    - destruct He as (He & _). lia.
    - destruct He as (He & _). lia.
    - repeat split; lia. }
  rewrite (Hh Htags) in E. exists d', l', t. split; [done|]. split; [done|].
  rewrite A, R, C, D, T0, T1, T2, Tn, !Z.add_0_r, !Z.mod_small by lia.
  rewrite Hlen. done.
Qed.

Lemma test_no_update_only_lookups_witness :
  ∃ d' l' t,
    test 10 10 fresh_heap (worker (Seed 2 0 0) 3 10 0 0) 0 0
      = Ret (fresh_heap, d', l', t) ∧
    Forall (λ e, tag e = 2) t ∧
    nb_add d' = nb_add (worker (Seed 2 0 0) 3 10 0 0) ∧
    nb_remove d' = nb_remove (worker (Seed 2 0 0) 3 10 0 0) ∧
    diff d' = diff (worker (Seed 2 0 0) 3 10 0 0) ∧
    nb_contains d'
      = (nb_contains (worker (Seed 2 0 0) 3 10 0 0)
         + ops (worker (Seed 2 0 0) 3 10 0 0)) mod 2 ^ 64.
Proof.
  apply (test_no_update_only_lookups 10 10 fresh_heap (worker (Seed 2 0 0) 3 10 0 0)
           cells_fresh 0 0).
  - exact runs_alone_lookups.
  - simpl. lia.
Defined.

(** X12: with an update percentage of 100 or more the worker never looks a
    value up: no line is tagged 2, [nb_contains] and [nb_found] keep their
    values, and adds and removes together number [ops]. *)
Theorem test_all_updates_no_lookup n fuel h d cs op0 val0 :
  runs_alone n fuel h d cs → 100 ≤ update d →
  ∃ h' d' l' t,
    test n fuel h d op0 val0 = Ret (h', d', l', t) ∧
    Forall (λ e, tag e = 0 ∨ tag e = 1) t ∧
    nb_contains d' = nb_contains d ∧ nb_found d' = nb_found d ∧
    tagged 0 t + tagged 1 t = ops d.
Proof.
  intros Hok Hup. destruct (test_run n fuel h d cs op0 val0 Hok)
    as (h' & d' & l' & t & cs' & E & _ & _ & _ & F).
  destruct Hok as (_ & _ & _ & (? & ? & ? & ?) & _).
  destruct F as (_ & _ & Hlen & Hev & _ & _ & C & N & _).
  destruct (tagged_sum d t Hev) as [Hsum Hfound].
  assert (Forall (λ e, tag e = 0 ∨ tag e = 1) t) as Htags.
  { eapply Forall_impl; [exact Hev|]. intros e (He & _ & Hne).
    specialize (Hne Hup). destruct (made e) as [v b|v b|v b].
    - left. by destruct He.
    - right. by destruct He.
    - by destruct He. }
  assert (tagged 2 t = 0) as T2.
  { clear -Htags. induction t as [|e t IH]; [done|].
    apply Forall_cons in Htags as [Ht Htags]. simpl. rewrite (IH Htags).
    destruct Ht as [-> | ->]; done. }
  exists h', d', l', t. split; [done|]. split; [done|].
  rewrite C, N, T2. replace (found t) with 0 by lia.
  rewrite !Z.add_0_r, !Z.mod_small by lia. repeat split; lia.
Qed.

Lemma test_all_updates_no_lookup_witness :
  ∃ h' d' l' t,
    test 10 10 fresh_heap (worker (Seed 2 0 0) 3 10 100 0) 0 0 = Ret (h', d', l', t) ∧
    Forall (λ e, tag e = 0 ∨ tag e = 1) t ∧
    nb_contains d' = nb_contains (worker (Seed 2 0 0) 3 10 100 0) ∧
    nb_found d' = nb_found (worker (Seed 2 0 0) 3 10 100 0) ∧
    tagged 0 t + tagged 1 t = ops (worker (Seed 2 0 0) 3 10 100 0).
Proof.
  apply (test_all_updates_no_lookup 10 10 fresh_heap (worker (Seed 2 0 0) 3 10 100 0)
           cells_fresh 0 0).
  - exact runs_alone_updates.
  - simpl. lia.
Defined.

(** X13: in alternate mode a worker that runs alone removes only what it
    added: every [set_remove] it calls returns 1, and at the end [diff]
    has grown by one if a value is still outstanding in [last] and by
    nothing if not. *)
Theorem test_alternate_removes_succeed n fuel h d cs op0 val0 :
  runs_alone n fuel h d cs → alternate d ≠ 0 →
  ∃ h' d' l' t,
    test n fuel h d op0 val0 = Ret (h', d', l', t) ∧
    Forall (λ e, tag e = 1 → succeeded e = true) t ∧
    diff d' = diff d + (if 0 <=? last l' then 1 else 0).
Proof.
  intros Hok Halt. destruct (test_run n fuel h d cs op0 val0 Hok)
    as (h' & d' & l' & t & cs' & E & _ & _ & _ & F).
  destruct F as (_ & _ & _ & Hev & _ & _ & _ & _ & D & _ & _ & O).
  exists h', d', l', t. split; [done|]. split.
  - eapply Forall_impl; [exact Hev|]. intros e [He _] Ht. unfold succeeded.
    destruct (made e) as [v b|v b|v b].
    + destruct He as (He & _). lia.
    + destruct He as (_ & _ & _ & _ & He). by apply He.
    + destruct He as (He & _). lia.
  - specialize (O Halt). unfold outstanding in O. simpl in O. lia.
Qed.

Lemma test_alternate_removes_succeed_witness :
  ∃ h' d' l' t,
    test 10 10 fresh_heap (worker (Seed 2 0 0) 3 10 50 1) 0 0 = Ret (h', d', l', t) ∧
    Forall (λ e, tag e = 1 → succeeded e = true) t ∧
    diff d' = diff (worker (Seed 2 0 0) 3 10 50 1) + (if 0 <=? last l' then 1 else 0).
Proof.
  apply (test_alternate_removes_succeed 10 10 fresh_heap
           (worker (Seed 2 0 0) 3 10 50 1) cells_fresh 0 0).
  - exact runs_alone_worker.
  - simpl. lia.
Defined.

End WorkerAlone.

(** ** More on the random stream *)

Section RandomStreamMore.
Import SpecFloat Rand.

(** A mantissa of more than 53 digits is cut to 53: the result lies
    between the exact value with the cut digits cleared and the exact
    value plus one unit of the last digit kept. *)
Lemma binary_round_aux_cut sx m e :
  53 < Z.pos (digits2_pos m) →
  -1021 ≤ Z.pos (digits2_pos m) + e → Z.pos (digits2_pos m) + e ≤ 1023 →
  ∃ m2 e2,
    binary_round_aux prec emax sx (Z.pos m) e loc_Exact = S754_finite sx m2 e2 ∧
    e + Z.pos (digits2_pos m) - 53 ≤ e2 ≤ e + Z.pos (digits2_pos m) - 52 ∧
    Z.pos m / 2 ^ (Z.pos (digits2_pos m) - 53) * 2 ^ (Z.pos (digits2_pos m) - 53)
      ≤ Z.pos m2 * 2 ^ (e2 - e) ∧
    Z.pos m2 * 2 ^ (e2 - e) ≤ Z.pos m + 2 ^ (Z.pos (digits2_pos m) - 53).
Proof.
  set (d := Z.pos (digits2_pos m)). intros Hd Hlo Hhi.
  pose proof (digits2_pos_bounds m) as [Hm1 Hm2]. fold d in Hm1, Hm2.
  unfold binary_round_aux, shr_fexp. simpl Zdigits2. fold d.
  rewrite fexp_normal, shr_pos by lia.
  replace (d + e - 53 - e) with (d - 53) by lia.
  set (k := d - 53) in *.
  set (mrs := iter_pos shr_1 (Z.to_pos k) _).
  assert (shr_m mrs = Z.pos m / 2 ^ k) as Hmrs.
  { unfold mrs. rewrite iter_shr_1_m by (simpl; lia). simpl. f_equal. f_equal. lia. }
  assert (0 < 2 ^ k) as Hk by (apply Z.pow_pos_nonneg; lia).
  assert (2 ^ d = 2 ^ 53 * 2 ^ k) as Hd53.
  { rewrite <- Z.pow_add_r by lia. f_equal. lia. }
  assert (2 ^ (d - 1) = 2 ^ 52 * 2 ^ k) as Hd52.
  { rewrite <- Z.pow_add_r by lia. f_equal. lia. }
  assert (2 ^ 52 ≤ shr_m mrs < 2 ^ 53) as [Hlo1 Hhi1].
  { rewrite Hmrs. split.
    - apply Z.div_le_lower_bound; lia.
    - apply Z.div_lt_upper_bound; lia. }
  assert (shr_m mrs * 2 ^ k ≤ Z.pos m) as Hfloor.
  { rewrite Hmrs. rewrite Z.mul_comm. apply Z.mul_div_le. lia. }
  rewrite <- Hmrs.
  pose proof (round_nearest_even_bounds (shr_m mrs) (loc_of_shr_record mrs)) as [Hr1 Hr2].
  set (r := round_nearest_even _ _) in *.
  destruct r as [|pr|pr] eqn:Er; [lia| |lia].
  simpl Zdigits2.
  destruct (Z.eq_dec (Z.pos pr) (2 ^ 53)) as [Htop|Htop].
  - assert (pr = 9007199254740992%positive) as -> by (change (2 ^ 53) with 9007199254740992 in Htop; lia).
    change (Z.pos (digits2_pos 9007199254740992)) with 54.
    rewrite fexp_normal, shr_pos by lia.
    replace (54 + (e + k) - 53 - (e + k)) with 1 by lia.
    change (Z.to_pos 1) with 1%positive.
    change (shr_m (iter_pos shr_1 1 (shr_record_of_loc 9007199254740992 loc_Exact)))
      with 4503599627370496.
    unfold emax, prec.
    destruct (Z.leb_spec (e + k + 1) (1024 - 53)); [|lia].
    eexists _, _. split; [done|]. split; [lia|].
    replace (e + k + 1 - e) with (k + 1) by lia.
    rewrite Z.pow_add_r by lia. change (2 ^ 1) with 2.
    change (2 ^ 53) with 9007199254740992 in *. nia.
  - assert (Z.pos (digits2_pos pr) = 53) as ->.
    { apply digits2_pos_unique. change (53 - 1) with 52. lia. }
    rewrite fexp_normal, shr_nonpos by lia. simpl shr_m.
    unfold emax, prec.
    destruct (Z.leb_spec (e + k) (1024 - 53)); [|lia].
    exists pr, (e + k). split; [done|]. split; [lia|].
    replace (e + k - e) with k by lia. nia.
Qed.

Lemma digits_below (p : positive) k : Z.pos p < 2 ^ k → Z.pos (digits2_pos p) ≤ k.
Proof.
  intros H. pose proof (digits2_pos_bounds p) as [Hlo _].
  destruct (Z_le_gt_dec (Z.pos (digits2_pos p)) k); [done|].
  assert (2 ^ k ≤ 2 ^ (Z.pos (digits2_pos p) - 1)); [|lia].
  destruct (Z_lt_le_dec k 0); [rewrite Z.pow_neg_r in H by done; lia|].
  apply Z.pow_le_mono_r; lia.
Qed.

(** The product of a fraction [X / 2^48] and an [int] of magnitude [n],
    rounded to a double and truncated: the integer part of [X * n / 2^48],
    or what the rounding of the product, by a relative [2^-52] at most,
    lifts it to. *)
Lemma scaled_product_value (px pn : positive) (sn : bool) :
  Z.pos px < 2 ^ 48 → Z.pos pn ≤ 2 ^ 31 →
  ∃ v,
    double_to_int
      (SFmul prec emax (binary_normalize prec emax (Z.pos px) (-48) false)
                       (binary_round prec emax sn pn 0))
      = (if (INT_MIN <=? cond_Zopp sn v) && (cond_Zopp sn v <=? INT_MAX)
         then Some (cond_Zopp sn v) else None) ∧
    Z.pos px * Z.pos pn / 2 ^ 48 ≤ v ∧
    v * 2 ^ 100 ≤ Z.pos px * Z.pos pn * (2 ^ 52 + 1).
Proof.
  intros HX Hn.
  pose proof (digits_below px 48 HX) as Hdx.
  assert (Z.pos (digits2_pos pn) ≤ 32) as Hdn.
  { apply digits_below. change (2 ^ 32) with (2 * 2 ^ 31). lia. }
  set (dx := Z.pos (digits2_pos px)) in *. set (dn := Z.pos (digits2_pos pn)) in *.
  assert (0 < dx) as Hdx0 by (unfold dx; lia).
  assert (0 < dn) as Hdn0 by (unfold dn; lia).
  unfold binary_normalize.
  destruct (binary_round_normal false px (-48)) as (mx & -> & Hmx & Dmx); [fold dx; lia..|].
  destruct (binary_round_normal sn pn 0) as (my & -> & Hmy & Dmy); [fold dn; lia..|].
  fold dx in Hmx |- *. fold dn in Hmy |- *.
  unfold SFmul. simpl xorb.
  set (a := 53 - dx) in *. set (b := 53 - dn) in *.
  pose proof (digits2_pos_bounds mx) as [Bx1 Bx2]. rewrite Dmx in Bx1, Bx2.
  pose proof (digits2_pos_bounds my) as [By1 By2]. rewrite Dmy in By1, By2.
  change (53 - 1) with 52 in *.
  pose proof (digits2_pos_bounds (mx * my)) as [BP1 BP2].
  set (dP := Z.pos (digits2_pos (mx * my))) in *.
  rewrite Pos2Z.inj_mul in BP1, BP2.
  assert (2 ^ 104 ≤ Z.pos mx * Z.pos my < 2 ^ 106) as [HP1 HP2].
  { change (2 ^ 104) with (2 ^ 52 * 2 ^ 52). change (2 ^ 106) with (2 ^ 53 * 2 ^ 53).
    split; [apply Z.mul_le_mono_nonneg|apply Z.mul_lt_mono_nonneg]; lia. }
  assert (105 ≤ dP ≤ 106) as HdP.
  { split.
    - destruct (Z_lt_le_dec dP 105); [|done].
      assert (2 ^ dP ≤ 2 ^ 104) by (apply Z.pow_le_mono_r; lia). lia.
    - destruct (Z_lt_le_dec 106 dP); [|done].
      assert (2 ^ 106 ≤ 2 ^ (dP - 1)) by (apply Z.pow_le_mono_r; lia). lia. }
  destruct (binary_round_aux_cut sn (mx * my) (-48 - a + (0 - b)))
    as (m2 & e2 & -> & He2 & Hlower & Hupper); [fold dP; unfold a, b; lia..|].
  fold dP in He2, Hlower, Hupper. rewrite Pos2Z.inj_mul in Hlower, Hupper.
  set (E := -48 - a + (0 - b)) in *.
  assert (e2 < 0) as Hneg by (unfold E, a, b in *; lia).
  unfold double_to_int.
  rewrite Z.shiftl_div_pow2 by lia.
  set (v := Z.pos m2 / 2 ^ (- e2)).
  exists v. split; [done|].
  set (P := Z.pos px * Z.pos pn).
  set (S := 2 ^ a * 2 ^ b).
  assert (0 < 2 ^ a) as Ha by (apply Z.pow_pos_nonneg; unfold a; lia).
  assert (0 < 2 ^ b) as Hb by (apply Z.pow_pos_nonneg; unfold b; lia).
  assert (0 < S) as HS by (unfold S; lia).
  assert (Z.pos mx * Z.pos my = P * S) as HmP.
  { rewrite Hmx, Hmy. unfold P, S. ring. }
  rewrite HmP in *.
  assert (0 < 2 ^ (- e2)) as Hp by (apply Z.pow_pos_nonneg; lia).
  set (k := dP - 53) in *.
  assert (0 < 2 ^ k) as Hk by (apply Z.pow_pos_nonneg; unfold k; lia).
  set (q := 2 ^ (e2 - E - k)).
  assert (0 < q) as Hq by (apply Z.pow_pos_nonneg; lia).
  assert (2 ^ (e2 - E) = q * 2 ^ k) as Hsplit1.
  { unfold q. rewrite <- Z.pow_add_r by lia. f_equal. lia. }
  assert (2 ^ 48 * S = 2 ^ (- e2) * (q * 2 ^ k)) as Hsplit2.
  { unfold S, q. rewrite <- !Z.pow_add_r by (unfold a, b, k in *; lia).
    f_equal. unfold E. lia. }
  assert (0 ≤ P) as HP0 by (unfold P; lia).
  split.
  - (* the integer part is reached *)
    set (w := P / 2 ^ 48).
    assert (0 ≤ w) as Hw0 by (apply Z.div_pos; lia).
    assert (w * 2 ^ 48 ≤ P) as Hw.
    { unfold w. rewrite Z.mul_comm. apply Z.mul_div_le. lia. }
    apply Z.div_le_lower_bound; [done|].
    assert (w * 2 ^ (- e2) * q ≤ P * S / 2 ^ k) as H1.
    { apply Z.div_le_lower_bound; [done|].
      replace (2 ^ k * (w * 2 ^ (- e2) * q)) with (w * (2 ^ (- e2) * (q * 2 ^ k))) by ring.
      rewrite <- Hsplit2.
      replace (w * (2 ^ 48 * S)) with (w * 2 ^ 48 * S) by ring.
      apply Z.mul_le_mono_nonneg_r; lia. }
    rewrite Hsplit1 in Hlower.
    assert (P * S / 2 ^ k ≤ Z.pos m2 * q) as H2.
    { apply (Z.mul_le_mono_pos_r _ _ (2 ^ k)); [done|].
      replace (Z.pos m2 * q * 2 ^ k) with (Z.pos m2 * (q * 2 ^ k)) by ring.
      exact Hlower. }
    apply (Z.mul_le_mono_pos_r _ _ q); [done|].
    replace (2 ^ (- e2) * w * q) with (w * 2 ^ (- e2) * q) by ring. lia.
  - (* the rounding adds a relative 2^-52 at most *)
    assert (v * 2 ^ (- e2) ≤ Z.pos m2) as Hv.
    { unfold v. rewrite Z.mul_comm. apply Z.mul_div_le. lia. }
    assert (2 ^ k * 2 ^ 52 ≤ P * S) as Hulp.
    { replace (2 ^ k * 2 ^ 52) with (2 ^ (dP - 1)).
      - done.
      - rewrite <- Z.pow_add_r by (unfold k; lia). f_equal. unfold k. lia. }
    rewrite Hsplit1 in Hupper.
    assert (v * (2 ^ 48 * S) ≤ P * S + 2 ^ k) as H1.
    { rewrite Hsplit2.
      replace (v * (2 ^ (- e2) * (q * 2 ^ k))) with (v * 2 ^ (- e2) * (q * 2 ^ k)) by ring.
      eapply Z.le_trans; [|exact Hupper].
      apply Z.mul_le_mono_nonneg_r; lia. }
    apply (Z.mul_le_mono_pos_r _ _ S); [done|].
    change (2 ^ 100) with (2 ^ 48 * 2 ^ 52).
    replace (v * (2 ^ 48 * 2 ^ 52) * S) with (v * (2 ^ 48 * S) * 2 ^ 52) by ring.
    replace (P * (2 ^ 52 + 1) * S) with (P * S * 2 ^ 52 + P * S) by ring.
    assert (v * (2 ^ 48 * S) * 2 ^ 52 ≤ (P * S + 2 ^ k) * 2 ^ 52) as H2.
    { apply Z.mul_le_mono_nonneg_r; lia. }
    lia.
Qed.

Lemma state48_cases s :
  state48 (drand48_iterate s) = 0 ∨
  ∃ px, state48 (drand48_iterate s) = Z.pos px ∧ Z.pos px < 2 ^ 48.
Proof.
  pose proof (state48_range s) as [H0 H1].
  destruct (state48 (drand48_iterate s)) as [|px|px]; [by left| |lia].
  right. by exists px.
Qed.

(** X14: [rand_range] has no value to return for a bound that is not
    positive: for every [n] from [INT_MIN] to 0 and every generator state
    the product is cast to an [int] that is not positive, and the [assert]
    fails. *)
Theorem rand_range_nonpositive n s :
  INT_MIN ≤ n → n ≤ 0 → rand_range n s = Abort.
Proof.
  intros Hlo Hhi. unfold rand_range, erand48.
  destruct n as [|pn|pn]; [| lia |].
  - (* n = 0: the product is a zero *)
    unfold int_to_double.
    change (binary_normalize prec emax 0 0 false) with (S754_zero false).
    destruct (state48_cases s) as [->|(px & -> & HX)]; [done|].
    unfold binary_normalize.
    destruct (binary_round_normal false px (-48)) as (mx & -> & _);
      [pose proof (digits_below px 48 HX); lia..|]. done.
  - assert (Z.pos pn ≤ 2 ^ 31) as Hn by (unfold INT_MIN in Hlo; lia).
    unfold int_to_double. change (binary_normalize prec emax (Z.neg pn) 0 false)
      with (binary_round prec emax true pn 0).
    destruct (state48_cases s) as [->|(px & -> & HX)].
    + (* the generator state is zero *)
      assert (Z.pos (digits2_pos pn) ≤ 32) as Hdn.
      { apply digits_below. change (2 ^ 32) with (2 * 2 ^ 31). lia. }
      destruct (binary_round_normal true pn 0) as (my & -> & _); [lia..|]. done.
    + destruct (scaled_product_value px pn true HX Hn) as (v & -> & Hv1 & Hv2).
      assert (0 ≤ v).
      { eapply Z.le_trans; [|exact Hv1]. apply Z.div_pos; lia. }
      assert (v < 2 ^ 31).
      { assert (Z.pos px * Z.pos pn * (2 ^ 52 + 1) < 2 ^ 31 * 2 ^ 100); [|lia].
        change (2 ^ 100) with (2 ^ 48 * 2 ^ 52). nia. }
      simpl cond_Zopp. unfold INT_MIN, INT_MAX.
      destruct (Z.leb_spec (-2147483648) (- v)); [|lia].
      destruct (Z.leb_spec (- v) 2147483647); [|lia]. simpl.
      destruct (Z.leb_spec 0 (- v)); [|done]. simpl.
      destruct (Z.ltb_spec (- v) (Z.neg pn)); [lia|done].
Qed.

Lemma rand_range_nonpositive_witness : rand_range (-5) (Seed 2 0 0) = Abort.
Proof. apply (rand_range_nonpositive (-5) (Seed 2 0 0)); by vm_compute. Defined.

(** What [rand_range] returns, against the exact product [X * n]. *)
Lemma rand_range_product n s :
  0 < n → n ≤ INT_MAX →
  ∃ v,
    rand_range n s = Ret (v, drand48_iterate s) ∧ 0 ≤ v < n ∧
    state48 (drand48_iterate s) * n / 2 ^ 48 ≤ v ∧
    v * 2 ^ 100 ≤ state48 (drand48_iterate s) * n * (2 ^ 52 + 1).
Proof.
  intros Hn0 Hn. unfold rand_range, erand48.
  destruct n as [|pn|pn]; [lia| |lia].
  destruct (state48_cases s) as [->|(px & -> & HX)].
  - unfold int_to_double, binary_normalize.
    destruct (binary_round_normal false pn 0) as (my & -> & _);
      [pose proof (int_digits pn Hn); lia..|].
    exists 0. split; [done|]. split; [lia|done].
  - assert (Z.pos pn ≤ 2 ^ 31) as Hn' by (unfold INT_MAX in Hn; lia).
    unfold int_to_double.
    change (binary_normalize prec emax (Z.pos pn) 0 false)
      with (binary_round prec emax false pn 0).
    destruct (scaled_product_value px pn false HX Hn') as (v & -> & Hv1 & Hv2).
    set (P := Z.pos px * Z.pos pn) in *.
    assert (0 ≤ P) as HP0 by (unfold P; lia).
    assert (0 ≤ v).
    { eapply Z.le_trans; [|exact Hv1]. apply Z.div_pos; lia. }
    assert (v < Z.pos pn) as Hvn.
    { assert (P ≤ (2 ^ 48 - 1) * Z.pos pn) by (unfold P; nia).
      change (2 ^ 100) with (2 ^ 48 * 2 ^ 52) in Hv2. nia. }
    simpl cond_Zopp. unfold INT_MIN. unfold INT_MAX in *.
    destruct (Z.leb_spec (-2147483648) v); [|lia].
    destruct (Z.leb_spec v 2147483647); [|lia]. simpl.
    destruct (Z.leb_spec 0 v); [|lia].
    destruct (Z.ltb_spec v (Z.pos pn)); [|lia]. simpl.
    exists v. split; [done|]. split; [lia|]. split; done.
Qed.

(** X15: what [rand_range] returns. With [X] the 48-bit state after the
    step of the generator, the value is the integer part of
    [X * n / 2^48], or, when the product of the two doubles is rounded up
    across an integer, one more: it never exceeds the integer part of
    [X * n * (1 + 2^-52) / 2^48]. *)
Theorem rand_range_value n s :
  0 < n → n ≤ INT_MAX →
  ∃ v,
    rand_range n s = Ret (v, drand48_iterate s) ∧
    state48 (drand48_iterate s) * n / 2 ^ 48 ≤ v ∧
    v ≤ (state48 (drand48_iterate s) * n
         + state48 (drand48_iterate s) * n / 2 ^ 52) / 2 ^ 48.
Proof.
  intros Hn0 Hn.
  destruct (rand_range_product n s Hn0 Hn) as (v & E & Hv & Hv1 & Hv2).
  pose proof (state48_range s) as HX.
  set (P := state48 (drand48_iterate s) * n) in *.
  exists v. split; [done|]. split; [done|].
  assert (0 ≤ P) as HP0 by (unfold P; nia).
  assert (P < (P / 2 ^ 52 + 1) * 2 ^ 52) as Hr.
  { pose proof (Z.mul_succ_div_gt P (2 ^ 52)). lia. }
  apply Z.div_le_lower_bound; [lia|].
  change (2 ^ 100) with (2 ^ 48 * 2 ^ 52) in Hv2. nia.
Qed.

Lemma rand_range_value_witness :
  ∃ v,
    rand_range 100 (Seed 2 0 0) = Ret (v, drand48_iterate (Seed 2 0 0)) ∧
    state48 (drand48_iterate (Seed 2 0 0)) * 100 / 2 ^ 48 ≤ v ∧
    v ≤ (state48 (drand48_iterate (Seed 2 0 0)) * 100
         + state48 (drand48_iterate (Seed 2 0 0)) * 100 / 2 ^ 52) / 2 ^ 48.
Proof. apply (rand_range_value 100 (Seed 2 0 0)); by vm_compute. Defined.

Lemma ones_bit n i : 0 ≤ n → Z.testbit (Z.ones n) i = (0 <=? i) && (i <? n).
Proof.
  intros Hn. destruct (Z.leb_spec 0 i); [|by rewrite Z.testbit_neg_r by lia].
  destruct (Z.ltb_spec i n).
  - by rewrite Z.ones_spec_low by lia.
  - by rewrite Z.ones_spec_high by lia.
Qed.

Lemma word_bit r k i :
  0 ≤ k → 0 ≤ i →
  Z.testbit (Z.shiftl (Z.land (Z.shiftr r k) (Z.ones 16)) k) i
  = Z.testbit r i && (k <=? i) && (i <? k + 16).
Proof.
  intros Hk Hi. rewrite Z.shiftl_spec, Z.land_spec, ones_bit by lia.
  destruct (Z.leb_spec k i).
  - rewrite Z.shiftr_spec by lia. replace (i - k + k) with i by lia.
    destruct (Z.leb_spec 0 (i - k)); [|lia].
    destruct (Z.ltb_spec (i - k) 16), (Z.ltb_spec i (k + 16)); try lia;
      by destruct (Z.testbit r i).
  - rewrite (Z.testbit_neg_r _ (i - k)) by lia. simpl. by rewrite andb_false_r.
Qed.

(** The three words put together are the low 48 bits. *)
Lemma words_state r :
  Z.lor (Z.shiftl (Z.land (Z.shiftr r 32) 0xffff) 32)
        (Z.lor (Z.shiftl (Z.land (Z.shiftr r 16) 0xffff) 16) (Z.land r 0xffff))
  = r mod 2 ^ 48.
Proof.
  change 0xffff with (Z.ones 16). rewrite <- (Z.land_ones r 48) by lia.
  apply Z.bits_inj'. intros i Hi.
  rewrite !Z.lor_spec, !word_bit by lia.
  rewrite !Z.land_spec, !ones_bit by lia.
  destruct (Z.testbit r i); simpl; [|done].
  destruct (Z.leb_spec 32 i), (Z.leb_spec 16 i), (Z.leb_spec 0 i),
    (Z.ltb_spec i (32 + 16)), (Z.ltb_spec i (16 + 16)), (Z.ltb_spec i 16),
    (Z.ltb_spec i 48); simpl; try done; lia.
Qed.

(** The step of the generator is POSIX's congruence on the 48-bit state. *)
Lemma state48_step s :
  state48 (drand48_iterate s) = (state48 s * drand48_a + drand48_c) mod 2 ^ 48.
Proof.
  unfold drand48_iterate. set (r := (_ mod 2 ^ 64)).
  unfold state48 at 1. cbn [s0 s1 s2]. rewrite words_state. unfold r.
  apply Z.mod_mod_divide. exists (2 ^ 16). done.
Qed.

(** *** The period of the generator *)

Lemma iterate_state k s :
  state48 (Nat.iter k drand48_iterate (drand48_iterate s))
  = (state48 (drand48_iterate s)
     + geo k * ((drand48_a - 1) * state48 (drand48_iterate s) + drand48_c))
    mod 2 ^ 48.
Proof.
  set (x := state48 (drand48_iterate s)).
  induction k as [|k IH].
  - simpl. rewrite Z.add_0_r, Z.mod_small; [done|]. apply state48_range.
  - rewrite Nat.iter_succ. cbn [geo]. rewrite state48_step, IH.
    rewrite <- Z.add_mod_idemp_l, Z.mul_mod_idemp_l, Z.add_mod_idemp_l by lia.
    f_equal. ring.
Qed.

Lemma geo_add j k :
  geo (j + k) = geo j + drand48_a ^ Z.of_nat j * geo k.
Proof.
  induction j as [|j IH].
  - simpl. lia.
  - cbn [Nat.add geo]. rewrite IH, Nat2Z.inj_succ, Z.pow_succ_r by lia. ring.
Qed.

Lemma multiplier_power j : 0 ≤ j → ∃ q, drand48_a ^ j = 4 * q + 1.
Proof.
  intros Hj. pattern j. apply natlike_ind; [| |done].
  - exists 0. done.
  - intros i Hi (q & Hq). rewrite Z.pow_succ_r, Hq by done.
    exists (drand48_a * q + 6303725979). unfold drand48_a. lia.
Qed.

(** [geo (2^m)] is [2^m] times an odd number. *)
Lemma geo_pow2 (m : nat) :
  ∃ o, geo (Z.to_nat (2 ^ Z.of_nat m)) = 2 ^ Z.of_nat m * (2 * o + 1).
Proof.
  induction m as [|m (o & IH)].
  - exists 0. done.
  - rewrite Nat2Z.inj_succ, Z.pow_succ_r by lia.
    assert (0 < 2 ^ Z.of_nat m) as Hp by (apply Z.pow_pos_nonneg; lia).
    replace (2 * 2 ^ Z.of_nat m) with (2 ^ Z.of_nat m + 2 ^ Z.of_nat m) by lia.
    rewrite Z2Nat.inj_add, geo_add, IH, Z2Nat.id by lia.
    destruct (multiplier_power (2 ^ Z.of_nat m)) as (q & ->); [lia|].
    exists (2 * o * q + o + q). ring.
Qed.

(** Every residue modulo [2^m] is [geo k] times an odd number for some
    [k] below [2^m]. *)
Lemma geo_reaches (m : nat) u t :
  ∃ k, Z.of_nat k < 2 ^ Z.of_nat m ∧
       ∃ z, geo k * (2 * u + 1) - t = z * 2 ^ Z.of_nat m.
Proof.
  induction m as [|m (k & Hk & j & Hj)].
  - exists 0%nat. split; [done|]. exists (- t). simpl. lia.
  - rewrite Nat2Z.inj_succ, Z.pow_succ_r by lia.
    assert (0 < 2 ^ Z.of_nat m) as Hp by (apply Z.pow_pos_nonneg; lia).
    destruct (Z.Even_or_Odd j) as [[j' ->]|[j' ->]].
    + exists k. split; [lia|]. exists j'. rewrite Hj. ring.
    + exists (k + Z.to_nat (2 ^ Z.of_nat m))%nat. split.
      * rewrite Nat2Z.inj_add, Z2Nat.id by lia. lia.
      * destruct (geo_pow2 m) as (o & Ho).
        destruct (multiplier_power (Z.of_nat k)) as (q & Hq); [lia|].
        rewrite geo_add, Ho, Hq.
        exists (j' + 1 + (2 * q) * (2 * o + 1) * (2 * u + 1) + o * (2 * u + 1) + u).
        replace ((geo k + (4 * q + 1) * (2 ^ Z.of_nat m * (2 * o + 1))) * (2 * u + 1) - t)
          with (geo k * (2 * u + 1) - t
                + (4 * q + 1) * (2 * o + 1) * (2 * u + 1) * 2 ^ Z.of_nat m) by ring.
        rewrite Hj. ring.
Qed.

(** The generator has full period: from every state, every 48-bit state
    is the state after some number of steps between 1 and [2^48]. *)
Lemma state_reached s y :
  0 ≤ y < 2 ^ 48 →
  ∃ k, Z.of_nat k < 2 ^ 48 ∧
       state48 (Nat.iter k drand48_iterate (drand48_iterate s)) = y.
Proof.
  intros Hy. set (x := state48 (drand48_iterate s)).
  destruct (geo_reaches 48 (12607451958 * x + 5) (y - x)) as (k & Hk & z & Hz).
  exists k. split; [exact Hk|].
  rewrite iterate_state. fold x.
  replace ((drand48_a - 1) * x + drand48_c) with (2 * (12607451958 * x + 5) + 1)
    by (unfold drand48_a, drand48_c; lia).
  replace (x + geo k * (2 * (12607451958 * x + 5) + 1)) with (y + z * 2 ^ 48).
  - rewrite Z.mod_add by lia. by apply Z.mod_small.
  - change (Z.of_nat 48) with 48 in Hz. lia.
Qed.

End RandomStreamMore.

(** ** Populating the set *)

Section Populate.
Import IntSet Rand Stress.
Implicit Types (h : heap) (cs : list (loc * Z)) (X : gset Z).

Lemma rand_range_returns n s :
  0 < n → n ≤ INT_MAX →
  ∃ v, rand_range n s = Ret (v, drand48_iterate s) ∧ 0 ≤ v < n.
Proof.
  intros H0 H1. destruct (erand48_product n s H0 H1) as (v & E & Hv0 & Hv).
  exists v. split; [|done].
  unfold rand_range. unfold erand48 in *. cbn [fst] in E. rewrite E.
  destruct (Z.leb_spec 0 v); [|lia].
  destruct (Z.ltb_spec v n); [|lia]. done.
Qed.

#[local] Opaque drand48_iterate rand_range set_add.

(** The loop either runs out of iterations or returns with what it
    printed added to the set. *)
Lemma populate_loop_track h0 set fuel range initial n :
  0 < range < INT_MAX →
  ∀ h cs s i printed X,
    is_set h set cs → bounded (values cs) → owns h0 h cs → represents cs X →
    i ≤ initial → (length cs + Z.to_nat (initial - i) ≤ fuel)%nat →
    populate_loop n fuel h set s range initial i printed = OutOfFuel ∨
    ∃ h' s' p cs',
      populate_loop n fuel h set s range initial i printed
        = Ret (h', s', printed ++ p) ∧
      is_set h' set cs' ∧ bounded (values cs') ∧ owns h0 h' cs' ∧
      represents cs' (X ∪ list_to_set p) ∧ NoDup p ∧
      Forall (λ v, 1 ≤ v ≤ range ∧ v ∉ X) p ∧
      Z.of_nat (length p) = initial - i.
Proof.
  intros Hr. induction n as [|n IH]; intros h cs s i printed X Hset Hb Ho Hrep Hi Hf;
    [by left|].
  simpl populate_loop. destruct (Z.ltb_spec i initial) as [Hlt|Hge].
  - destruct (rand_range_returns range s) as (r & -> & Hr0); [lia..|]. simpl.
    destruct (apply_op_track h0 h set cs (Add (r + 1)) fuel X)
      as (h1 & cs1 & E1 & S1 & B1 & O1 & R1 & L1);
      [done|done|done|done|simpl; unfold VAL_MAX, INT_MAX in *; lia|lia|].
    simpl in E1, R1. rewrite E1. simpl.
    destruct (decide (r + 1 ∈ X)) as [Hin|Hnin].
    + rewrite bool_decide_eq_false_2 by tauto.
      assert (represents cs1 X) as R1'.
      { intros x. rewrite <- (R1 x). rewrite elem_of_union, elem_of_singleton.
        split; [tauto|]. intros [?| ->]; done. }
      pose proof (represents_size cs X Hb Hrep).
      pose proof (represents_size cs1 X B1 R1').
      apply (IH h1 cs1 _ i printed X); [done|done|done|done|done|lia].
    + rewrite bool_decide_eq_true_2 by done.
      destruct (IH h1 cs1 (drand48_iterate s) (i + 1) (printed ++ [r + 1])
                  (X ∪ {[r + 1]})) as [->|(h' & s' & p & cs' & E & S' & B' & O' & R' & N' & F' & L')];
        [done|done|done|done|lia|lia|by left|].
      right. exists h', s', ((r + 1) :: p), cs'.
      rewrite E, <- app_assoc. split; [done|]. split; [done|]. split; [done|].
      split; [done|]. split.
      { intros x. rewrite <- (R' x).
        rewrite list_to_set_cons, !elem_of_union, elem_of_singleton. tauto. }
      split.
      { constructor; [|done]. intros Hp. rewrite Forall_forall in F'.
        destruct (F' _ Hp) as [_ Hx]. apply Hx.
        rewrite elem_of_union, elem_of_singleton. tauto. }
      split; [|rewrite length_cons; lia].
      constructor; [split; [lia|done]|].
      eapply Forall_impl; [exact F'|]. intros v [? Hv]. split; [done|].
      intros ?. apply Hv. rewrite elem_of_union. tauto.
  - right. exists h, s, [], cs. rewrite app_nil_r. split; [done|].
    split; [done|]. split; [done|]. split; [done|]. split.
    { intros x. rewrite <- (Hrep x), list_to_set_nil, elem_of_union.
      split; [|tauto]. intros [?|Hx]; [done|]. by apply not_elem_of_empty in Hx. }
    split; [constructor|]. split; [constructor|]. simpl. lia.
Qed.

(** Distinct values of [1, range] number at most [range]. *)
Lemma NoDup_within (p : list Z) range :
  NoDup p → Forall (λ v, 1 ≤ v ≤ range) p → Z.of_nat (length p) ≤ Z.max 0 range.
Proof.
  intros Hnd Hp.
  assert (p ⊆+ seqZ 1 range) as Hsub.
  { apply NoDup_submseteq; [done|]. intros x Hx. rewrite Forall_forall in Hp.
    specialize (Hp x Hx). apply elem_of_seqZ. lia. }
  apply submseteq_length in Hsub. rewrite length_seqZ in Hsub. lia.
Qed.

Lemma populate_track h0 s range initial n fuel :
  0 < range < INT_MAX → 0 ≤ initial → (Z.to_nat initial + 2 ≤ fuel)%nat →
  populate n fuel h0 s range initial = OutOfFuel ∨
  ∃ h' s' p cs',
    populate n fuel h0 s range initial = Ret (h', s', p) ∧
    is_set h' (set_new h0).2 cs' ∧ bounded (values cs') ∧ owns h0 h' cs' ∧
    represents cs' (list_to_set p) ∧ NoDup p ∧
    Forall (λ v, 1 ≤ v ≤ range) p ∧ Z.of_nat (length p) = initial.
Proof.
  intros Hr Hi Hf. unfold populate.
  destruct (fresh_owns h0) as (l0 & lm & Hset & Hown).
  assert (bounded (values [(l0, VAL_MIN); (lm, VAL_MAX)])) as Hb.
  { split; [|done]. simpl. repeat constructor. }
  destruct (populate_loop_track h0 (set_new h0).2 fuel range initial n Hr
              (set_new h0).1 _ s 0 [] ∅ Hset Hb Hown (fresh_represents l0 lm))
    as [->|(h' & s' & p & cs' & E & S' & B' & O' & R' & N' & F' & L')];
    [lia|simpl; lia|by left|].
  right. exists h', s', p, cs'. simpl in E. split; [done|]. split; [done|].
  split; [done|]. split; [done|]. split.
  { intros x. rewrite <- (R' x), elem_of_union. split; [tauto|].
    intros [Hx|?]; [|done]. by apply not_elem_of_empty in Hx. }
  split; [done|]. split; [|lia].
  eapply Forall_impl; [exact F'|]. by intros v [? _].
Qed.

(** From every state of the generator, every value of [0, n) is drawn
    within [2^48] draws. *)
Lemma draw_hits n w s :
  0 < n → n ≤ INT_MAX → 0 ≤ w < n →
  ∃ k, Z.of_nat k < 2 ^ 48 ∧
       rand_range n (Nat.iter k drand48_iterate s)
         = Ret (w, drand48_iterate (Nat.iter k drand48_iterate s)).
Proof.
  intros Hn0 Hn Hw. unfold INT_MAX in Hn.
  set (T := w * 2 ^ 48 + n - 1).
  set (y := T / n).
  assert (y * n ≤ T) as Hy1 by (unfold y; rewrite Z.mul_comm; apply Z.mul_div_le; lia).
  assert (T < y * n + n) as Hy2.
  { pose proof (Z.mul_succ_div_gt T n Hn0). fold y in H. lia. }
  assert (0 ≤ y < 2 ^ 48) as Hy.
  { split; [apply Z.div_pos; unfold T; lia|].
    apply Z.div_lt_upper_bound; [done|]. unfold T. nia. }
  destruct (state_reached s y Hy) as (k & Hk & Hst).
  rewrite <- Nat.iter_succ_r, Nat.iter_succ in Hst.
  exists k. split; [done|].
  destruct (rand_range_product n (Nat.iter k drand48_iterate s) Hn0)
    as (v & -> & Hv & Hv1 & Hv2); [unfold INT_MAX; lia|].
  rewrite Hst in Hv1, Hv2.
  assert (w ≤ v) as Hlo.
  { eapply Z.le_trans; [|exact Hv1]. apply Z.div_le_lower_bound; [lia|].
    unfold T in *. lia. }
  assert (v < w + 1) as Hhi.
  { assert (y * n * (2 ^ 52 + 1) < (w + 1) * 2 ^ 100); [|nia].
    assert (y * n ≤ w * 2 ^ 48 + 2 ^ 31) by (unfold T in *; lia).
    change (2 ^ 100) with (2 ^ 48 * 2 ^ 52). nia. }
  do 2 f_equal. lia.
Qed.

(** A set of fewer than [range] values of [1, range] misses one. *)
Lemma absent_value X range :
  (∀ x, x ∈ X → 1 ≤ x ≤ range) → Z.of_nat (size X) < range →
  ∃ w, 1 ≤ w ≤ range ∧ w ∉ X.
Proof.
  intros HX Hsize.
  destruct (decide (Exists (λ w, w ∉ X) (seqZ 1 range))) as [He|Hne].
  - apply Exists_exists in He as (w & Hw & Hnin). exists w. split; [|done].
    apply elem_of_seqZ in Hw. lia.
  - exfalso. apply not_Exists_Forall in Hne; [|apply _].
    assert (list_to_set (seqZ 1 range) ⊆ X) as Hsub.
    { intros w Hw. apply elem_of_list_to_set in Hw.
      rewrite Forall_forall in Hne. specialize (Hne w Hw). simpl in Hne.
      by destruct (decide (w ∈ X)). }
    apply subseteq_size in Hsub.
    rewrite size_list_to_set, length_seqZ in Hsub by apply NoDup_seqZ. lia.
Qed.

(** One iteration of the loop. *)
Lemma populate_loop_step h0 set fuel range initial n h cs s i printed X :
  0 < range < INT_MAX →
  is_set h set cs → bounded (values cs) → owns h0 h cs → represents cs X →
  (length cs ≤ fuel)%nat → i < initial →
  ∃ v h1 cs1,
    rand_range range s = Ret (v - 1, drand48_iterate s) ∧ 1 ≤ v ≤ range ∧
    is_set h1 set cs1 ∧ bounded (values cs1) ∧ owns h0 h1 cs1 ∧
    represents cs1 (X ∪ {[v]}) ∧
    (v ∈ X → length cs1 = length cs) ∧ (length cs1 ≤ S (length cs))%nat ∧
    populate_loop (S n) fuel h set s range initial i printed
      = if decide (v ∈ X)
        then populate_loop n fuel h1 set (drand48_iterate s) range initial i printed
        else populate_loop n fuel h1 set (drand48_iterate s) range initial (i + 1)
               (printed ++ [v]).
Proof.
  intros Hr Hset Hb Ho Hrep Hf Hi.
  destruct (rand_range_returns range s) as (r & E & Hr0); [lia..|].
  destruct (apply_op_track h0 h set cs (Add (r + 1)) fuel X)
    as (h1 & cs1 & E1 & S1 & B1 & O1 & R1 & L1);
    [done|done|done|done|simpl; unfold VAL_MAX, INT_MAX in *; lia|lia|].
  simpl in E1, R1.
  exists (r + 1), h1, cs1. replace (r + 1 - 1) with r by lia.
  split; [done|]. split; [lia|]. split; [done|]. split; [done|].
  split; [done|]. split; [done|]. split; [|split; [done|]].
  - intros Hin.
    assert (represents cs1 X) as R1'.
    { intros x. rewrite <- (R1 x). rewrite elem_of_union, elem_of_singleton.
      split; [tauto|]. intros [?| ->]; done. }
    pose proof (represents_size cs X Hb Hrep).
    pose proof (represents_size cs1 X B1 R1'). lia.
  - simpl populate_loop. destruct (Z.ltb_spec i initial); [|lia].
    rewrite E. simpl. rewrite E1. simpl.
    destruct (decide (r + 1 ∈ X)).
    + by rewrite bool_decide_eq_false_2 by tauto.
    + by rewrite bool_decide_eq_true_2.
Qed.

(** With [r] values still to add and as many absent from the set, the
    loop ends within [r * 2^48] iterations. *)
Lemma populate_loop_ends h0 set fuel range initial (r : nat) :
  0 < range < INT_MAX →
  ∀ n h cs s i printed X,
    is_set h set cs → bounded (values cs) → owns h0 h cs → represents cs X →
    (∀ x, x ∈ X → 1 ≤ x ≤ range) →
    Z.of_nat (size X) + Z.of_nat r ≤ range →
    initial - i = Z.of_nat r → (length cs + r ≤ fuel)%nat →
    Z.of_nat r * 2 ^ 48 < Z.of_nat n →
    populate_loop n fuel h set s range initial i printed ≠ OutOfFuel.
Proof.
  intros Hr. induction r as [|r IHr];
    intros n h cs s i printed X Hset Hb Ho Hrep HX Hsize Hi Hf Hn.
  - destruct n as [|n]; [lia|]. simpl populate_loop.
    destruct (Z.ltb_spec i initial); [lia|done].
  - destruct (absent_value X range HX) as (w & Hw & Hnin); [lia|].
    destruct (draw_hits range (w - 1) s) as (k & Hk & Hdraw);
      [lia|lia|lia|].
    assert (Z.of_nat k + 1 + Z.of_nat r * 2 ^ 48 < Z.of_nat n) as Hn' by lia.
    assert (i < initial) as Hlt by lia.
    assert (∀ v h1 cs1 n1 s1 printed1,
              1 ≤ v ≤ range → v ∉ X → is_set h1 set cs1 → bounded (values cs1) →
              owns h0 h1 cs1 → represents cs1 (X ∪ {[v]}) →
              (length cs1 + r ≤ fuel)%nat → Z.of_nat r * 2 ^ 48 < Z.of_nat n1 →
              populate_loop n1 fuel h1 set s1 range initial (i + 1) printed1
                ≠ OutOfFuel) as Hnext.
    { intros v h1 cs1 n1 s1 printed1 Hv Hout S1 B1 O1 R1 L1 Hn1.
      apply (IHr n1 h1 cs1 s1 (i + 1) printed1 (X ∪ {[v]})); try done.
      - intros x [Hx| ->%elem_of_singleton]%elem_of_union; [by apply HX|done].
      - rewrite size_union, size_singleton by (by apply disjoint_singleton_r). lia.
      - lia. }
    clear Hn Hk IHr. revert n h cs s printed Hset Hb Ho Hrep Hf Hdraw Hn'.
    induction k as [|k IHk]; intros n h cs s printed Hset Hb Ho Hrep Hf Hdraw Hn.
    + destruct n as [|n]; [lia|].
      destruct (populate_loop_step h0 set fuel range initial n h cs s i printed X)
        as (v & h1 & cs1 & E & Hv & S1 & B1 & O1 & R1 & Lin & L1 & ->);
        [done|done|done|done|done|lia|done|].
      simpl in Hdraw. rewrite E in Hdraw. simplify_eq.
      replace v with w by lia. rewrite decide_False by done.
      replace v with w in R1 by lia. apply (Hnext w h1 cs1); try done; lia.
    + destruct n as [|n]; [lia|].
      destruct (populate_loop_step h0 set fuel range initial n h cs s i printed X)
        as (v & h1 & cs1 & E & Hv & S1 & B1 & O1 & R1 & Lin & L1 & ->);
        [done|done|done|done|done|lia|done|].
      destruct (decide (v ∈ X)) as [Hin|Hout].
      * apply (IHk n h1 cs1 (drand48_iterate s) printed); try done.
        -- intros x. rewrite <- (R1 x). rewrite elem_of_union, elem_of_singleton.
           split; [tauto|]. intros [?| ->]; done.
        -- rewrite (Lin Hin). lia.
        -- by rewrite <- Nat.iter_succ_r.
        -- lia.
      * apply (Hnext v h1 cs1); try done; lia.
Qed.

(** With [initial] at most [range] and [initial * 2^48] iterations, the
    loop returns. *)
Lemma populate_returns h0 s range initial n fuel :
  0 < range < INT_MAX → 0 ≤ initial ≤ range →
  (Z.to_nat initial + 2 ≤ fuel)%nat → initial * 2 ^ 48 < Z.of_nat n →
  ∃ h' s' p cs',
    populate n fuel h0 s range initial = Ret (h', s', p) ∧
    is_set h' (set_new h0).2 cs' ∧ bounded (values cs') ∧
    represents cs' (list_to_set p) ∧ NoDup p ∧
    Forall (λ v, 1 ≤ v ≤ range) p ∧ Z.of_nat (length p) = initial.
Proof.
  intros Hr Hi Hf Hn.
  destruct (populate_track h0 s range initial n fuel Hr)
    as [E|(h' & s' & p & cs' & E & S' & B' & _ & R' & N' & F' & L')]; [lia|done| |].
  - exfalso. revert E. unfold populate.
    destruct (fresh_owns h0) as (l0 & lm & Hset & Hown).
    apply (populate_loop_ends h0 _ fuel range initial (Z.to_nat initial) Hr
             n _ _ s 0 [] ∅ Hset); try done.
    + split; [|done]. simpl. repeat constructor.
    + apply fresh_represents.
    + rewrite size_empty. lia.
    + lia.
    + simpl. lia.
    + lia.
  - by exists h', s', p, cs'.
Qed.

(** X16: the loop of [main] that populates the set ends for every state
    of the generator when [initial] is at most [range], as [main] asserts:
    the generator has full period, so that each value of [1, range] comes
    up within [2^48] draws, and [initial * 2^48] iterations suffice. It
    has then printed [initial] distinct values of [1, range], which are
    the values of the set and no other, and the [set_size] that follows
    returns [initial]. *)
Theorem populate_ends h0 s range initial n fuel :
  0 < range < INT_MAX → 0 ≤ initial ≤ range →
  (Z.to_nat initial + 2 ≤ fuel)%nat → initial * 2 ^ 48 < Z.of_nat n →
  ∃ h' s' p,
    populate n fuel h0 s range initial = Ret (h', s', p) ∧
    Z.of_nat (length p) = initial ∧ NoDup p ∧ Forall (λ v, 1 ≤ v ≤ range) p ∧
    set_size fuel h' (set_new h0).2 = Ret initial ∧
    ∀ v, v < VAL_MAX →
      set_contains fuel h' (set_new h0).2 v = Ret (bool_decide (v ∈ p)).
Proof.
  intros Hr Hi Hf Hn.
  destruct (populate_returns h0 s range initial n fuel Hr Hi Hf Hn)
    as (h' & s' & p & cs' & E & S' & B' & R' & N' & F' & L').
  exists h', s', p. repeat (split; [done|]).
  pose proof (represents_size cs' _ B' R') as Hsize.
  rewrite size_list_to_set in Hsize by done.
  split.
  - rewrite (set_size_length h' _ cs' fuel) by (done || lia). f_equal. lia.
  - intros v Hv. rewrite (set_contains_member h' _ cs') by (done || lia).
    f_equal. apply bool_decide_ext.
    rewrite <- (elem_of_list_to_set (C := gset Z) v p), (R' v).
    split; [|tauto]. intros Hin. split; [done|lia].
Qed.

Lemma populate_ends_witness :
  ∃ h' s' p,
    populate (Z.to_nat 1125899906842624) 10 ∅ (Seed 2 0 0) 10 2 = Ret (h', s', p) ∧
    Z.of_nat (length p) = 2 ∧ NoDup p ∧ Forall (λ v, 1 ≤ v ≤ 10) p ∧
    set_size 10 h' (set_new ∅).2 = Ret 2 ∧
    ∀ v, v < VAL_MAX →
      set_contains 10 h' (set_new ∅).2 v = Ret (bool_decide (v ∈ p)).
Proof.
  apply (populate_ends ∅ (Seed 2 0 0) 10 2 (Z.to_nat 1125899906842624) 10).
  - unfold INT_MAX. lia.
  - lia.
  - change (Z.to_nat 2) with 2%nat. lia.
  - rewrite Z2Nat.id by lia. lia.
Defined.

(** X17: when [initial] exceeds [range] the loop that populates the set
    never ends, however many iterations it is given: the values of
    [1, range] run out before [i] reaches [initial]. It is the [assert]
    [range >= initial] of [main] that rules this out. *)
Theorem populate_stuck_beyond_range h0 s range initial n fuel :
  0 < range < INT_MAX → range < initial → (Z.to_nat initial + 2 ≤ fuel)%nat →
  populate n fuel h0 s range initial = OutOfFuel.
Proof.
  intros Hr Hi Hf.
  destruct (populate_track h0 s range initial n fuel Hr)
    as [->|(h' & s' & p & cs' & E & _ & _ & _ & _ & N' & F' & L')]; [lia|done|done|].
  pose proof (NoDup_within p range N' F'). lia.
Qed.

Lemma populate_stuck_beyond_range_witness :
  populate 20 10 ∅ (Seed 2 0 0) 1 2 = OutOfFuel.
Proof.
  apply (populate_stuck_beyond_range ∅ (Seed 2 0 0) 1 2 20 10).
  - unfold INT_MAX. lia.
  - lia.
  - simpl. lia.
Defined.

(** X18: with one worker the check [main] ends on passes. For every pair
    of seeds, [initial] positive and at most [range], and [ops] that is not
    negative: the set is populated, [size = set_size(set)] is [initial],
    the loop of [test] returns for the thread data [main] prepares, and
    the [set_size] of the report is [size] plus the [diff] of the worker,
    so that [ret] is 0. *)
Theorem single_worker_check_passes h0 main_seed seed ops range initial update alternate
    n fuel op0 val0 :
  0 < range < INT_MAX → 0 < initial ≤ range → 0 ≤ ops ≤ INT_MAX →
  (Z.to_nat initial + Z.to_nat ops + 2 ≤ fuel)%nat →
  initial * 2 ^ 48 < Z.of_nat n → ops < Z.of_nat n →
  ∃ h1 s1 p h2 d l t size,
    populate n fuel h0 main_seed range initial = Ret (h1, s1, p) ∧
    set_size fuel h1 (set_new h0).2 = Ret size ∧
    test n fuel h1 (thread_data (set_new h0).2 seed ops range update alternate)
      op0 val0 = Ret (h2, d, l, t) ∧
    set_size fuel h2 (set_new h0).2 = Ret (size + diff d).
Proof.
  intros Hr Hi Hops Hf Hn Hn'.
  destruct (populate_returns h0 main_seed range initial n fuel Hr)
    as (h1 & s1 & p & cs1 & E1 & S1 & B1 & R1 & N1 & F1 & L1); [lia|lia|done|].
  pose proof (represents_size cs1 _ B1 R1) as Hsize.
  rewrite size_list_to_set in Hsize by done.
  set (d0 := thread_data (set_new h0).2 seed ops range update alternate).
  assert (runs_alone n fuel h1 d0 cs1) as Hal.
  { split; [done|]. split; [done|]. split; [done|].
    unfold counters_ok. simpl. unfold INT_MIN, INT_MAX in *. repeat split; lia. }
  destruct (test_run n fuel h1 d0 cs1 op0 val0 Hal)
    as (h2 & d & l & t & cs2 & E2 & S2 & B2 & _ & F2).
  destruct F2 as (_ & _ & Hlen & _ & _ & _ & _ & _ & D & L & _).
  pose proof (net_bound t) as Hnet. simpl in D, Hlen.
  exists h1, s1, p, h2, d, l, t, initial.
  split; [done|]. split.
  { rewrite (set_size_length h1 _ cs1 fuel) by (done || lia). f_equal. lia. }
  split; [done|].
  rewrite (set_size_length h2 _ cs2 fuel) by (done || lia). f_equal. lia.
Qed.

Lemma single_worker_check_passes_witness :
  ∃ h1 s1 p h2 d l t size,
    populate (Z.to_nat 1125899906842624) 10 ∅ (Seed 2 0 0) 10 2 = Ret (h1, s1, p) ∧
    set_size 10 h1 (set_new ∅).2 = Ret size ∧
    test (Z.to_nat 1125899906842624) 10 h1
      (thread_data (set_new ∅).2 (Seed 3 0 0) 3 10 50 1) 0 0 = Ret (h2, d, l, t) ∧
    set_size 10 h2 (set_new ∅).2 = Ret (size + diff d).
Proof.
  apply (single_worker_check_passes ∅ (Seed 2 0 0) (Seed 3 0 0) 3 10 2 50 1
           (Z.to_nat 1125899906842624) 10 0 0).
  - unfold INT_MAX. lia.
  - lia.
  - unfold INT_MAX. lia.
  - change (Z.to_nat 2) with 2%nat. change (Z.to_nat 3) with 3%nat. lia.
  - rewrite Z2Nat.id by lia. lia.
  - rewrite Z2Nat.id by lia. lia.
Defined.

Lemma barrier_init_loop_spec nb_threads size (k : nat) : ∀ n i b,
  size - i = Z.of_nat k → (k < n)%nat →
  barrier_init_loop n i size nb_threads b
    = Ret (if decide (k = 0%nat) then b
           else Some (Barrier.barrier_init (nb_threads + 1))).
Proof.
  induction k as [|k IH]; intros n i b Hk Hn; (destruct n as [|n]; [lia|]);
    simpl barrier_init_loop.
  - destruct (Z.ltb_spec i size); [lia|done].
  - destruct (Z.ltb_spec i size); [|lia].
    rewrite (IH n (i + 1)) by lia. by destruct (decide (k = 0%nat)).
Qed.

(** X19: [main] initialises the barrier only when it has populated the
    set. The [for] over [size] has [barrier_init] for its body: with
    [initial] at zero the set stays empty, [size] is zero and the barrier
    the threads then cross was never initialised; with [initial] positive
    it is initialised, [initial] times over, for [nb_threads + 1]
    threads. *)
Theorem main_setup_barrier h0 main_seed range initial nb_threads n fuel :
  0 < range < INT_MAX → 0 ≤ initial ≤ range →
  (Z.to_nat initial + 2 ≤ fuel)%nat → initial * 2 ^ 48 < Z.of_nat n →
  ∃ h',
    main_setup n fuel h0 main_seed range initial nb_threads
      = Ret (h', (set_new h0).2, initial,
             if decide (initial = 0) then None
             else Some (Barrier.barrier_init (nb_threads + 1))).
Proof.
  intros Hr Hi Hf Hn.
  destruct (populate_returns h0 main_seed range initial n fuel Hr Hi Hf Hn)
    as (h1 & s1 & p & cs1 & E1 & S1 & B1 & R1 & N1 & F1 & L1).
  pose proof (represents_size cs1 _ B1 R1) as Hsize.
  rewrite size_list_to_set in Hsize by done.
  exists h1. unfold main_setup. rewrite E1. simpl.
  rewrite (set_size_length h1 _ cs1 fuel) by (done || lia). simpl.
  replace (Z.of_nat (length cs1) - 2) with initial by lia.
  rewrite (barrier_init_loop_spec nb_threads initial (Z.to_nat initial)) by lia.
  simpl. do 2 f_equal. destruct (decide (initial = 0)) as [->|Hne]; [done|].
  rewrite decide_False by lia. done.
Qed.

Lemma main_setup_barrier_witness :
  ∃ h',
    main_setup 1 2 ∅ (Seed 2 0 0) 10 0 1
      = Ret (h', (set_new ∅).2, 0,
             if decide (0 = 0) then None
             else Some (Barrier.barrier_init (1 + 1))).
Proof.
  apply (main_setup_barrier ∅ (Seed 2 0 0) 10 0 1 1 2).
  - unfold INT_MAX. lia.
  - lia.
  - simpl. lia.
  - simpl. lia.
Defined.

End Populate.

(** ** More on the barrier *)

Section BarrierCensus.
Import Barrier.

Ltac other t u :=
  destruct (decide (u = t)) as [->|];
  [rewrite ?upd_eq | rewrite ?upd_ne by done].

Lemma inside_bounds N p : 0 ≤ inside N p ≤ Z.of_nat N.
Proof.
  induction N as [|N IH]; simpl inside; [lia|].
  assert (0 ≤ counted (p N) ≤ 1) by (destruct (p N); simpl; lia). lia.
Qed.

Lemma inside_upd_out N p t q : (N ≤ t)%nat → inside N (upd p t q) = inside N p.
Proof.
  induction N as [|N IH]; intros Ht; simpl; [done|].
  rewrite upd_ne by lia. rewrite IH by lia. done.
Qed.

Lemma inside_upd N p t q :
  (t < N)%nat → inside N (upd p t q) = inside N p - counted (p t) + counted q.
Proof.
  induction N as [|N IH]; intros Ht; [lia|]. simpl.
  destruct (decide (t = N)) as [->|Hne].
  - rewrite upd_eq, inside_upd_out by lia. lia.
  - rewrite upd_ne by lia. rewrite IH by lia. lia.
Qed.

Lemma inside_none N p : (∀ u, (u < N)%nat → counted (p u) = 0) → inside N p = 0.
Proof.
  induction N as [|N IH]; intros H; simpl; [done|].
  rewrite H by lia. rewrite IH; [done|]. intros u Hu. apply H. lia.
Qed.


Lemma census_init N n : census N (barrier_init n).
Proof.
  split; [done|]. unfold expected. simpl. by apply inside_none.
Qed.

Lemma census_step n N t s s' :
  inv n s → census N s → (t < N)%nat → step t s = Some s' → census N s'.
Proof.
  intros [Hc Ho Ht Hr Hrel] [Hout Hin] HtN Hstep. unfold step in Hstep.
  pose proof (Ho t) as Hot. unfold expected in Hin.
  assert (∀ p, ∀ u, (N ≤ u)%nat → upd (pcs s) t p u = Outside) as Hout'.
  { intros p u Hu. rewrite upd_ne by lia. by apply Hout. }
  destruct (pcs s t) eqn:Ep; simpl in Hot.
  - destruct (mutex s) as [o|] eqn:Em; [done|]. simplify_eq.
    split; simpl; [apply Hout'|]. unfold expected. simpl.
    rewrite upd_eq, inside_upd, Ep by done. simpl. lia.
  - simplify_eq. assert (mutex s = Some t) as Em by (by apply Hot).
    rewrite Em, Ep in Hin.
    split; simpl; [apply Hout'|]. unfold expected. simpl.
    rewrite Em, upd_eq, inside_upd, Ep by done. simpl. lia.
  - simplify_eq. assert (mutex s = Some t) as Em by (by apply Hot).
    rewrite Em, Ep in Hin.
    split; simpl; [apply Hout'|]. unfold expected. simpl.
    rewrite Em, upd_eq, inside_upd, Ep by done.
    destruct (crossing s <? count s); simpl; lia.
  - simplify_eq. assert (mutex s = Some t) as Em by (by apply Hot).
    rewrite Em, Ep in Hin.
    split; simpl; [apply Hout'|]. unfold expected. simpl.
    rewrite inside_upd, Ep by done. simpl. lia.
  - done.
  - destruct (mutex s) as [o|] eqn:Em; [done|]. simplify_eq.
    split; simpl; [apply Hout'|]. unfold expected. simpl.
    rewrite upd_eq, inside_upd, Ep by done. simpl. lia.
  - simplify_eq. assert (mutex s = Some t) as Em by (by apply Hot).
    split; simpl.
    + intros u Hu. rewrite upd_ne by lia. unfold wake_all. by rewrite Hout.
    + unfold expected. simpl. rewrite Em, upd_eq.
      apply inside_none. intros u Hu. other t u; [done|].
      unfold wake_all. pose proof (Ho u) as Hou.
      destruct (pcs s u); simpl in *; try done;
        (assert (Some t = Some u) as Heq by (rewrite <- Em; by apply Hou));
        congruence.
  - simplify_eq. assert (mutex s = Some t) as Em by (by apply Hot).
    rewrite Em, Ep in Hin.
    split; simpl; [apply Hout'|]. unfold expected. simpl.
    rewrite Em, upd_eq, inside_upd, Ep by done. simpl. lia.
  - simplify_eq. assert (mutex s = Some t) as Em by (by apply Hot).
    rewrite Em, Ep in Hin.
    split; simpl; [apply Hout'|]. unfold expected. simpl.
    rewrite inside_upd, Ep by done. simpl. lia.
Qed.






Lemma no_broadcast_step n N t s s' :
  Z.of_nat N < n → inv n s → census N s → no_broadcast s → (t < N)%nat →
  step t s = Some s' → no_broadcast s'.
Proof.
  intros HN [Hc Ho Ht Hr Hrel] [Hout Hin] [Hr0 Hnb] HtN Hstep.
  unfold step in Hstep. pose proof (Ho t) as Hot. unfold expected in Hin.
  pose proof (inside_bounds N (pcs s)) as Hb.
  pose proof (Hnb t) as [_ Hpt].
  destruct (pcs s t) eqn:Ep; simpl in Hot; try done.
  - destruct (mutex s) as [o|] eqn:Em; [done|]. simplify_eq.
    split; simpl; [done|]. intros u. destruct (Hnb u) as [Hu1 Hu2].
    split; [done|]. other t u; done.
  - simplify_eq. split; simpl; [done|]. intros u. destruct (Hnb u) as [Hu1 Hu2].
    split; [done|]. other t u; done.
  - simplify_eq. assert (mutex s = Some t) as Em by (by apply Hot).
    rewrite Em, Ep in Hin.
    split; simpl; [done|]. intros u. destruct (Hnb u) as [Hu1 Hu2].
    split; [done|]. other t u; [|done].
    destruct (Z.ltb_spec (crossing s) (count s)); [done|lia].
  - simplify_eq. split; simpl; [done|]. intros u. destruct (Hnb u) as [Hu1 Hu2].
    split; [done|]. other t u; done.
Qed.

(** X22: a barrier for [n] threads holds back fewer than [n] as long as
    no wait ends spuriously: when only [N] threads call [barrier_cross],
    with [N] below [n], and every action is a statement of one of them,
    there is no broadcast, no thread is signalled and none returns. *)
Theorem barrier_holds_back n N acts s :
  1 ≤ n → Z.of_nat N < n →
  Forall (λ a, match a with Run t => (t < N)%nat | Spurious _ => False end) acts →
  perform acts (barrier_init n) = Some s →
  rounds s = 0 ∧ ∀ t, returned s t = 0 ∧ pcs s t ≠ Woken.
Proof.
  intros Hn HN Hts.
  assert (∀ s0, inv n s0 → census N s0 → no_broadcast s0 →
                perform acts s0 = Some s → no_broadcast s) as Hind.
  { induction acts as [|a acts IH]; intros s0 Hinv Hcen Hnb Hex; simpl in Hex.
    - by simplify_eq.
    - apply Forall_cons in Hts as [Ht Hts']. destruct a as [t|t]; [|done].
      simpl in Hex. destruct (step t s0) as [s1|] eqn:E; [|done].
      apply (IH Hts' s1); [by eapply inv_step|by eapply census_step| |done].
      by eapply no_broadcast_step. }
  intros Hex. destruct (Hind (barrier_init n)) as [Hr Hnb];
    [by apply inv_init|apply census_init|by split|done|].
  split; [done|]. intros t. destruct (Hnb t) as [H1 H2]. split; [done|].
  intros E. by rewrite E in H2.
Qed.

Lemma barrier_holds_back_witness :
  rounds alone_blocked = 0 ∧
  ∀ t, returned alone_blocked t = 0 ∧ pcs alone_blocked t ≠ Woken.
Proof.
  apply (barrier_holds_back 2 1 [Run 0; Run 0; Run 0; Run 0]%nat alone_blocked).
  - lia.
  - lia.
  - repeat constructor.
  - by vm_compute.
Defined.

End BarrierCensus.
